(** * gpsgridder: the gridding core of [src/potential/gpsgridder.c]

    A shallow embedding of the numerical core of GMT's [gpsgridder] module
    (interpolation of GPS velocity vectors with the Green's functions of a
    thin elastic sheet) and the properties of it that the design document
    states.

    Conventions of the embedding.
    - A C [double] is a real number: rounding and overflow are not part of
      the model, the doubles with their range of the third convention
      apart.  Where the code divides by a value it has just tested
      against zero (the determinant, the ranges), by a count, or by an
      input that only makes sense when it is not zero (a data error,
      [1 + nu]), the division is the one of [R]; no theorem depends on the
      value of a division by zero.
    - In the Green's functions and in the eigenvalue ratios, where [log]
      and the division are applied to a value the code does not test, the
      result is a [double]: [Some r] for a finite result, [None] for the
      infinity or NaN that C delivers outside the domain of the
      operation.
    - Where the statement is that a result is finite, a [double] is a
      [dbl], with the range of binary64: an operation whose exact result
      is at or beyond the overflow threshold delivers an infinity, and the
      infinities and NaN propagate as IEEE 754 has it.  The rounding
      inside the range is a parameter of which the statements ask the
      error bound of rounding to nearest.
    - A C array is a function from indices to values ([gmt_M_memory] hands
      out zeroed memory); an assignment to an element is [upd].
    - Counts and indices ([uint64_t]) are natural numbers: the matrix of
      [(2n)^2] doubles has to be allocated, which keeps every index far from
      [2^64].
    - A [for] loop is [for_loop], the iteration of its body over
      [0, 1, ..., n-1] on the variables the body assigns. *)

From Stdlib Require Import Reals Lra Lia List Bool Arith NArith.
From Stdlib Require Import Sorted Permutation.
From Stdlib Require String.
Import String.StringSyntax.
Delimit Scope string_scope with string.
Import ListNotations.

Open Scope R_scope.

(** ** Arrays, loops and doubles *)

Definition array := nat -> R.

Definition upd {T : Type} (a : nat -> T) (i : nat) (x : T) : nat -> T :=
  fun k => if Nat.eqb k i then x else a k.

Definition for_loop {St : Type} (n : nat) (body : nat -> St -> St) (s : St) : St :=
  fold_left (fun acc i => body i acc) (seq 0 n) s.

Definition double := option R.

Definition fin (x : R) : double := Some x.

Definition is_finite (d : double) : Prop :=
  match d with Some _ => True | None => False end.

Definition dlift2 (f : R -> R -> R) (a b : double) : double :=
  match a, b with
  | Some x, Some y => Some (f x y)
  | _, _ => None
  end.

Definition dadd : double -> double -> double := dlift2 Rplus.
Definition dmul : double -> double -> double := dlift2 Rmult.

(** [log] of <math.h>: finite on the positive reals only. *)
Definition c_log (x : R) : double :=
  if Rlt_dec 0 x then Some (ln x) else None.

(** Division of doubles by a divisor the code does not test. *)
Definition c_div (x y : R) : double :=
  if Req_dec_T y 0 then None else Some (x / y).

Definition Rltb (x y : R) : bool := if Rlt_dec x y then true else false.
Definition Rgtb (x y : R) : bool := if Rgt_dec x y then true else false.
Definition Reqb (x y : R) : bool := if Req_dec_T x y then true else false.

(** The macro [MAX(x, y) (((x) > (y)) ? (x) : (y))]. *)
Definition MAX (x y : R) : R := if Rgtb x y then x else y.

(** [DBL_MAX] of <float.h>: [(2 - 2^-52) * 2^1023]. *)
Definition DBL_MAX : R := IZR (2 ^ 1024 - 2 ^ 971).

(** ** [enum Gpsgridded_enum] *)

Definition GSP_MEAN_X : nat := 0.
Definition GSP_MEAN_Y : nat := 1.
Definition GSP_MEAN_U : nat := 2.
Definition GSP_MEAN_V : nat := 3.
Definition GSP_SLP_UX : nat := 4.
Definition GSP_SLP_UY : nat := 5.
Definition GSP_SLP_VX : nat := 6.
Definition GSP_SLP_VY : nat := 7.
Definition GSP_RANGE_U : nat := 8.
Definition GSP_RANGE_V : nat := 9.
Definition GSP_LENGTH : nat := 10.
Definition GMT_X : nat := 0.
Definition GMT_Y : nat := 1.
Definition GMT_U : nat := 2.
Definition GMT_V : nat := 3.
Definition GMT_WU : nat := 2.
Definition GMT_WV : nat := 3.
Definition GPS_TREND : N := 1.
Definition GPS_NORM : N := 2.

(** [mode & flag], as a condition. *)
Definition bit_set (mode flag : N) : bool := negb (N.eqb (N.land mode flag) 0).

(** ** [struct GPSGRIDDER_CTRL] *)

Record GPSGRIDDER_CTRL := mkCtrl {
  C_active : bool;            (* -C[n|v]<cutoff>[/<file>] *)
  C_mode : nat;
  C_value : R;
  C_file : option String.string;
  F_active : bool;            (* -F<fudgefactor> or -Fa<mindist> *)
  F_mode : nat;
  F_fudge : R;
  L_active : bool;            (* -L *)
  S_nu : R;                   (* -S<nu> *)
  W_active : bool;            (* -W[w] *)
  W_mode : nat
}.

(** ** What the module takes from the GMT library

    [struct GMT_CTRL] and the macros of [gmt_dev.h] are not part of the
    module's source file.  The record gathers what the module reads from
    them; the theorems that quantify over it hold for any value of it. *)

Record GMT_CTRL := mkGMT {
  (* gmt_distance (GMT, x0, y0, x1, y1), set up by gmt_init_distaz *)
  gmt_distance : R -> R -> R -> R -> R;
  (* GMT->current.proj.DIST_KM_PR_DEG *)
  DIST_KM_PR_DEG : R;
  (* GMT->common.R.wesn[XLO], [XHI] *)
  wesn_XLO : R;
  wesn_XHI : R;
  (* gmt_M_is_geographic (GMT, GMT_IN) *)
  is_geographic : bool;
  (* the bound of gmt_M_is_zero(x): fabs (x) < GMT_CONV8_LIMIT *)
  GMT_CONV8_LIMIT : R;
  (* doubleAlmostEqualZero (A, B) *)
  doubleAlmostEqualZero : R -> R -> bool;
  (* cosd (x), the cosine of an angle in degrees *)
  cosd : R -> R;
  (* gmt_M_set_delta_lon (a, b, c): c is the wrapped difference b - a *)
  delta_lon : R -> R -> R
}.

Definition gmt_M_is_zero (GMT : GMT_CTRL) (x : R) : bool :=
  Rltb (Rabs x) (GMT_CONV8_LIMIT GMT).

(** ** Normalization: [do_gps_normalization], [undo_gps_normalization] *)

(** First loop: sums for the means of u and v, and of x and y when the
    trend is removed. *)
Definition mean_body (X : nat -> array) (u v : array) (mode : N)
    (i : nat) (coeff : array) : array :=
  let coeff := upd coeff GSP_MEAN_U (coeff GSP_MEAN_U + u i) in
  let coeff := upd coeff GSP_MEAN_V (coeff GSP_MEAN_V + v i) in
  if N.eqb (N.land mode GPS_TREND) 0 then coeff
  else
    let coeff := upd coeff GSP_MEAN_X (coeff GSP_MEAN_X + X i GMT_X) in
    upd coeff GSP_MEAN_Y (coeff GSP_MEAN_Y + X i GMT_Y).

Definition norm_means (X : nat -> array) (u v : array) (n : nat) (mode : N) : array :=
  let coeff := (fun _ => 0) : array in          (* gmt_M_memset *)
  let coeff := for_loop n (mean_body X u v mode) coeff in
  let coeff := upd coeff GSP_MEAN_U (coeff GSP_MEAN_U / INR n) in
  upd coeff GSP_MEAN_V (coeff GSP_MEAN_V / INR n).

(** The sums of squares and cross-products of the plane fit. *)
Record trend_sums := mkSums {
  sxx : R; sxy : R; sxu : R; sxv : R; syy : R; syu : R; syv : R
}.

Definition trend_body (X : nat -> array) (u v : array) (coeff : array)
    (i : nat) (s : trend_sums) : trend_sums :=
  let xx := X i GMT_X - coeff GSP_MEAN_X in
  let yy := X i GMT_Y - coeff GSP_MEAN_Y in
  let uu := u i - coeff GSP_MEAN_U in
  let vv := v i - coeff GSP_MEAN_V in
  {| sxx := sxx s + xx * xx;
     sxu := sxu s + xx * uu;
     sxv := sxv s + xx * vv;
     sxy := sxy s + xx * yy;
     syy := syy s + yy * yy;
     syu := syu s + yy * uu;
     syv := syv s + yy * vv |}.

Definition trend_sums_of (X : nat -> array) (u v : array) (n : nat) (coeff : array)
    : trend_sums :=
  for_loop n (trend_body X u v coeff) (mkSums 0 0 0 0 0 0 0).

(** [d = sxx*syy - sxy*sxy]. *)
Definition trend_det (s : trend_sums) : R := sxx s * syy s - sxy s * sxy s.

Definition fit_plane (s : trend_sums) (coeff : array) : array :=
  let d := trend_det s in
  if negb (Reqb d 0) then
    let coeff := upd coeff GSP_SLP_UX ((sxu s * syy s - sxy s * syu s) / d) in
    let coeff := upd coeff GSP_SLP_UY ((sxx s * syu s - sxy s * sxu s) / d) in
    let coeff := upd coeff GSP_SLP_VX ((sxv s * syy s - sxy s * syv s) / d) in
    upd coeff GSP_SLP_VY ((sxx s * syv s - sxy s * sxv s) / d)
  else coeff.

(** The coefficients with the means of x and y ([coeff[GSP_MEAN_X] /= n],
    [coeff[GSP_MEAN_Y] /= n]). *)
Definition norm_mean_xy (X : nat -> array) (u v : array) (n : nat) (mode : N) : array :=
  let coeff := norm_means X u v n mode in
  let coeff := upd coeff GSP_MEAN_X (coeff GSP_MEAN_X / INR n) in
  upd coeff GSP_MEAN_Y (coeff GSP_MEAN_Y / INR n).

(** The determinant [d] of the normal equations of the plane fit. *)
Definition normal_det (X : nat -> array) (u v : array) (n : nat) (mode : N) : R :=
  trend_det (trend_sums_of X u v n (norm_mean_xy X u v n mode)).

(** The coefficients as they stand when the planes are removed: the means
    and, under [GPS_TREND], the mean location and the slopes. *)
Definition norm_trend (X : nat -> array) (u v : array) (n : nat) (mode : N) : array :=
  if bit_set mode GPS_TREND then
    let coeff := norm_mean_xy X u v n mode in
    fit_plane (trend_sums_of X u v n coeff) coeff
  else norm_means X u v n mode.

(** Third loop: remove the means (and the planes), tracking the extreme
    residuals. *)
Record residuals := mkRes {
  res_u : array; res_v : array;
  umin : R; umax : R; vmin : R; vmax : R
}.

Definition remove_body (X : nat -> array) (mode : N) (coeff : array)
    (i : nat) (s : residuals) : residuals :=
  let u := upd (res_u s) i (res_u s i - coeff GSP_MEAN_U) in
  let v := upd (res_v s) i (res_v s i - coeff GSP_MEAN_V) in
  let u :=
    if bit_set mode GPS_TREND then
      upd u i (u i - (coeff GSP_SLP_UX * (X i GMT_X - coeff GSP_MEAN_X)
                      + coeff GSP_SLP_UY * (X i GMT_Y - coeff GSP_MEAN_Y)))
    else u in
  let v :=
    if bit_set mode GPS_TREND then
      upd v i (v i - (coeff GSP_SLP_VX * (X i GMT_X - coeff GSP_MEAN_X)
                      + coeff GSP_SLP_VY * (X i GMT_Y - coeff GSP_MEAN_Y)))
    else v in
  {| res_u := u; res_v := v;
     umin := if Rltb (u i) (umin s) then u i else umin s;
     umax := if Rgtb (u i) (umax s) then u i else umax s;
     vmin := if Rltb (v i) (vmin s) then v i else vmin s;
     vmax := if Rgtb (v i) (vmax s) then v i else vmax s |}.

Definition norm_remove (X : nat -> array) (u v : array) (n : nat) (mode : N)
    (coeff : array) : residuals :=
  for_loop n (remove_body X mode coeff)
    (mkRes u v DBL_MAX (- DBL_MAX) DBL_MAX (- DBL_MAX)).

(** [du = (range == 0.0) ? 1.0 : 1.0 / range]. *)
Definition range_scale (range : R) : R :=
  if Reqb range 0 then 1 else 1 / range.

Definition scale_body (du dv : R) (i : nat) (uv : array * array) : array * array :=
  (upd (fst uv) i (fst uv i * du), upd (snd uv) i (snd uv i * dv)).

(** [do_gps_normalization (API, X, u, v, n, mode, coeff)]: the arrays u and
    v as it leaves them, and the coefficients. *)
Definition do_gps_normalization (X : nat -> array) (u v : array) (n : nat) (mode : N)
    : array * array * array :=
  let coeff := norm_trend X u v n mode in
  let s := norm_remove X u v n mode coeff in
  if bit_set mode GPS_NORM then
    let coeff := upd coeff GSP_RANGE_U (MAX (Rabs (umin s)) (Rabs (umax s))) in
    let coeff := upd coeff GSP_RANGE_V (MAX (Rabs (vmin s)) (Rabs (vmax s))) in
    let du := range_scale (coeff GSP_RANGE_U) in
    let dv := range_scale (coeff GSP_RANGE_V) in
    let uv := for_loop n (scale_body du dv) (res_u s, res_v s) in
    (fst uv, snd uv, coeff)
  else (res_u s, res_v s, coeff).

(** [undo_gps_normalization (X, mode, coeff)], where X holds x, y, u, v. *)
Definition undo_gps_normalization (X : array) (mode : N) (coeff : array) : array :=
  let X :=
    if bit_set mode GPS_NORM then
      let X := upd X GMT_U (X GMT_U * coeff GSP_RANGE_U) in
      upd X GMT_V (X GMT_V * coeff GSP_RANGE_V)
    else X in
  let X := upd X GMT_U (X GMT_U + coeff GSP_MEAN_U) in
  let X := upd X GMT_V (X GMT_V + coeff GSP_MEAN_V) in
  if bit_set mode GPS_TREND then
    let X' := upd X GMT_U (X GMT_U + (coeff GSP_SLP_UX * (X GMT_X - coeff GSP_MEAN_X)
                                      + coeff GSP_SLP_UY * (X GMT_Y - coeff GSP_MEAN_Y))) in
    upd X' GMT_V (X' GMT_V + (coeff GSP_SLP_VX * (X' GMT_X - coeff GSP_MEAN_X)
                                + coeff GSP_SLP_VY * (X' GMT_Y - coeff GSP_MEAN_Y)))
  else X.

(** The array x, y, u, v of observation [i], on which the inverse works. *)
Definition point_of (X : nat -> array) (u v : array) (i : nat) : array :=
  upd (upd (upd (upd ((fun _ => 0) : array) GMT_X (X i GMT_X)) GMT_Y (X i GMT_Y))
         GMT_U (u i)) GMT_V (v i).

(** The plane [sx * (x - mean_x) + sy * (y - mean_y)] at the location of
    observation [i]. *)
Definition plane_at (coeff : array) (sx sy : nat) (X : nat -> array) (i : nat) : R :=
  coeff sx * (X i GMT_X - coeff GSP_MEAN_X) + coeff sy * (X i GMT_Y - coeff GSP_MEAN_Y).

(** The residuals of observation [i] once mean and plane are removed. *)
Definition detrended_u (X : nat -> array) (u : array) (mode : N) (coeff : array)
    (i : nat) : R :=
  if bit_set mode GPS_TREND
  then u i - coeff GSP_MEAN_U - plane_at coeff GSP_SLP_UX GSP_SLP_UY X i
  else u i - coeff GSP_MEAN_U.

Definition detrended_v (X : nat -> array) (v : array) (mode : N) (coeff : array)
    (i : nat) : R :=
  if bit_set mode GPS_TREND
  then v i - coeff GSP_MEAN_V - plane_at coeff GSP_SLP_VX GSP_SLP_VY X i
  else v i - coeff GSP_MEAN_V.

(** ** Distance model: [get_gps_radius], [get_gps_dxdy] *)

Definition get_gps_radius (GMT : GMT_CTRL) (X0 X1 : array) : R :=
  gmt_distance GMT (X0 GMT_X) (X0 GMT_Y) (X1 GMT_X) (X1 GMT_Y).

Definition get_gps_dxdy (GMT : GMT_CTRL) (X0 X1 : array) (geo : bool) : R * R :=
  if geo then
    let dlon := delta_lon GMT (X0 GMT_X) (X1 GMT_X) in
    (dlon * cosd GMT (0.5 * (X1 GMT_Y + X0 GMT_Y)) * DIST_KM_PR_DEG GMT,
     (X1 GMT_Y - X0 GMT_Y) * DIST_KM_PR_DEG GMT)
  else
    (X1 GMT_X - X0 GMT_X, X1 GMT_Y - X0 GMT_Y).

(** ** Green's functions: [evaluate_greensfunctions] *)

(** [evaluate_greensfunctions (dx, dy, par, G)]: the triple G[0], G[1],
    G[2]. *)
Definition evaluate_greensfunctions (dx dy : R) (par : array)
    : double * double * double :=
  let dx2 := dx * dx in
  let dy2 := dy * dy in
  let dr2 := dx2 + dy2 + par 1%nat in
  let c1 := (3.0 - par 0%nat) / 2.0 in
  let c2 := 1.0 + par 0%nat in
  let G01 := dmul (fin c1) (c_log dr2) in
  let dr2 := c_div 1.0 dr2 in
  let G0 := dadd G01 (dmul (fin (c2 * dx2)) dr2) in
  let G1 := dadd G01 (dmul (fin (c2 * dy2)) dr2) in
  let G2 := dmul (fin (c2 * dx * dy)) dr2 in
  (G0, G1, G2).

(** The triple as the design document writes it, with
    [r2 = dx^2 + dy^2 + fudge], [c1 = (3 - eps_term)/2] and
    [c2 = 1 + eps_term]: (G_xx, G_yy, G_xy). *)
Definition greens_spec (dx dy eps_term fudge : R) : double * double * double :=
  let r2 := dx ^ 2 + dy ^ 2 + fudge in
  let c1 := (3 - eps_term) / 2 in
  let c2 := 1 + eps_term in
  (dadd (dmul (fin c1) (c_log r2)) (c_div (c2 * dx ^ 2) r2),
   dadd (dmul (fin c1) (c_log r2)) (c_div (c2 * dy ^ 2) r2),
   c_div (c2 * dx * dy) r2).

(** ** Binary64 with its range

    Where a statement is about a result being finite, a C [double] is a
    [dbl]: a finite value, an infinity with its sign, or NaN.  An
    operation on finite operands delivers the rounding [rnd] of the exact
    result when that result is inside the range, and the infinity of its
    sign when it is at or beyond [DBL_OVERFLOW]; on an infinity or a NaN
    it follows IEEE 754 ([0 * inf], [inf - inf], [0 / 0] and the [log] of
    a negative are NaN, [x / inf] is zero, [log 0] is [-inf]).  The sign of
    a zero is not kept: a non-zero value divided by zero is the infinity of
    the dividend's sign. *)

Inductive dbl := Fin (x : R) | Inf (negative : bool) | NaN.

(** The least magnitude that rounds to an infinity: [DBL_MAX] plus half a
    unit in its last place, [2^1024 - 2^970]. *)
Definition DBL_OVERFLOW : R := IZR (2 ^ 1024 - 2 ^ 970).

(** [DBL_MIN] of <float.h>, the least positive normal double: [2^-1022]. *)
Definition DBL_MIN : R := / IZR (2 ^ 1022).

(** What the statements ask of the rounding inside the range: zero is
    kept, and the error is at most half a unit in the last place, which is
    [2^-53] of the magnitude for a normal result and [2^-1075] for a
    subnormal one. *)
Definition binary64_rounding (rnd : R -> R) : Prop :=
  rnd 0 = 0 /\
  forall x : R, Rabs x < DBL_OVERFLOW ->
    Rabs (rnd x - x) <= Rmax (Rabs x * / IZR (2 ^ 53)) (/ IZR (2 ^ 1075)).

(** The rounding of a value that needs none. *)
Definition exact_rounding : R -> R := fun x => x.

Definition dbl_round (rnd : R -> R) (x : R) : dbl :=
  if Rltb (Rabs x) DBL_OVERFLOW then Fin (rnd x) else Inf (Rltb x 0).

Definition dbl_neg (a : dbl) : dbl :=
  match a with
  | Fin x => Fin (- x)
  | Inf s => Inf (negb s)
  | NaN => NaN
  end.

Definition dbl_add (rnd : R -> R) (a b : dbl) : dbl :=
  match a, b with
  | Fin x, Fin y => dbl_round rnd (x + y)
  | Fin _, Inf s => Inf s
  | Inf s, Fin _ => Inf s
  | Inf s, Inf t => if Bool.eqb s t then Inf s else NaN
  | _, _ => NaN
  end.

Definition dbl_sub (rnd : R -> R) (a b : dbl) : dbl := dbl_add rnd a (dbl_neg b).

Definition dbl_mul (rnd : R -> R) (a b : dbl) : dbl :=
  match a, b with
  | Fin x, Fin y => dbl_round rnd (x * y)
  | Fin x, Inf s => if Reqb x 0 then NaN else Inf (xorb (Rltb x 0) s)
  | Inf s, Fin y => if Reqb y 0 then NaN else Inf (xorb s (Rltb y 0))
  | Inf s, Inf t => Inf (xorb s t)
  | _, _ => NaN
  end.

Definition dbl_div (rnd : R -> R) (a b : dbl) : dbl :=
  match a, b with
  | Fin x, Fin y =>
      if Reqb y 0 then (if Reqb x 0 then NaN else Inf (Rltb x 0))
      else dbl_round rnd (x / y)
  | Fin _, Inf _ => Fin 0
  | Inf s, Fin y => Inf (xorb s (Rltb y 0))
  | _, _ => NaN
  end.

(** [log] of <math.h>, taken as the rounding of the exact logarithm. *)
Definition dbl_log (rnd : R -> R) (a : dbl) : dbl :=
  match a with
  | Fin x =>
      if Rltb 0 x then dbl_round rnd (ln x)
      else if Reqb x 0 then Inf true else NaN
  | Inf false => Inf false
  | _ => NaN
  end.

Definition dbl_finite (a : dbl) : Prop :=
  match a with Fin _ => True | _ => False end.

Definition dbl_positive (a : dbl) : Prop :=
  match a with Fin x => 0 < x | Inf s => s = false | NaN => False end.

(** [evaluate_greensfunctions], statement by statement, on doubles with
    their range. *)
Definition evaluate_greensfunctions_dbl (rnd : R -> R) (dx dy : dbl) (par : nat -> dbl)
    : dbl * dbl * dbl :=
  let dx2 := dbl_mul rnd dx dx in
  let dy2 := dbl_mul rnd dy dy in
  let dr2 := dbl_add rnd (dbl_add rnd dx2 dy2) (par 1%nat) in
  let c1 := dbl_div rnd (dbl_sub rnd (Fin 3.0) (par 0%nat)) (Fin 2.0) in
  let c2 := dbl_add rnd (Fin 1.0) (par 0%nat) in
  let G01 := dbl_mul rnd c1 (dbl_log rnd dr2) in
  let dr2 := dbl_div rnd (Fin 1.0) dr2 in
  let G0 := dbl_add rnd G01 (dbl_mul rnd (dbl_mul rnd c2 dx2) dr2) in
  let G1 := dbl_add rnd G01 (dbl_mul rnd (dbl_mul rnd c2 dy2) dr2) in
  let G2 := dbl_mul rnd (dbl_mul rnd (dbl_mul rnd c2 dx) dy) dr2 in
  (G0, G1, G2).

(** ** [GMT_gpsgridder]: reading the observations *)

(** Return codes of the run that the properties mention. *)
Inductive retcode := GMT_RUNTIME_ERROR | GMT_DATA_READ_ERROR.

(** What [GMT_Get_Record] delivers before the end of the file: a data
    record, a table or segment header, or a read error. *)
Inductive record :=
| Rec_data (inp : array)
| Rec_header
| Rec_error.

(** The variables of the reading loop. *)
Record reader := mkReader {
  rd_X : nat -> array;
  rd_u : array;
  rd_v : array;
  rd_n : nat;
  rd_n_read : nat;
  rd_n_skip : nat;
  rd_n_duplicates : nat;
  rd_r_min : R;
  rd_r_max : R
}.

Definition init_reader : reader :=
  mkReader (fun _ _ => 0) (fun _ => 0) (fun _ => 0) 0 0 0 0 DBL_MAX (- DBL_MAX).

(** The variables the duplicate check assigns. *)
Record scan := mkScan {
  skip : bool;
  sc_n_skip : nat;
  sc_n_duplicates : nat;
  sc_r_min : R;
  sc_r_max : R
}.

(** Body of [for (i = 0; !skip && i < n; i++)]: once [skip] is set the
    loop is left, so the remaining indices change nothing. *)
Definition scan_body (GMT : GMT_CTRL) (X : nat -> array) (u v : array) (n : nat)
    (inp : array) (i : nat) (s : scan) : scan :=
  if skip s then s
  else
    let r := get_gps_radius GMT (X i) (X n) in
    if gmt_M_is_zero GMT r then
      if doubleAlmostEqualZero GMT (inp GMT_U) (u i)
         && doubleAlmostEqualZero GMT (inp GMT_V) (v i)
      then mkScan true (S (sc_n_skip s)) (sc_n_duplicates s) (sc_r_min s) (sc_r_max s)
      else mkScan false (sc_n_skip s) (S (sc_n_duplicates s)) (sc_r_min s) (sc_r_max s)
    else
      mkScan false (sc_n_skip s) (sc_n_duplicates s)
        (if Rltb r (sc_r_min s) then r else sc_r_min s)
        (if Rgtb r (sc_r_max s) then r else sc_r_max s).

(** Geographic longitudes are moved into the range of the region. *)
Definition fit_longitude (GMT : GMT_CTRL) (inp : array) : array :=
  if is_geographic GMT then
    if Rltb (inp GMT_X) (wesn_XLO GMT) && Rltb (inp GMT_X + 360.0) (wesn_XHI GMT)
    then upd inp GMT_X (inp GMT_X + 360.0)
    else if Rgtb (inp GMT_X) (wesn_XHI GMT) && Rgtb (inp GMT_X - 360.0) (wesn_XLO GMT)
    then upd inp GMT_X (inp GMT_X - 360.0)
    else inp
  else inp.

(** The row X[n] once x and y of the record are saved in it. *)
Definition save_xy (X : nat -> array) (n : nat) (inp : array) : nat -> array :=
  upd X n (upd (upd (X n) GMT_X (inp GMT_X)) GMT_Y (inp GMT_Y)).

(** The weights saved in X[n] under -W; sigmas are turned into weights. *)
Definition save_weights (Ctrl : GPSGRIDDER_CTRL) (X : nat -> array) (n : nat)
    (inp : array) : nat -> array :=
  if W_active Ctrl then
    let row := upd (upd (X n) GMT_WU (inp 4%nat)) GMT_WV (inp 5%nat) in
    let row :=
      if Nat.eqb (W_mode Ctrl) 0 then
        let row := upd row GMT_WU (1.0 / row GMT_WU) in
        upd row GMT_WV (1.0 / row GMT_WV)
      else row in
    upd X n row
  else X.

(** One data record through the body of the reading loop. *)
Definition read_data (Ctrl : GPSGRIDDER_CTRL) (GMT : GMT_CTRL) (inp : array)
    (st : reader) : reader :=
  let inp := fit_longitude GMT inp in
  let n := rd_n st in
  let X := save_xy (rd_X st) n inp in
  let s := for_loop n (scan_body GMT X (rd_u st) (rd_v st) n inp)
             (mkScan false (rd_n_skip st) (rd_n_duplicates st)
                (rd_r_min st) (rd_r_max st)) in
  let n_read := S (rd_n_read st) in
  if skip s then
    mkReader X (rd_u st) (rd_v st) n n_read
      (sc_n_skip s) (sc_n_duplicates s) (sc_r_min s) (sc_r_max s)
  else
    let u := upd (rd_u st) n (inp GMT_U) in
    let v := upd (rd_v st) n (inp GMT_V) in
    let X := save_weights Ctrl X n inp in
    mkReader X u v (S n) n_read
      (sc_n_skip s) (sc_n_duplicates s) (sc_r_min s) (sc_r_max s).

(** The reading loop, to the end of the input. *)
Fixpoint read_records (Ctrl : GPSGRIDDER_CTRL) (GMT : GMT_CTRL)
    (input : list record) (st : reader) : retcode + reader :=
  match input with
  | [] => inr st
  | Rec_error :: _ => inl GMT_RUNTIME_ERROR
  | Rec_header :: rest => read_records Ctrl GMT rest st
  | Rec_data inp :: rest => read_records Ctrl GMT rest (read_data Ctrl GMT inp st)
  end.

(** [if (n_duplicates) ...]: the error the run returns with, if any. *)
Definition duplicate_gate (Ctrl : GPSGRIDDER_CTRL) (GMT : GMT_CTRL) (st : reader)
    : option retcode :=
  if negb (Nat.eqb (rd_n_duplicates st) 0) then
    if negb (C_active Ctrl) || gmt_M_is_zero GMT (C_value Ctrl)
    then Some GMT_DATA_READ_ERROR
    else None
  else None.

(** The two tests of the duplicate check, of a record against the retained
    observation [i]: same location, and same u and v. *)
Definition same_location (GMT : GMT_CTRL) (X : nat -> array) (i : nat) (inp : array)
    : bool :=
  gmt_M_is_zero GMT (gmt_distance GMT (X i GMT_X) (X i GMT_Y) (inp GMT_X) (inp GMT_Y)).

Definition same_uv (GMT : GMT_CTRL) (u v : array) (i : nat) (inp : array) : bool :=
  doubleAlmostEqualZero GMT (inp GMT_U) (u i)
  && doubleAlmostEqualZero GMT (inp GMT_V) (v i).

(** How many of the first [n] indices pass a test. *)
Definition count_upto (P : nat -> bool) (n : nat) : nat :=
  length (filter P (seq 0 n)).

(** Two retained observations [i < j] at the same location whose u, v
    differ, by the tests the duplicate check applied when [j] was read. *)
Definition conflicting (GMT : GMT_CTRL) (st : reader) (i j : nat) : Prop :=
  (i < j < rd_n st)%nat /\
  same_location GMT (rd_X st) i (point_of (rd_X st) (rd_u st) (rd_v st) j) = true /\
  same_uv GMT (rd_u st) (rd_v st) i (point_of (rd_X st) (rd_u st) (rd_v st) j) = false.

(** An input record x, y, u, v and the two columns that -W adds. *)
Definition obs_record (x y u v wu wv : R) : array :=
  fun k =>
    match k with
    | 0%nat => x
    | 1%nat => y
    | 2%nat => u
    | 3%nat => v
    | 4%nat => wu
    | _ => wv
    end.

(** ** [GMT_gpsgridder]: the linear system *)

Definition normalize_mode (Ctrl : GPSGRIDDER_CTRL) : N :=
  if L_active Ctrl then GPS_NORM else (GPS_TREND + GPS_NORM)%N.

Definition init_par (Ctrl : GPSGRIDDER_CTRL) (r_min : R) : array :=
  let par := upd ((fun _ => 0) : array) 0
               (0.5 * (2.0 * (1.0 - S_nu Ctrl) / (1.0 + S_nu Ctrl) + 1.0)) in
  if Nat.eqb (F_mode Ctrl) 1 then upd par 1 (F_fudge Ctrl)
  else upd par 1 (F_fudge Ctrl * r_min).

(** The variables the assembly loops assign. *)
Record assembly := mkAsm {
  asm_A : nat -> double;
  asm_u : array;
  asm_v : array;
  weight_u : R;
  weight_v : R;
  weight_ju : R;
  weight_jv : R
}.

(** Body of the loop on the columns i of row j. *)
Definition column_body (Ctrl : GPSGRIDDER_CTRL) (GMT : GMT_CTRL) (X : nat -> array)
    (n : nat) (par : array) (geo : bool) (j i : nat) (s : assembly) : assembly :=
  let n2 := (2 * n)%nat in
  let weight_u :=
    if W_active Ctrl then weight_ju s * X i GMT_WU else weight_u s in
  let weight_v :=
    if W_active Ctrl then weight_jv s * X i GMT_WV else weight_v s in
  let Gu_ij := (j * n2 + i)%nat in
  let Guv_ij := (Gu_ij + n)%nat in
  let Gvu_ij := ((j + n) * n2 + i)%nat in
  let Gv_ij := (Gvu_ij + n)%nat in
  let '(dx, dy) := get_gps_dxdy GMT (X i) (X j) geo in
  let '(G0, G1, G2) := evaluate_greensfunctions dx dy par in
  let A := upd (asm_A s) Gu_ij (dmul (fin weight_u) G0) in
  let A := upd A Gv_ij (dmul (fin weight_v) G1) in
  let A := upd A Guv_ij (dmul (fin weight_u) G2) in
  let A := upd A Gvu_ij (dmul (fin weight_v) G2) in
  mkAsm A (asm_u s) (asm_v s) weight_u weight_v (weight_ju s) (weight_jv s).

(** Body of the loop on the rows j. *)
Definition row_body (Ctrl : GPSGRIDDER_CTRL) (GMT : GMT_CTRL) (X : nat -> array)
    (n : nat) (par : array) (geo : bool) (j : nat) (s : assembly) : assembly :=
  let s :=
    if W_active Ctrl then
      let wju := X j GMT_WU in
      let wjv := X j GMT_WV in
      mkAsm (asm_A s) (upd (asm_u s) j (asm_u s j * wju))
        (upd (asm_v s) j (asm_v s j * wjv))
        (weight_u s) (weight_v s) wju wjv
    else s in
  for_loop n (column_body Ctrl GMT X n par geo j) s.

Definition build_matrix (Ctrl : GPSGRIDDER_CTRL) (GMT : GMT_CTRL) (X : nat -> array)
    (u v : array) (n : nat) (par : array) (geo : bool) : assembly :=
  for_loop n (row_body Ctrl GMT X n par geo)
    (mkAsm (fun _ => fin 0) u v 1.0 1.0 1.0 1.0).

(** The weights on row-block [j], column-block [i]: [weight_u] and
    [weight_v] as the column loop has them at [i]. *)
Definition pair_weight_u (Ctrl : GPSGRIDDER_CTRL) (X : nat -> array) (j i : nat) : R :=
  if W_active Ctrl then X j GMT_WU * X i GMT_WU else 1.0.

Definition pair_weight_v (Ctrl : GPSGRIDDER_CTRL) (X : nat -> array) (j i : nat) : R :=
  if W_active Ctrl then X j GMT_WV * X i GMT_WV else 1.0.

(** The Green's functions on the offset from observation [i] to
    observation [j]. *)
Definition greens_between (GMT : GMT_CTRL) (X : nat -> array) (par : array)
    (geo : bool) (i j : nat) : double * double * double :=
  let '(dx, dy) := get_gps_dxdy GMT (X i) (X j) geo in
  evaluate_greensfunctions dx dy par.

(** [gmt_M_memcpy (&u[n], v, n, double)]. *)
Definition append_v (u v : array) (n : nat) : array :=
  for_loop n (fun k obs => upd obs (n + k)%nat (v k)) u.

(** The system [A x = b] of [n2 = 2n] equations, with the data the field
    evaluation keeps. *)
Record linear_system := mkSys {
  sys_n : nat;
  sys_A : nat -> double;
  sys_obs : array;
  sys_X : nat -> array;
  sys_par : array;
  sys_norm : array
}.

Definition build_system (Ctrl : GPSGRIDDER_CTRL) (GMT : GMT_CTRL) (st : reader)
    : linear_system :=
  let n := rd_n st in
  let par := init_par Ctrl (rd_r_min st) in
  let '(u, v, norm) :=
    do_gps_normalization (rd_X st) (rd_u st) (rd_v st) n (normalize_mode Ctrl) in
  let s := build_matrix Ctrl GMT (rd_X st) u v n par (is_geographic GMT) in
  mkSys n (asm_A s) (append_v (asm_u s) (asm_v s) n) (rd_X st) par norm.

(** The run of [GMT_gpsgridder] from the first record to the linear system
    it hands to the solver, or the error that the reading loop or the gate
    on duplicates returns with before.  The returns of the library's calls
    in between ([GMT_End_IO], the reading and checking of a [-T] mask or of
    the [-N] locations, [GMT_Create_Data]) are not part of it: what it
    delivers is the system of a run in which those calls succeed. *)
Definition GMT_gpsgridder_system (Ctrl : GPSGRIDDER_CTRL) (GMT : GMT_CTRL)
    (input : list record) : retcode + linear_system :=
  match read_records Ctrl GMT input init_reader with
  | inl e => inl e
  | inr st =>
      match duplicate_gate Ctrl GMT st with
      | Some e => inl e
      | None => inr (build_system Ctrl GMT st)
      end
  end.

(** ** The solvers' contract *)

(** Row [row] of [A] times [x]. *)
Definition row_dot (A : nat -> double) (n2 row : nat) (x : array) : double :=
  for_loop n2 (fun col acc => dadd acc (dmul (A (row * n2 + col)%nat) (fin (x col))))
    (fin 0).

(** Modelled from the spec: [gmt_gaussjordan] and [gmt_solve_svd] are GMT
    library routines outside the module's source file.  The direct strategy
    is "elimination on the full matrix against the right-hand side in place"
    and both strategies "produce one coefficient vector of length 2n": a
    vector a solver may deliver for the system satisfies its [n2]
    equations. *)
Definition solves (A : nat -> double) (n2 : nat) (b x : array) : Prop :=
  forall row, (row < n2)%nat -> row_dot A n2 row x = fin (b row).

(** ** Eigenvalue diagnostics *)

Fixpoint insert_ascending (x : R) (l : list R) : list R :=
  match l with
  | [] => [x]
  | y :: t => if Rle_dec x y then x :: y :: t else y :: insert_ascending x t
  end.

(** Modelled from the spec: [gmt_sort_array (GMT, eig, n2, GMT_DOUBLE)] is a
    GMT library routine outside the module's source file; the module's
    comment at the call is "Sort eigenvalues into ascending order".  The
    first [m] elements are put in ascending order. *)
Definition gmt_sort_array (a : array) (m : nat) : array :=
  let sorted := fold_right insert_ascending [] (map a (seq 0 m)) in
  fun k => if Nat.ltb k m then nth k sorted 0 else a k.

(** Body of [for (i = 0, j = n2-1; i < n2; i++, j--)], on the two columns
    of the data set and [j]. *)
Definition report_body (Ctrl : GPSGRIDDER_CTRL) (eig : array) (eig_max : R) (i : nat)
    (st : (nat -> R) * (nat -> double) * nat) : (nat -> R) * (nat -> double) * nat :=
  let '(EX, EY, j) := st in
  (upd EX i (INR i + 1.0),
   upd EY i (if Nat.eqb (C_mode Ctrl) 1 then fin (eig j) else c_div (eig j) eig_max),
   (j - 1)%nat).

(** The two columns written to the eigenvalue file, from the singular
    values [s] that [gmt_svdcmp] delivered; nothing is written unless the
    regularized solver is selected and a file is named. *)
Definition eigen_report (Ctrl : GPSGRIDDER_CTRL) (s : array) (n : nat)
    : option ((nat -> R) * (nat -> double)) :=
  if C_active Ctrl then
    match C_file Ctrl with
    | Some _ =>
        let n2 := (2 * n)%nat in
        let eig := gmt_sort_array s n2 in
        let eig_max := eig (n - 1)%nat in
        let '(EX, EY, _) :=
          for_loop n2 (report_body Ctrl eig eig_max)
            ((fun _ => 0) : nat -> R, (fun _ => fin 0) : nat -> double, (n2 - 1)%nat) in
        Some (EX, EY)
    | None => None
    end
  else None.

(** ** A Cartesian host *)

(** A value of the record for the concrete runs below: Cartesian data
    with the Euclidean distance, [1e-8] as the bound of "zero", and two
    values almost equal when they differ by at most [5 * DBL_EPSILON] (the
    comparison of bit patterns that GMT's macro adds for larger values has
    no counterpart on the reals).  The geographic fields are not used by
    Cartesian runs. *)
Definition GMT_cartesian : GMT_CTRL :=
  {| gmt_distance := fun x0 y0 x1 y1 =>
       sqrt ((x1 - x0) * (x1 - x0) + (y1 - y0) * (y1 - y0));
     DIST_KM_PR_DEG := 111.1949;
     wesn_XLO := 0;
     wesn_XHI := 0;
     is_geographic := false;
     GMT_CONV8_LIMIT := / 10 ^ 8;
     doubleAlmostEqualZero := fun a b =>
       if Rle_dec (Rabs (a - b)) (5 * / 2 ^ 52) then true else false;
     cosd := fun x => cos (x * PI / 180);
     delta_lon := fun a b => b - a |}.

(** ** Concrete runs *)

(** [New_Ctrl]: the control structure before any option is parsed. *)
Definition New_Ctrl : GPSGRIDDER_CTRL :=
  {| C_active := false; C_mode := 0; C_value := 0; C_file := None;
     F_active := false; F_mode := 0; F_fudge := 1.0e-2;
     L_active := false;
     S_nu := 0.25;
     W_active := false; W_mode := 0 |}.

(** Two observations at the origin with different u, v. *)
Definition rec_A : array := obs_record 0 0 1 1 0 0.
Definition rec_B : array := obs_record 0 0 2 2 0 0.

(** The variables of the reading loop once [rec_A] and [rec_B] are read. *)
Definition after_A_B : reader :=
  read_data New_Ctrl GMT_cartesian rec_B
    (read_data New_Ctrl GMT_cartesian rec_A init_reader).

(** The options [-C-1/eig.txt]: the regularized solver, asked to save the
    eigenvalues and stop (a negative cutoff). *)
Definition Ctrl_eigen_only : GPSGRIDDER_CTRL :=
  {| C_active := true; C_mode := 0; C_value := -1; C_file := Some "eig.txt"%string;
     F_active := false; F_mode := 0; F_fudge := 1.0e-2;
     L_active := false;
     S_nu := 0.25;
     W_active := false; W_mode := 0 |}.

(** The options [-W -L -Fd1]: two more input columns with the data
    errors (the weights are their reciprocals), no trend removal, and 1 as
    the fudge added to the squared distances. *)
Definition Ctrl_weighted : GPSGRIDDER_CTRL :=
  {| C_active := false; C_mode := 0; C_value := 0; C_file := None;
     F_active := true; F_mode := 1; F_fudge := 1;
     L_active := true;
     S_nu := 0.25;
     W_active := true; W_mode := 0 |}.

(** Two observations one unit apart, with opposite u and no v, both with
    the data error [sigma] on u and on v. *)
Definition two_points (sigma : R) : list record :=
  [Rec_data (obs_record 0 0 1 0 sigma sigma);
   Rec_data (obs_record 1 0 (-1) 0 sigma sigma)].

(** The variables of the reading loop once [two_points sigma] is read. *)
Definition after_two_points (sigma : R) : reader :=
  read_data Ctrl_weighted GMT_cartesian (obs_record 1 0 (-1) 0 sigma sigma)
    (read_data Ctrl_weighted GMT_cartesian (obs_record 0 0 1 0 sigma sigma)
       init_reader).

(** The system of the two points, up to the weights: with [c1] and [c2] of
    the Green's functions for Poisson's ratio 0.25, the coupling of the two
    points is [two_point_B] on u and [two_point_L] on v; a point does not
    couple with itself ([ln 1 = 0]), nor u with v. *)
Definition two_point_par0 : R := 0.5 * (2.0 * (1.0 - 0.25) / (1.0 + 0.25) + 1.0).

Definition two_point_L : R := (3.0 - two_point_par0) / 2.0 * ln 2.

Definition two_point_B : R := two_point_L + (1.0 + two_point_par0) * / 2.

Definition two_point_M (idx : nat) : R :=
  match idx with
  | 1%nat | 4%nat => two_point_B
  | 11%nat | 14%nat => two_point_L
  | _ => 0
  end.

Definition two_point_rhs (row : nat) : R :=
  match row with
  | 0%nat => 1
  | 1%nat => -1
  | _ => 0
  end.

(** The coefficients that solve the system of the two points when the
    weights are 1. *)
Definition two_point_alpha (k : nat) : R :=
  match k with
  | 0%nat => -1 / two_point_B
  | 1%nat => 1 / two_point_B
  | _ => 0
  end.

(** ** [GMT_gpsgridder]: evaluating the field *)

(** Body of [for (p = 0; p < n; p++)] on the two sums out[GMT_U] and
    out[GMT_V]; [out] holds the output location, [obs] the solution, with
    [alpha_x = obs] and [alpha_y = &obs[n]]. *)
Definition predict_body (GMT : GMT_CTRL) (X : nat -> array) (obs : array) (n : nat)
    (par : array) (geo : bool) (out : array) (p : nat) (UV : double * double)
    : double * double :=
  let alpha_x := obs in
  let alpha_y := fun k => obs (n + k)%nat in
  let '(dx, dy) := get_gps_dxdy GMT out (X p) geo in
  let '(G0, G1, G2) := evaluate_greensfunctions dx dy par in
  (dadd (fst UV) (dadd (dmul (fin (alpha_x p)) G0) (dmul (fin (alpha_y p)) G2)),
   dadd (snd UV) (dadd (dmul (fin (alpha_y p)) G1) (dmul (fin (alpha_x p)) G2))).

(** The two sums at the location [out], before the normalization is
    undone. *)
Definition predict_sums (GMT : GMT_CTRL) (X : nat -> array) (obs : array) (n : nat)
    (par : array) (geo : bool) (out : array) : double * double :=
  for_loop n (predict_body GMT X obs n par geo out) (fin 0, fin 0).

(** [undo_gps_normalization] on the two sums: a sum that is not finite
    stays so, and does not touch the other component. *)
Definition undo_predicted (out : array) (UV : double * double) (mode : N)
    (coeff : array) : double * double :=
  match UV with
  | (Some u, Some v) =>
      let P := undo_gps_normalization (upd (upd out GMT_U u) GMT_V v) mode coeff in
      (Some (P GMT_U), Some (P GMT_V))
  | (Some u, None) =>
      (Some (undo_gps_normalization (upd out GMT_U u) mode coeff GMT_U), None)
  | (None, Some v) =>
      (None, Some (undo_gps_normalization (upd out GMT_V v) mode coeff GMT_V))
  | (None, None) => (None, None)
  end.

(** The field u, v at the location [out]. *)
Definition predict_point (GMT : GMT_CTRL) (X : nat -> array) (obs : array) (n : nat)
    (par : array) (geo : bool) (mode : N) (coeff : array) (out : array)
    : double * double :=
  undo_predicted out (predict_sums GMT X obs n par geo out) mode coeff.

(** The location of node (row, col) of the lattice. *)
Definition node_location (xp yp : array) (row col : nat) : array :=
  upd (upd ((fun _ => 0) : array) GMT_X (xp col)) GMT_Y (yp row).

(** Body of the loop on the columns of one row of the lattice, on the data
    of the two grids; [ijp] is [gmt_M_ijp] on the grid header, and a node
    whose value in the first grid is NaN (a node the mask leaves out) is
    passed over.  The grids hold floats: the narrowing of the two sums,
    like every rounding, is left out. *)
Definition lattice_body (GMT : GMT_CTRL) (X : nat -> array) (obs : array) (n : nat)
    (par : array) (geo : bool) (mode : N) (coeff : array) (xp yp : array)
    (ijp : nat -> nat -> nat) (row col : nat)
    (g : (nat -> double) * (nat -> double)) : (nat -> double) * (nat -> double) :=
  let ij := ijp row col in
  match fst g ij with
  | None => g
  | Some _ =>
      let '(U, V) :=
        predict_point GMT X obs n par geo mode coeff (node_location xp yp row col) in
      (upd (fst g) ij U, upd (snd g) ij V)
  end.

(** The two grids once the field is evaluated on the [ny] rows and [nx]
    columns of the lattice. *)
Definition evaluate_lattice (GMT : GMT_CTRL) (X : nat -> array) (obs : array) (n : nat)
    (par : array) (geo : bool) (mode : N) (coeff : array) (xp yp : array)
    (ijp : nat -> nat -> nat) (ny nx : nat)
    (g : (nat -> double) * (nat -> double)) : (nat -> double) * (nat -> double) :=
  for_loop ny
    (fun row g =>
       for_loop nx
         (fun col g => lattice_body GMT X obs n par geo mode coeff xp yp ijp row col g)
         g)
    g.

(** ** Notions used by the statements *)

(** The sum of the first [n] values of [f]. *)
Definition Rsum (f : nat -> R) (n : nat) : R :=
  for_loop n (fun i acc => acc + f i) 0.

(** The data records of an input, in order. *)
Definition data_records (input : list record) : list array :=
  flat_map (fun r => match r with Rec_data inp => [inp] | _ => [] end) input.

(** The variables of the reading loop once the data records [recs] are
    read one after the other. *)
Definition read_all (Ctrl : GPSGRIDDER_CTRL) (GMT : GMT_CTRL) (recs : list array)
    (st : reader) : reader :=
  fold_left (fun st inp => read_data Ctrl GMT inp st) recs st.

(** The Green's functions as real numbers, where they are finite. *)
Definition greens_real (dx dy : R) (par : array) : R * R * R :=
  let r2 := dx * dx + dy * dy + par 1%nat in
  ((3.0 - par 0%nat) / 2.0 * ln r2 + (1.0 + par 0%nat) * (dx * dx) * (1.0 / r2),
   (3.0 - par 0%nat) / 2.0 * ln r2 + (1.0 + par 0%nat) * (dy * dy) * (1.0 / r2),
   (1.0 + par 0%nat) * dx * dy * (1.0 / r2)).

(** The host computes offsets that change sign when the two points are
    exchanged: always so for Cartesian data, and for geographic data when
    the wrapped longitude difference does. *)
Definition antisymmetric_offsets (GMT : GMT_CTRL) (geo : bool) : Prop :=
  geo = false \/ forall a b, delta_lon GMT a b = - delta_lon GMT b a.

(** What the lattice loops leave at node [ij] of the grids [g'], from the
    grids [g] they started on: a masked node as it was, any other node with
    the components of [P]. *)
Definition node_done (g g' : (nat -> double) * (nat -> double)) (ij : nat)
    (P : double * double) : Prop :=
  match fst g ij with
  | None => fst g' ij = None /\ snd g' ij = snd g ij
  | Some _ => fst g' ij = fst P /\ snd g' ij = snd P
  end.

(** Data record [k] of a list as the reading loop takes it, with its
    longitude fitted to the region. *)
Definition record_at (GMT : GMT_CTRL) (recs : list array) (k : nat) : array :=
  fit_longitude GMT (nth k recs (fun _ => 0)).

(** The real Green's functions on the offset from observation [i] to
    observation [j]. *)
Definition greens_real_between (GMT : GMT_CTRL) (X : nat -> array) (par : array)
    (geo : bool) (i j : nat) : R * R * R :=
  let '(dx, dy) := get_gps_dxdy GMT (X i) (X j) geo in
  greens_real dx dy par.

(** The variables of the reading loop with one observation retained, at
    (1, 1) with u = 2 and v = 3; only row 0 of the arrays is read. *)
Definition one_point : reader :=
  mkReader (fun _ _ => 1) (fun _ => 2) (fun _ => 3) 1 1 0 0 DBL_MAX (- DBL_MAX).

(** * Properties *)

(** ** Basic facts on arrays, loops and comparisons *)

Lemma for_loop_0 {St : Type} (body : nat -> St -> St) (s : St) :
  for_loop 0 body s = s.
Proof. reflexivity. Qed.

Lemma for_loop_S {St : Type} (n : nat) (body : nat -> St -> St) (s : St) :
  for_loop (S n) body s = body n (for_loop n body s).
Proof.
  unfold for_loop. rewrite seq_S, fold_left_app. reflexivity.
Qed.

Lemma upd_same {T : Type} (a : nat -> T) (i : nat) (x : T) : upd a i x i = x.
Proof. unfold upd. now rewrite Nat.eqb_refl. Qed.

Lemma upd_other {T : Type} (a : nat -> T) (i k : nat) (x : T) :
  k <> i -> upd a i x k = a k.
Proof. intros H. unfold upd. apply Nat.eqb_neq in H. now rewrite H. Qed.

Lemma Rltb_true (x y : R) : x < y -> Rltb x y = true.
Proof. intros H. unfold Rltb. destruct (Rlt_dec x y); [reflexivity | contradiction]. Qed.

Lemma Rltb_false (x y : R) : ~ x < y -> Rltb x y = false.
Proof. intros H. unfold Rltb. destruct (Rlt_dec x y); [contradiction | reflexivity]. Qed.

Lemma Rgtb_true (x y : R) : x > y -> Rgtb x y = true.
Proof. intros H. unfold Rgtb. destruct (Rgt_dec x y); [reflexivity | contradiction]. Qed.

Lemma Rgtb_false (x y : R) : ~ x > y -> Rgtb x y = false.
Proof. intros H. unfold Rgtb. destruct (Rgt_dec x y); [contradiction | reflexivity]. Qed.

Lemma Reqb_true (x y : R) : x = y -> Reqb x y = true.
Proof. intros H. unfold Reqb. destruct (Req_dec_T x y); [reflexivity | contradiction]. Qed.

Lemma Reqb_false (x y : R) : x <> y -> Reqb x y = false.
Proof. intros H. unfold Reqb. destruct (Req_dec_T x y); [contradiction | reflexivity]. Qed.

Lemma c_log_pos (x : R) : 0 < x -> c_log x = Some (ln x).
Proof. intros H. unfold c_log. destruct (Rlt_dec 0 x); [reflexivity | contradiction]. Qed.

Lemma c_div_nonzero (x y : R) : y <> 0 -> c_div x y = Some (x / y).
Proof. intros H. unfold c_div. destruct (Req_dec_T y 0); [contradiction | reflexivity]. Qed.

Lemma c_div_zero (x : R) : c_div x 0 = None.
Proof. unfold c_div. destruct (Req_dec_T 0 0); [reflexivity | congruence]. Qed.

Lemma lit_1 : 1.0 = 1.
Proof. lra. Qed.

Lemma lit_2 : 2.0 = 2.
Proof. lra. Qed.

Lemma lit_3 : 3.0 = 3.
Proof. lra. Qed.

Lemma Rabs_m1 : Rabs (-1) = 1.
Proof. unfold Rabs. destruct (Rcase_abs (-1)); lra. Qed.

Lemma DBL_MAX_pos : 0 < DBL_MAX.
Proof. unfold DBL_MAX. apply IZR_lt. reflexivity. Qed.

Lemma DBL_MAX_gt_1 : 1 < DBL_MAX.
Proof. unfold DBL_MAX. apply IZR_lt. reflexivity. Qed.

(** ** The Green's functions *)

(** C3. For every offset [(dx, dy)] and every pair of shape parameters
    [par[0] = eps_term], [par[1] = fudge], the evaluator returns the triple of
    the design document: with [r2 = dx^2 + dy^2 + fudge],
    [c1 = (3 - eps_term)/2] and [c2 = 1 + eps_term],
    [G[0] = G_xx = c1 ln(r2) + c2 dx^2 / r2],
    [G[1] = G_yy = c1 ln(r2) + c2 dy^2 / r2] and
    [G[2] = G_xy = c2 dx dy / r2], each of them undefined exactly where the
    document's expression is. *)
Theorem greens_function_values (dx dy : R) (par : array) :
  evaluate_greensfunctions dx dy par = greens_spec dx dy (par 0%nat) (par 1%nat).
Proof.
  unfold evaluate_greensfunctions, greens_spec.
  replace (dx ^ 2) with (dx * dx) by ring.
  replace (dy ^ 2) with (dy * dy) by ring.
  set (r2 := dx * dx + dy * dy + par 1%nat).
  rewrite !lit_1, lit_2, lit_3.
  unfold c_div, c_log.
  destruct (Req_dec_T r2 0) as [Hz | Hnz];
    destruct (Rlt_dec 0 r2) as [Hp | Hnp]; simpl; try reflexivity.
  - f_equal; [f_equal |]; f_equal; field; exact Hnz.
  - do 2 f_equal. field. exact Hnz.
Qed.

(** C7. Negating the offset leaves the three Green's function values
    unchanged, for every offset and every pair of shape parameters. *)
Theorem greens_function_symmetry (dx dy : R) (par : array) :
  evaluate_greensfunctions (- dx) (- dy) par = evaluate_greensfunctions dx dy par.
Proof.
  unfold evaluate_greensfunctions.
  replace (- dx * - dx) with (dx * dx) by ring.
  replace (- dy * - dy) with (dy * dy) by ring.
  replace ((1.0 + par 0%nat) * - dx * - dy) with ((1.0 + par 0%nat) * dx * dy) by ring.
  reflexivity.
Qed.

(** *** The values at a zero offset, on doubles with their range *)

Lemma DBL_OVERFLOW_pos : 0 < DBL_OVERFLOW.
Proof. apply IZR_lt. reflexivity. Qed.

Lemma exact_rounding_binary64 : binary64_rounding exact_rounding.
Proof.
  split; [reflexivity |]. intros x _. unfold exact_rounding.
  replace (x - x) with 0 by ring. rewrite Rabs_R0.
  apply Rle_trans with (Rabs x * / IZR (2 ^ 53)); [| apply Rmax_l].
  apply Rmult_le_pos; [apply Rabs_pos |].
  left. apply Rinv_0_lt_compat. apply IZR_lt. reflexivity.
Qed.

Lemma dbl_round_0 (rnd : R -> R) : binary64_rounding rnd -> dbl_round rnd 0 = Fin 0.
Proof.
  intros [H0 _]. unfold dbl_round. rewrite Rabs_R0.
  rewrite Rltb_true by exact DBL_OVERFLOW_pos. rewrite H0. reflexivity.
Qed.

(** Inside the range the result is finite, within twice the magnitude of
    the exact one plus one. *)
Lemma dbl_round_finite (rnd : R -> R) (x : R) :
  binary64_rounding rnd -> Rabs x < DBL_OVERFLOW ->
  exists y, dbl_round rnd x = Fin y /\ Rabs y <= 2 * Rabs x + 1.
Proof.
  intros [_ He] Hhi. unfold dbl_round. rewrite Rltb_true by exact Hhi.
  exists (rnd x). split; [reflexivity |].
  specialize (He x Hhi).
  assert (H53 : 1 <= IZR (2 ^ 53)) by (apply IZR_le; apply Z.leb_le; reflexivity).
  assert (H75 : 1 <= IZR (2 ^ 1075)) by (apply IZR_le; apply Z.leb_le; reflexivity).
  assert (I53 : / IZR (2 ^ 53) <= 1).
  { rewrite <- Rinv_1. apply Rinv_le_contravar; lra. }
  assert (I53' : 0 < / IZR (2 ^ 53)) by (apply Rinv_0_lt_compat; lra).
  assert (I75 : / IZR (2 ^ 1075) <= 1).
  { rewrite <- Rinv_1. apply Rinv_le_contravar; lra. }
  pose proof (Rabs_pos x) as Hx.
  assert (Hm : Rmax (Rabs x * / IZR (2 ^ 53)) (/ IZR (2 ^ 1075)) <= Rabs x + 1).
  { apply Rmax_lub; [| lra].
    apply Rle_trans with (Rabs x * 1); [| lra].
    apply Rmult_le_compat_l; assumption. }
  replace (rnd x) with (rnd x - x + x) by ring.
  apply Rle_trans with (Rabs (rnd x - x) + Rabs x); [apply Rabs_triang | lra].
Qed.

(** A normal value stays within a factor of two. *)
Lemma dbl_round_normal (rnd : R -> R) (f : R) :
  binary64_rounding rnd -> DBL_MIN <= f <= DBL_MAX ->
  dbl_round rnd f = Fin (rnd f) /\ f / 2 <= rnd f <= 2 * f.
Proof.
  intros [_ He] [Hlo Hhi].
  assert (H22 : 0 < IZR (2 ^ 1022)) by (apply IZR_lt; reflexivity).
  assert (Hmin : 0 < DBL_MIN) by (apply Rinv_0_lt_compat; exact H22).
  assert (Hpos : 0 < f) by lra.
  assert (Hmax : DBL_MAX < DBL_OVERFLOW) by (apply IZR_lt; reflexivity).
  assert (Hin : Rabs f < DBL_OVERFLOW) by (rewrite Rabs_right by lra; lra).
  split.
  - unfold dbl_round. rewrite Rltb_true by exact Hin. reflexivity.
  - specialize (He f Hin). rewrite (Rabs_right f) in He by lra.
    assert (H53 : 2 <= IZR (2 ^ 53)) by (apply IZR_le; apply Z.leb_le; reflexivity).
    assert (I53 : / IZR (2 ^ 53) <= / 2) by (apply Rinv_le_contravar; lra).
    assert (I75 : / IZR (2 ^ 1075) <= DBL_MIN * / 2).
    { unfold DBL_MIN. rewrite <- Rinv_mult.
      apply Rinv_le_contravar; [lra |].
      rewrite <- (mult_IZR (2 ^ 1022) 2).
      apply IZR_le. apply Z.leb_le. reflexivity. }
    assert (Hm : Rmax (f * / IZR (2 ^ 53)) (/ IZR (2 ^ 1075)) <= f / 2).
    { apply Rmax_lub.
      - unfold Rdiv. apply Rmult_le_compat_l; lra.
      - lra. }
    pose proof (Rle_trans _ _ _ He Hm) as Hb.
    unfold Rabs in Hb. destruct (Rcase_abs (rnd f - f)); lra.
Qed.

Lemma dbl_round_overflow (rnd : R -> R) (x : R) :
  DBL_OVERFLOW <= x -> dbl_round rnd x = Inf false.
Proof.
  intros Hx. pose proof DBL_OVERFLOW_pos as Hp. unfold dbl_round.
  rewrite Rabs_right by lra.
  rewrite Rltb_false by lra. rewrite Rltb_false by lra. reflexivity.
Qed.

Lemma dbl_add_NaN (rnd : R -> R) (a : dbl) : dbl_add rnd a NaN = NaN.
Proof. destruct a; reflexivity. Qed.

Lemma dbl_mul_0_r (rnd : R -> R) (y : R) :
  binary64_rounding rnd -> dbl_mul rnd (Fin y) (Fin 0) = Fin 0.
Proof. intros H. unfold dbl_mul. rewrite Rmult_0_r. exact (dbl_round_0 rnd H). Qed.

Lemma dbl_mul_0_l (rnd : R -> R) (y : R) :
  binary64_rounding rnd -> dbl_mul rnd (Fin 0) (Fin y) = Fin 0.
Proof. intros H. unfold dbl_mul. rewrite Rmult_0_l. exact (dbl_round_0 rnd H). Qed.

Lemma dbl_add_0_0 (rnd : R -> R) :
  binary64_rounding rnd -> dbl_add rnd (Fin 0) (Fin 0) = Fin 0.
Proof. intros H. unfold dbl_add. rewrite Rplus_0_r. exact (dbl_round_0 rnd H). Qed.

Lemma ln_2_lt_1 : ln 2 < 1.
Proof.
  rewrite <- (ln_exp 1). apply ln_increasing; [lra |].
  pose proof (exp_ineq1 1). lra.
Qed.

Lemma two_pow_IZR (n : nat) : 2 ^ n = IZR (2 ^ Z.of_nat n).
Proof. apply (pow_IZR 2 n). Qed.

Lemma ln_le (x y : R) : 0 < x -> x <= y -> ln x <= ln y.
Proof.
  intros Hx [Hlt | ->]; [left; apply ln_increasing; assumption | right; reflexivity].
Qed.

(** The logarithm of a value within a factor of two of a normal double. *)
Lemma ln_double_range (g : R) :
  DBL_MIN / 2 <= g <= 2 * DBL_MAX -> Rabs (ln g) <= 1025.
Proof.
  intros [Hlo Hhi].
  assert (H22 : 0 < IZR (2 ^ 1022)) by (apply IZR_lt; reflexivity).
  assert (Hmin : 0 < DBL_MIN) by (apply Rinv_0_lt_compat; exact H22).
  assert (Hg : 0 < g) by lra.
  pose proof ln_2_lt_1 as H2. pose proof ln_lt_2 as H2'.
  assert (Hup : ln g <= 1025 * ln 2).
  { apply Rle_trans with (ln (2 ^ 1025)).
    - apply ln_le; [exact Hg |]. rewrite two_pow_IZR.
      apply Rle_trans with (2 * DBL_MAX); [exact Hhi |].
      unfold DBL_MAX. rewrite <- mult_IZR.
      apply IZR_le. apply Z.leb_le. reflexivity.
    - rewrite ln_pow by lra. right. f_equal.
      rewrite INR_IZR_INZ. reflexivity. }
  assert (Hdn : - (1023 * ln 2) <= ln g).
  { apply Rle_trans with (ln (/ 2 ^ 1023)).
    - rewrite ln_Rinv by (apply pow_lt; lra). rewrite ln_pow by lra.
      right. f_equal. f_equal. rewrite INR_IZR_INZ. reflexivity.
    - apply ln_le; [apply Rinv_0_lt_compat; apply pow_lt; lra |].
      apply Rle_trans with (DBL_MIN / 2); [| exact Hlo].
      right. rewrite two_pow_IZR. unfold DBL_MIN, Rdiv.
      rewrite <- Rinv_mult. f_equal.
      rewrite <- (mult_IZR (2 ^ 1022) 2). f_equal. }
  apply Rabs_le. lra.
Qed.

(** C8. With both offsets zero, a shape parameter [par[0]] of magnitude at
    most [2^1000] and a fudge [par[1]] that is a normal positive double
    ([DBL_MIN <= par[1] <= DBL_MAX]), the three values
    [evaluate_greensfunctions] delivers are finite: neither an infinity
    nor a NaN, whatever the rounding does inside the range. *)
Theorem greens_function_singularity_guard (rnd : R -> R) (par : nat -> dbl) (p0 f : R) :
  binary64_rounding rnd ->
  par 0%nat = Fin p0 -> par 1%nat = Fin f ->
  Rabs p0 <= IZR (2 ^ 1000) ->
  DBL_MIN <= f <= DBL_MAX ->
  let '(G0, G1, G2) := evaluate_greensfunctions_dbl rnd (Fin 0) (Fin 0) par in
  dbl_finite G0 /\ dbl_finite G1 /\ dbl_finite G2.
Proof.
  intros Hr E0 E1 Hp0 Hf.
  destruct (dbl_round_normal rnd f Hr Hf) as [Rf [Glo Ghi]].
  set (g := rnd f) in *.
  destruct Hf as [Hlo Hhi].
  assert (H22 : 0 < IZR (2 ^ 1022)) by (apply IZR_lt; reflexivity).
  assert (Hmin : 0 < DBL_MIN) by (apply Rinv_0_lt_compat; exact H22).
  assert (Hpos : 0 < f) by lra.
  assert (Hg : 0 < g) by lra.
  assert (Hln : Rabs (ln g) <= 1025) by (apply ln_double_range; lra).
  assert (H1000 : 3 <= IZR (2 ^ 1000)) by (apply IZR_le; apply Z.leb_le; reflexivity).
  assert (Hbig : IZR (2 ^ 1000) * 65536 < DBL_OVERFLOW).
  { unfold DBL_OVERFLOW. rewrite <- (mult_IZR (2 ^ 1000) 65536).
    apply IZR_lt. reflexivity. }
  unfold evaluate_greensfunctions_dbl. rewrite E0, E1, lit_1, lit_2, lit_3.
  rewrite (dbl_mul_0_l rnd 0 Hr), (dbl_add_0_0 rnd Hr).
  (* the squared radius is the fudge, rounded *)
  assert (Edr : dbl_add rnd (Fin 0) (Fin f) = Fin g).
  { unfold dbl_add. rewrite Rplus_0_l. exact Rf. }
  rewrite Edr.
  (* c1 and c2 *)
  destruct (dbl_round_finite rnd (3 + - p0) Hr) as (y1 & R1 & B1).
  { apply Rle_lt_trans with (Rabs 3 + Rabs (- p0)); [apply Rabs_triang |].
    rewrite Rabs_Ropp, (Rabs_right 3) by lra. lra. }
  assert (B1' : Rabs y1 <= 4 * IZR (2 ^ 1000)).
  { apply Rle_trans with (2 * Rabs (3 + - p0) + 1); [exact B1 |].
    assert (Rabs (3 + - p0) <= 3 + IZR (2 ^ 1000)); [| lra].
    apply Rle_trans with (Rabs 3 + Rabs (- p0)); [apply Rabs_triang |].
    rewrite Rabs_Ropp, (Rabs_right 3) by lra. lra. }
  assert (Ec1a : dbl_sub rnd (Fin 3) (Fin p0) = Fin y1) by exact R1.
  assert (Eh : Rabs (y1 / 2) = Rabs y1 / 2).
  { unfold Rdiv. rewrite Rabs_mult, (Rabs_right (/ 2)) by lra. reflexivity. }
  destruct (dbl_round_finite rnd (y1 / 2) Hr) as (y2 & R2 & B2); [rewrite Eh; lra |].
  rewrite Eh in B2.
  assert (Ec1 : dbl_div rnd (Fin y1) (Fin 2) = Fin y2).
  { unfold dbl_div. rewrite Reqb_false by lra. exact R2. }
  destruct (dbl_round_finite rnd (1 + p0) Hr) as (y3 & R3 & _).
  { apply Rle_lt_trans with (Rabs 1 + Rabs p0); [apply Rabs_triang |].
    rewrite Rabs_R1. lra. }
  assert (Ec2 : dbl_add rnd (Fin 1) (Fin p0) = Fin y3) by exact R3.
  (* the logarithm *)
  destruct (dbl_round_finite rnd (ln g) Hr) as (y4 & R4 & B4); [lra |].
  assert (Elog : dbl_log rnd (Fin g) = Fin y4).
  { unfold dbl_log. rewrite (Rltb_true 0 g) by exact Hg. exact R4. }
  (* G01 *)
  assert (B5 : Rabs (y2 * y4) <= IZR (2 ^ 1000) * 12306).
  { rewrite Rabs_mult.
    apply Rle_trans with ((4 * IZR (2 ^ 1000) + 1) * 2051); [| lra].
    apply Rmult_le_compat; try apply Rabs_pos; lra. }
  destruct (dbl_round_finite rnd (y2 * y4) Hr) as (y5 & R5 & B5'); [lra |].
  assert (EG : dbl_mul rnd (Fin y2) (Fin y4) = Fin y5) by exact R5.
  (* the inverse squared radius *)
  destruct (dbl_round_finite rnd (1 / g) Hr) as (y6 & R6 & _).
  { assert (Hi : 0 < 1 / g) by (unfold Rdiv; rewrite Rmult_1_l; apply Rinv_0_lt_compat; exact Hg).
    rewrite Rabs_right by lra.
    apply Rle_lt_trans with (IZR (2 ^ 1023)); [| apply IZR_lt; reflexivity].
    unfold Rdiv. rewrite Rmult_1_l. rewrite <- (Rinv_inv (IZR (2 ^ 1023))).
    apply Rinv_le_contravar.
    - apply Rinv_0_lt_compat. apply IZR_lt. reflexivity.
    - apply Rle_trans with (DBL_MIN / 2); [| lra].
      right. unfold DBL_MIN, Rdiv. rewrite <- Rinv_mult. f_equal.
      rewrite <- (mult_IZR (2 ^ 1022) 2). f_equal. }
  assert (Einv : dbl_div rnd (Fin 1) (Fin g) = Fin y6).
  { unfold dbl_div. rewrite Reqb_false by lra. exact R6. }
  rewrite Ec1a, Ec1, Ec2, Elog, EG, Einv.
  rewrite (dbl_mul_0_r rnd y3 Hr), (dbl_mul_0_l rnd 0 Hr), (dbl_mul_0_l rnd y6 Hr).
  assert (E5 : dbl_add rnd (Fin y5) (Fin 0) = dbl_round rnd y5)
    by (unfold dbl_add; rewrite Rplus_0_r; reflexivity).
  rewrite E5.
  destruct (dbl_round_finite rnd y5 Hr) as (y7 & R7 & _); [lra |].
  rewrite R7. cbn [dbl_finite]. auto.
Qed.

Lemma greens_function_singularity_guard_witness :
  let par := fun k : nat => match k with 0%nat => Fin 1.1 | _ => Fin 0.01 end in
  binary64_rounding exact_rounding /\
  par 0%nat = Fin 1.1 /\ par 1%nat = Fin 0.01 /\
  Rabs 1.1 <= IZR (2 ^ 1000) /\ DBL_MIN <= 0.01 <= DBL_MAX /\
  let '(G0, G1, G2) := evaluate_greensfunctions_dbl exact_rounding (Fin 0) (Fin 0) par in
  dbl_finite G0 /\ dbl_finite G1 /\ dbl_finite G2.
Proof.
  cbv zeta.
  assert (H1 : Rabs 1.1 <= IZR (2 ^ 1000)).
  { rewrite Rabs_right by lra.
    apply Rle_trans with 2; [lra | apply IZR_le; apply Z.leb_le; reflexivity]. }
  assert (H2 : DBL_MIN <= 0.01 <= DBL_MAX).
  { split.
    - apply Rle_trans with (/ 128); [| lra].
      apply Rinv_le_contravar; [lra | apply IZR_le; apply Z.leb_le; reflexivity].
    - apply Rle_trans with 1; [lra |]. apply IZR_le. apply Z.leb_le. reflexivity. }
  split; [exact exact_rounding_binary64 |].
  split; [reflexivity |]. split; [reflexivity |]. split; [exact H1 |].
  split; [exact H2 |].
  exact (greens_function_singularity_guard exact_rounding
           (fun k : nat => match k with 0%nat => Fin 1.1 | _ => Fin 0.01 end)
           1.1 0.01 exact_rounding_binary64 eq_refl eq_refl H1 H2).
Defined.

(** A positive fudge is not enough: with [par[0] = 1] and the subnormal
    fudge [par[1] = 2^-1030], both finite and the fudge positive, the
    squared radius is the fudge, its reciprocal [2^1030] is beyond the
    range and so [+inf], and [c2 * dx2 * dr2] and [c2 * dx * dy * dr2] are
    [0 * inf]: the three values are NaN.  The operands that decide it
    ([0], [1], [2], [2^-1030] and [2^1030]) need no rounding. *)
Lemma greens_function_singularity_guard_counterexample :
  let par := fun k : nat =>
    match k with 0%nat => Fin 1 | _ => Fin (/ IZR (2 ^ 1030)) end in
  dbl_finite (par 0%nat) /\ dbl_finite (par 1%nat) /\ dbl_positive (par 1%nat) /\
  evaluate_greensfunctions_dbl exact_rounding (Fin 0) (Fin 0) par = (NaN, NaN, NaN).
Proof.
  cbv zeta. pose proof exact_rounding_binary64 as Hr.
  assert (H30 : 0 < IZR (2 ^ 1030)) by (apply IZR_lt; reflexivity).
  assert (Hpos : 0 < / IZR (2 ^ 1030)) by (apply Rinv_0_lt_compat; exact H30).
  split; [exact I |]. split; [exact I |]. split; [exact Hpos |].
  unfold evaluate_greensfunctions_dbl. rewrite lit_1, lit_2, lit_3.
  rewrite (dbl_mul_0_l _ 0 Hr), (dbl_add_0_0 _ Hr).
  assert (Edr : dbl_add exact_rounding (Fin 0) (Fin (/ IZR (2 ^ 1030)))
                = Fin (/ IZR (2 ^ 1030))).
  { unfold dbl_add, dbl_round. rewrite Rplus_0_l. rewrite Rltb_true; [reflexivity |].
    rewrite Rabs_right by lra.
    apply Rlt_trans with 1; [| apply IZR_lt; reflexivity].
    rewrite <- Rinv_1. apply Rinv_lt_contravar; [lra |].
    apply IZR_lt. reflexivity. }
  rewrite Edr.
  assert (Einv : dbl_div exact_rounding (Fin 1) (Fin (/ IZR (2 ^ 1030))) = Inf false).
  { unfold dbl_div. rewrite Reqb_false by lra.
    apply dbl_round_overflow. unfold Rdiv. rewrite Rmult_1_l, Rinv_inv.
    apply IZR_le. apply Z.leb_le. reflexivity. }
  rewrite Einv.
  assert (Ec2 : dbl_add exact_rounding (Fin 1) (Fin 1) = Fin (1 + 1)).
  { unfold dbl_add, dbl_round. rewrite Rltb_true; [reflexivity |].
    rewrite Rabs_right by lra.
    apply Rlt_trans with 3; [lra | apply IZR_lt; reflexivity]. }
  rewrite Ec2, (dbl_mul_0_r _ (1 + 1) Hr), (dbl_mul_0_l _ 0 Hr).
  assert (En : dbl_mul exact_rounding (Fin 0) (Inf false) = NaN).
  { unfold dbl_mul. rewrite Reqb_true by reflexivity. reflexivity. }
  rewrite En, !dbl_add_NaN. reflexivity.
Qed.

(** ** Normalization *)

Lemma remove_body_at (X : nat -> array) (mode : N) (coeff : array) (i : nat)
    (s : residuals) :
  res_u (remove_body X mode coeff i s) i = detrended_u X (res_u s) mode coeff i /\
  res_v (remove_body X mode coeff i s) i = detrended_v X (res_v s) mode coeff i.
Proof.
  unfold remove_body, detrended_u, detrended_v, plane_at.
  destruct (bit_set mode GPS_TREND); simpl; rewrite ?upd_same; split; ring.
Qed.

Lemma remove_body_other (X : nat -> array) (mode : N) (coeff : array) (i k : nat)
    (s : residuals) :
  k <> i ->
  res_u (remove_body X mode coeff i s) k = res_u s k /\
  res_v (remove_body X mode coeff i s) k = res_v s k.
Proof.
  intros Hk. unfold remove_body.
  destruct (bit_set mode GPS_TREND); simpl; rewrite ?upd_other by exact Hk; auto.
Qed.

Lemma remove_body_bounds (X : nat -> array) (mode : N) (coeff : array) (i : nat)
    (s : residuals) :
  let s' := remove_body X mode coeff i s in
  (umin s' <= umin s /\ umax s <= umax s' /\ vmin s' <= vmin s /\ vmax s <= vmax s') /\
  (umin s' <= res_u s' i <= umax s' /\ vmin s' <= res_v s' i <= vmax s').
Proof.
  unfold remove_body.
  destruct (bit_set mode GPS_TREND); simpl; unfold Rltb, Rgtb;
    repeat match goal with
           | |- context [Rlt_dec ?a ?b] => destruct (Rlt_dec a b)
           | |- context [Rgt_dec ?a ?b] => destruct (Rgt_dec a b)
           end; lra.
Qed.

(** The third loop, in closed form: the first [n] elements hold the
    residuals, the others are untouched, and the extremes enclose every
    residual. *)
Lemma norm_remove_spec (X : nat -> array) (u v : array) (mode : N) (coeff : array)
    (n : nat) :
  (forall i, (i < n)%nat ->
     res_u (norm_remove X u v n mode coeff) i = detrended_u X u mode coeff i /\
     res_v (norm_remove X u v n mode coeff) i = detrended_v X v mode coeff i /\
     umin (norm_remove X u v n mode coeff) <= res_u (norm_remove X u v n mode coeff) i
       <= umax (norm_remove X u v n mode coeff) /\
     vmin (norm_remove X u v n mode coeff) <= res_v (norm_remove X u v n mode coeff) i
       <= vmax (norm_remove X u v n mode coeff)) /\
  (forall i, (n <= i)%nat ->
     res_u (norm_remove X u v n mode coeff) i = u i /\
     res_v (norm_remove X u v n mode coeff) i = v i).
Proof.
  unfold norm_remove. induction n as [| n IH].
  - rewrite for_loop_0. split; [intros i Hi; lia | intros i _; split; reflexivity].
  - rewrite for_loop_S.
    set (s0 := for_loop n (remove_body X mode coeff)
                 (mkRes u v DBL_MAX (- DBL_MAX) DBL_MAX (- DBL_MAX))) in *.
    destruct IH as [IHlt IHge].
    pose proof (remove_body_bounds X mode coeff n s0) as Hb.
    cbv zeta in Hb. destruct Hb as [Hmono Hin].
    split.
    + intros i Hi. destruct (Nat.eq_dec i n) as [-> | Hne].
      * destruct (remove_body_at X mode coeff n s0) as [Hu Hv].
        destruct (IHge n (Nat.le_refl n)) as [Hun Hvn].
        split; [| split; [| exact Hin]].
        -- rewrite Hu. unfold detrended_u, plane_at. now rewrite Hun.
        -- rewrite Hv. unfold detrended_v, plane_at. now rewrite Hvn.
      * assert (Hlt : (i < n)%nat) by lia.
        destruct (remove_body_other X mode coeff n i s0 Hne) as [Hu Hv].
        destruct (IHlt i Hlt) as (Hiu & Hiv & Hbu & Hbv).
        rewrite Hu, Hv. repeat split; try tauto; lra.
    + intros i Hi.
      assert (Hne : i <> n) by lia.
      destruct (remove_body_other X mode coeff n i s0 Hne) as [Hu Hv].
      rewrite Hu, Hv. apply IHge. lia.
Qed.

(** The fourth loop, in closed form. *)
Lemma scale_loop_spec (du dv : R) (u v : array) (n : nat) :
  forall i,
    fst (for_loop n (scale_body du dv) (u, v)) i = (if Nat.ltb i n then u i * du else u i) /\
    snd (for_loop n (scale_body du dv) (u, v)) i = (if Nat.ltb i n then v i * dv else v i).
Proof.
  induction n as [| n IH]; intros i.
  - rewrite for_loop_0. simpl. auto.
  - rewrite for_loop_S. unfold scale_body at 1. simpl fst. simpl snd.
    destruct (Nat.eq_dec i n) as [-> | Hne].
    + rewrite !upd_same. destruct (IH n) as [Hu Hv].
      rewrite Hu, Hv, Nat.ltb_irrefl.
      assert (Hlt : Nat.ltb n (S n) = true) by (apply Nat.ltb_lt; lia).
      rewrite Hlt. auto.
    + rewrite !upd_other by exact Hne. destruct (IH i) as [Hu Hv].
      rewrite Hu, Hv.
      destruct (Nat.ltb i n) eqn:E.
      * assert (Hlt : Nat.ltb i (S n) = true)
          by (apply Nat.ltb_lt; apply Nat.ltb_lt in E; lia).
        rewrite Hlt. auto.
      * assert (Hlt : Nat.ltb i (S n) = false)
          by (apply Nat.ltb_ge; apply Nat.ltb_ge in E; lia).
        rewrite Hlt. auto.
Qed.

Lemma MAX_abs_zero (a b : R) : MAX (Rabs a) (Rabs b) = 0 -> a = 0 /\ b = 0.
Proof.
  unfold MAX, Rgtb. pose proof (Rabs_pos a). pose proof (Rabs_pos b).
  destruct (Rgt_dec (Rabs a) (Rabs b)) as [Hgt | Hle]; intros Hz.
  - exfalso. lra.
  - assert (Ha : Rabs a = 0) by lra.
    split.
    + destruct (Req_dec_T a 0) as [E | E]; [exact E | exfalso].
      apply Rabs_no_R0 in E. contradiction.
    + destruct (Req_dec_T b 0) as [E | E]; [exact E | exfalso].
      apply Rabs_no_R0 in E. contradiction.
Qed.

(** Multiplying by the scale and then by the range gives back a residual
    that lies between extremes whose range it is. *)
Lemma range_scale_undone (lo hi x : R) :
  lo <= x <= hi ->
  x * range_scale (MAX (Rabs lo) (Rabs hi)) * MAX (Rabs lo) (Rabs hi) = x.
Proof.
  intros Hx. unfold range_scale, Reqb.
  destruct (Req_dec_T (MAX (Rabs lo) (Rabs hi)) 0) as [Hz | Hnz].
  - destruct (MAX_abs_zero _ _ Hz) as [Hlo Hhi].
    rewrite Hz. assert (x = 0) by lra. subst x. ring.
  - field. exact Hnz.
Qed.

(** C1. Forward normalization followed by the inverse gives back the
    observation: for every set of [n] observations, every [mode] (so each of
    mean only, mean and trend, mean and range, mean, trend and range) and
    every observation [i < n], [undo_gps_normalization], applied with the
    coefficients that [do_gps_normalization] stored to the point made of
    the observation's own x, y and its normalized u, v, yields the original
    u and v.  In real arithmetic the equality is exact. *)
Theorem normalization_round_trip (X : nat -> array) (u v : array) (n : nat)
    (mode : N) (i : nat) :
  (i < n)%nat ->
  let '(u', v', coeff) := do_gps_normalization X u v n mode in
  let P := undo_gps_normalization (point_of X u' v' i) mode coeff in
  P GMT_U = u i /\ P GMT_V = v i /\ P GMT_X = X i GMT_X /\ P GMT_Y = X i GMT_Y.
Proof.
  intros Hi. unfold do_gps_normalization.
  set (coeff := norm_trend X u v n mode).
  destruct (norm_remove_spec X u v mode coeff n) as [Hlt _].
  destruct (Hlt i Hi) as (Hu & Hv & Hbu & Hbv).
  set (s := norm_remove X u v n mode coeff) in *.
  assert (Hin : Nat.ltb i n = true) by (apply Nat.ltb_lt; exact Hi).
  unfold detrended_u, detrended_v, plane_at in Hu, Hv.
  destruct (bit_set mode GPS_NORM) eqn:Enorm.
  - set (ru := MAX (Rabs (umin s)) (Rabs (umax s))).
    set (rv := MAX (Rabs (vmin s)) (Rabs (vmax s))).
    destruct (scale_loop_spec
                (range_scale (upd (upd coeff GSP_RANGE_U ru) GSP_RANGE_V rv GSP_RANGE_U))
                (range_scale (upd (upd coeff GSP_RANGE_U ru) GSP_RANGE_V rv GSP_RANGE_V))
                (res_u s) (res_v s) n i) as [Hsu Hsv].
    rewrite Hin in Hsu, Hsv.
    cbv zeta. unfold undo_gps_normalization, point_of. rewrite Enorm.
    pose proof (range_scale_undone _ _ _ Hbu) as Hru. fold ru in Hru.
    pose proof (range_scale_undone _ _ _ Hbv) as Hrv. fold rv in Hrv.
    destruct (bit_set mode GPS_TREND);
      unfold upd in *; simpl in *; rewrite Hsu, Hsv, Hru, Hrv, Hu, Hv;
      repeat split; ring.
  - cbv zeta. unfold undo_gps_normalization, point_of. rewrite Enorm.
    destruct (bit_set mode GPS_TREND);
      unfold upd in *; simpl in *; rewrite Hu, Hv; repeat split; ring.
Qed.

Lemma normalization_round_trip_witness :
  (0 < 1)%nat /\
  let '(u', v', coeff) :=
    do_gps_normalization (fun _ _ => 1) (fun _ => 2) (fun _ => 3) 1 3%N in
  let P := undo_gps_normalization (point_of (fun _ _ => 1) u' v' 0) 3%N coeff in
  P GMT_U = 2 /\ P GMT_V = 3 /\ P GMT_X = 1 /\ P GMT_Y = 1.
Proof.
  split; [exact Nat.lt_0_1 |].
  exact (normalization_round_trip (fun _ _ => 1) (fun _ => 2) (fun _ => 3) 1 3%N 0
           Nat.lt_0_1).
Defined.

(** The first loop only writes the four means. *)
Lemma mean_body_untouched (X : nat -> array) (u v : array) (mode : N) (i : nat)
    (coeff : array) (k : nat) :
  (4 <= k)%nat -> mean_body X u v mode i coeff k = coeff k.
Proof.
  intros Hk. unfold mean_body, GSP_MEAN_U, GSP_MEAN_V, GSP_MEAN_X, GSP_MEAN_Y.
  destruct (N.eqb (N.land mode GPS_TREND) 0); rewrite ?upd_other by lia; reflexivity.
Qed.

Lemma norm_mean_xy_untouched (X : nat -> array) (u v : array) (n : nat) (mode : N)
    (k : nat) :
  (4 <= k)%nat ->
  norm_means X u v n mode k = 0 /\ norm_mean_xy X u v n mode k = 0.
Proof.
  intros Hk.
  assert (Hloop : for_loop n (mean_body X u v mode) (fun _ => 0) k = 0).
  { induction n as [| n IH]; [reflexivity |].
    rewrite for_loop_S, mean_body_untouched by exact Hk. exact IH. }
  assert (Hm : norm_means X u v n mode k = 0).
  { unfold norm_means, GSP_MEAN_U, GSP_MEAN_V.
    rewrite !upd_other by lia. exact Hloop. }
  split; [exact Hm |].
  unfold norm_mean_xy, GSP_MEAN_X, GSP_MEAN_Y.
  rewrite !upd_other by lia. exact Hm.
Qed.

(** C9. The degenerate cases of the forward normalization, which returns
    its coefficients whatever the data (it has no error exit):
    - when the trend is removed and the determinant [d] of the normal
      equations is exactly zero, the four slopes are left at zero;
    - when the residuals are normalized, the stored range of a component
      is [MAX (fabs (min), fabs (max))] of its detrended residuals, and if
      that range is zero the component is left as it is (scaled by 1). *)
Theorem normalization_degenerate_cases (X : nat -> array) (u v : array) (n : nat)
    (mode : N) :
  let '(u', v', coeff) := do_gps_normalization X u v n mode in
  let s := norm_remove X u v n mode (norm_trend X u v n mode) in
  (bit_set mode GPS_TREND = true -> normal_det X u v n mode = 0 ->
     coeff GSP_SLP_UX = 0 /\ coeff GSP_SLP_UY = 0 /\
     coeff GSP_SLP_VX = 0 /\ coeff GSP_SLP_VY = 0) /\
  (bit_set mode GPS_NORM = true ->
     coeff GSP_RANGE_U = MAX (Rabs (umin s)) (Rabs (umax s)) /\
     coeff GSP_RANGE_V = MAX (Rabs (vmin s)) (Rabs (vmax s)) /\
     (coeff GSP_RANGE_U = 0 -> forall i, (i < n)%nat -> u' i = res_u s i) /\
     (coeff GSP_RANGE_V = 0 -> forall i, (i < n)%nat -> v' i = res_v s i)).
Proof.
  unfold do_gps_normalization.
  set (coeff := norm_trend X u v n mode).
  set (s := norm_remove X u v n mode coeff).
  assert (Hslopes : bit_set mode GPS_TREND = true -> normal_det X u v n mode = 0 ->
            forall k, (4 <= k)%nat -> coeff k = 0).
  { intros Ht Hd k Hk. unfold coeff, norm_trend. rewrite Ht.
    unfold fit_plane. unfold normal_det in Hd. rewrite Hd.
    rewrite Reqb_true by reflexivity. simpl.
    apply norm_mean_xy_untouched. exact Hk. }
  destruct (bit_set mode GPS_NORM) eqn:Enorm; cbv zeta.
  - split.
    + intros Ht Hd.
      unfold GSP_SLP_UX, GSP_SLP_UY, GSP_SLP_VX, GSP_SLP_VY, GSP_RANGE_U, GSP_RANGE_V.
      rewrite !upd_other by lia.
      repeat split; apply (Hslopes Ht Hd); lia.
    + intros _.
      set (ru := MAX (Rabs (umin s)) (Rabs (umax s))).
      set (rv := MAX (Rabs (vmin s)) (Rabs (vmax s))).
      assert (Eu : upd (upd coeff GSP_RANGE_U ru) GSP_RANGE_V rv GSP_RANGE_U = ru)
        by (unfold GSP_RANGE_U, GSP_RANGE_V; rewrite upd_other by lia; apply upd_same).
      assert (Ev : upd (upd coeff GSP_RANGE_U ru) GSP_RANGE_V rv GSP_RANGE_V = rv)
        by apply upd_same.
      rewrite Eu, Ev.
      split; [reflexivity | split; [reflexivity |]].
      split; intros Hz i Hi;
        destruct (scale_loop_spec (range_scale ru) (range_scale rv)
                    (res_u s) (res_v s) n i) as [Hsu Hsv];
        assert (Hin : Nat.ltb i n = true) by (apply Nat.ltb_lt; exact Hi);
        rewrite Hin in Hsu, Hsv.
      * rewrite Hsu, Hz. unfold range_scale. rewrite Reqb_true by reflexivity. ring.
      * rewrite Hsv, Hz. unfold range_scale. rewrite Reqb_true by reflexivity. ring.
  - split.
    + intros Ht Hd. repeat split; apply (Hslopes Ht Hd);
        unfold GSP_SLP_UX, GSP_SLP_UY, GSP_SLP_VX, GSP_SLP_VY; lia.
    + intros H. discriminate H.
Qed.

(** A single observation is degenerate in both respects. *)
Lemma single_observation_det :
  normal_det (fun _ _ => 1) (fun _ => 2) (fun _ => 3) 1 3%N = 0.
Proof.
  unfold normal_det, trend_det, trend_sums_of, norm_mean_xy, norm_means.
  rewrite !for_loop_S, !for_loop_0.
  unfold trend_body, mean_body, upd. simpl. field.
Qed.

Lemma single_observation_extremes (X : nat -> array) (u v : array) (mode : N)
    (coeff : array) :
  let s := norm_remove X u v 1 mode coeff in
  umin s = (if Rltb (res_u s 0%nat) DBL_MAX then res_u s 0%nat else DBL_MAX) /\
  umax s = (if Rgtb (res_u s 0%nat) (- DBL_MAX) then res_u s 0%nat else - DBL_MAX) /\
  vmin s = (if Rltb (res_v s 0%nat) DBL_MAX then res_v s 0%nat else DBL_MAX) /\
  vmax s = (if Rgtb (res_v s 0%nat) (- DBL_MAX) then res_v s 0%nat else - DBL_MAX).
Proof.
  unfold norm_remove. rewrite for_loop_S, for_loop_0. unfold remove_body.
  destruct (bit_set mode GPS_TREND); simpl; auto.
Qed.

Lemma MAX_zero : MAX (Rabs 0) (Rabs 0) = 0.
Proof.
  rewrite Rabs_R0. unfold MAX. rewrite Rgtb_false by lra. reflexivity.
Qed.

Lemma single_observation_ranges :
  let s := norm_remove (fun _ _ => 1) (fun _ => 2) (fun _ => 3) 1 3%N
             (norm_trend (fun _ _ => 1) (fun _ => 2) (fun _ => 3) 1 3%N) in
  MAX (Rabs (umin s)) (Rabs (umax s)) = 0 /\ MAX (Rabs (vmin s)) (Rabs (vmax s)) = 0.
Proof.
  intros s.
  pose proof DBL_MAX_pos as Hpos.
  destruct (norm_remove_spec (fun _ _ => 1) (fun _ => 2) (fun _ => 3) 3%N
              (norm_trend (fun _ _ => 1) (fun _ => 2) (fun _ => 3) 1 3%N) 1) as [H _].
  destruct (H 0%nat Nat.lt_0_1) as (Hu & Hv & _). fold s in Hu, Hv.
  assert (Hcoeff : norm_trend (fun _ _ => 1) (fun _ => 2) (fun _ => 3) 1 3%N
                   = norm_mean_xy (fun _ _ => 1) (fun _ => 2) (fun _ => 3) 1 3%N).
  { unfold norm_trend, fit_plane. simpl bit_set. cbv iota.
    fold (normal_det (fun _ _ => 1) (fun _ => 2) (fun _ => 3) 1 3%N).
    rewrite single_observation_det, Reqb_true by reflexivity. reflexivity. }
  assert (Hu0 : res_u s 0%nat = 0).
  { rewrite Hu, Hcoeff. unfold detrended_u, plane_at. simpl bit_set. cbv iota.
    unfold norm_mean_xy, norm_means. rewrite !for_loop_S, !for_loop_0.
    unfold mean_body, upd. simpl. field. }
  assert (Hv0 : res_v s 0%nat = 0).
  { rewrite Hv, Hcoeff. unfold detrended_v, plane_at. simpl bit_set. cbv iota.
    unfold norm_mean_xy, norm_means. rewrite !for_loop_S, !for_loop_0.
    unfold mean_body, upd. simpl. field. }
  destruct (single_observation_extremes (fun _ _ => 1) (fun _ => 2) (fun _ => 3) 3%N
              (norm_trend (fun _ _ => 1) (fun _ => 2) (fun _ => 3) 1 3%N))
    as (E1 & E2 & E3 & E4).
  fold s in E1, E2, E3, E4.
  rewrite Hu0 in E1, E2. rewrite Hv0 in E3, E4.
  rewrite Rltb_true in E1, E3 by lra. rewrite Rgtb_true in E2, E4 by lra.
  rewrite E1, E2, E3, E4. split; apply MAX_zero.
Qed.

Lemma normalization_degenerate_cases_witness :
  bit_set 3 GPS_TREND = true /\
  normal_det (fun _ _ => 1) (fun _ => 2) (fun _ => 3) 1 3%N = 0 /\
  bit_set 3 GPS_NORM = true /\
  let '(u', v', coeff) :=
    do_gps_normalization (fun _ _ => 1) (fun _ => 2) (fun _ => 3) 1 3%N in
  let s := norm_remove (fun _ _ => 1) (fun _ => 2) (fun _ => 3) 1 3%N
             (norm_trend (fun _ _ => 1) (fun _ => 2) (fun _ => 3) 1 3%N) in
  (coeff GSP_SLP_UX = 0 /\ coeff GSP_SLP_UY = 0 /\
   coeff GSP_SLP_VX = 0 /\ coeff GSP_SLP_VY = 0) /\
  coeff GSP_RANGE_U = 0 /\ coeff GSP_RANGE_V = 0 /\
  u' 0%nat = res_u s 0%nat /\ v' 0%nat = res_v s 0%nat.
Proof.
  split; [reflexivity |]. split; [exact single_observation_det |].
  split; [reflexivity |].
  pose proof (normalization_degenerate_cases
                (fun _ _ => 1) (fun _ => 2) (fun _ => 3) 1 3%N) as H.
  destruct (do_gps_normalization (fun _ _ => 1) (fun _ => 2) (fun _ => 3) 1 3%N)
    as [[u' v'] coeff].
  cbv zeta in H |- *. destruct H as [Ha Hb].
  destruct (Hb eq_refl) as (Eu & Ev & Hu & Hv).
  destruct single_observation_ranges as [Ru Rv].
  rewrite Ru in Eu. rewrite Rv in Ev.
  split; [exact (Ha eq_refl single_observation_det) |].
  split; [exact Eu |]. split; [exact Ev |].
  split; [exact (Hu Eu 0%nat Nat.lt_0_1) | exact (Hv Ev 0%nat Nat.lt_0_1)].
Defined.

(** ** The duplicate check *)

Lemma count_upto_S (P : nat -> bool) (n : nat) :
  count_upto P (S n) = (count_upto P n + (if P n then 1 else 0))%nat.
Proof.
  unfold count_upto. rewrite seq_S, filter_app, length_app. simpl.
  destruct (P n); reflexivity.
Qed.

(** The duplicate check in closed form.  If some retained observation is
    at the record's location with the same u, v, the check ends with [skip]
    set and one more skipped record; otherwise [skip] stays unset and each
    retained observation at the record's location has added one to the
    count of duplicates. *)
Lemma scan_loop_spec (GMT : GMT_CTRL) (X : nat -> array) (u v : array) (m : nat)
    (inp : array) (s0 : scan) (n : nat) :
  skip s0 = false ->
  let P := fun i => gmt_M_is_zero GMT (get_gps_radius GMT (X i) (X m)) in
  let Q := fun i => same_uv GMT u v i inp in
  let s := for_loop n (scan_body GMT X u v m inp) s0 in
  (sc_n_duplicates s0 <= sc_n_duplicates s)%nat /\
  (skip s = true ->
     sc_n_skip s = S (sc_n_skip s0) /\
     exists i, (i < n)%nat /\ P i = true /\ Q i = true) /\
  (skip s = false ->
     sc_n_skip s = sc_n_skip s0 /\
     sc_n_duplicates s = (sc_n_duplicates s0 + count_upto P n)%nat /\
     forall i, (i < n)%nat -> P i = true -> Q i = false).
Proof.
  intros H0 P Q. induction n as [| n IH]; cbv zeta.
  - rewrite for_loop_0. split; [lia |]. split.
    + intros H. rewrite H0 in H. discriminate H.
    + intros _. split; [reflexivity |]. split.
      * unfold count_upto. simpl. lia.
      * intros i Hi. lia.
  - rewrite for_loop_S. cbv zeta in IH.
    set (s1 := for_loop n (scan_body GMT X u v m inp) s0) in *.
    destruct IH as (Hmono & Hskip & Hrun).
    unfold scan_body. destruct (skip s1) eqn:Es.
    + split; [exact Hmono |]. split.
      * intros _. destruct (Hskip eq_refl) as (Hn & i & Hi & HP & HQ).
        split; [exact Hn |]. exists i. split; [lia | auto].
      * intros H. rewrite Es in H. discriminate H.
    + destruct (Hrun eq_refl) as (Hn & Hd & Hall).
      rewrite count_upto_S.
      fold (P n). fold (same_uv GMT u v n inp). fold (Q n).
      destruct (P n) eqn:EP; [destruct (Q n) eqn:EQ |]; simpl.
      * split; [exact Hmono |]. split.
        -- intros _. split; [now rewrite Hn |]. exists n. split; [lia | auto].
        -- intros H. discriminate H.
      * split; [lia |]. split.
        -- intros H. discriminate H.
        -- intros _. split; [exact Hn |]. split; [lia |].
           intros i Hi HPi. destruct (Nat.eq_dec i n) as [-> | Hne]; [exact EQ |].
           apply Hall; [lia | exact HPi].
      * split; [exact Hmono |]. split.
        -- intros H. discriminate H.
        -- intros _. split; [exact Hn |]. split; [lia |].
           intros i Hi HPi. destruct (Nat.eq_dec i n) as [-> | Hne].
           ++ rewrite EP in HPi. discriminate HPi.
           ++ apply Hall; [lia | exact HPi].
Qed.

(** The distance test of the check is [same_location] on the record. *)
Lemma scan_radius (GMT : GMT_CTRL) (X : nat -> array) (n : nat) (inp : array) (i : nat) :
  i <> n ->
  gmt_M_is_zero GMT (get_gps_radius GMT (save_xy X n inp i) (save_xy X n inp n))
  = same_location GMT X i inp.
Proof.
  intros Hne. unfold get_gps_radius, same_location, save_xy.
  rewrite upd_same, (upd_other _ _ _ _ Hne).
  unfold GMT_X, GMT_Y, upd. simpl. reflexivity.
Qed.

Lemma count_upto_ext (P P' : nat -> bool) (n : nat) :
  (forall i, (i < n)%nat -> P i = P' i) -> count_upto P n = count_upto P' n.
Proof.
  intros H. induction n as [| n IH]; [reflexivity |].
  rewrite !count_upto_S, IH, (H n) by (intros; auto; lia). reflexivity.
Qed.

(** What the duplicate check of [read_data] finds, in terms of the two
    tests on the record. *)
Lemma read_data_scan (GMT : GMT_CTRL) (st : reader) (inp : array) :
  let n := rd_n st in
  let P := fun i => same_location GMT (rd_X st) i inp in
  let Q := fun i => same_uv GMT (rd_u st) (rd_v st) i inp in
  let s := for_loop n (scan_body GMT (save_xy (rd_X st) n inp) (rd_u st) (rd_v st) n inp)
             (mkScan false (rd_n_skip st) (rd_n_duplicates st)
                (rd_r_min st) (rd_r_max st)) in
  (rd_n_duplicates st <= sc_n_duplicates s)%nat /\
  (skip s = true ->
     sc_n_skip s = S (rd_n_skip st) /\
     exists i, (i < n)%nat /\ P i = true /\ Q i = true) /\
  (skip s = false ->
     sc_n_skip s = rd_n_skip st /\
     sc_n_duplicates s = (rd_n_duplicates st + count_upto P n)%nat /\
     forall i, (i < n)%nat -> P i = true -> Q i = false).
Proof.
  intros n P Q s.
  pose proof (scan_loop_spec GMT (save_xy (rd_X st) n inp) (rd_u st) (rd_v st) n inp
                (mkScan false (rd_n_skip st) (rd_n_duplicates st)
                   (rd_r_min st) (rd_r_max st)) n eq_refl) as H.
  cbv zeta in H. fold s in H. simpl in H.
  destruct H as (Hmono & Hskip & Hrun).
  assert (HP : forall i, (i < n)%nat ->
            gmt_M_is_zero GMT
              (get_gps_radius GMT (save_xy (rd_X st) n inp i) (save_xy (rd_X st) n inp n))
            = P i).
  { intros i Hi. apply scan_radius. lia. }
  split; [exact Hmono |]. split.
  - intros Hs. destruct (Hskip Hs) as (Hn & i & Hi & HPi & HQi).
    split; [exact Hn |]. exists i. rewrite (HP i Hi) in HPi. auto.
  - intros Hs. destruct (Hrun Hs) as (Hn & Hd & Hall).
    split; [exact Hn |]. split.
    + rewrite Hd. f_equal. apply count_upto_ext. exact HP.
    + intros i Hi HPi. apply Hall; [exact Hi |]. rewrite (HP i Hi). exact HPi.
Qed.

(** Whatever becomes of the record, the observations retained before it
    stay as they are. *)
Lemma read_data_keeps (Ctrl : GPSGRIDDER_CTRL) (GMT : GMT_CTRL) (inp : array)
    (st : reader) (k : nat) :
  (k < rd_n st)%nat ->
  rd_X (read_data Ctrl GMT inp st) k = rd_X st k /\
  rd_u (read_data Ctrl GMT inp st) k = rd_u st k /\
  rd_v (read_data Ctrl GMT inp st) k = rd_v st k.
Proof.
  intros Hk. assert (Hne : k <> rd_n st) by lia.
  unfold read_data.
  destruct (skip _); simpl.
  - unfold save_xy. rewrite upd_other by exact Hne. auto.
  - unfold save_weights, save_xy.
    destruct (W_active Ctrl); rewrite ?upd_other by exact Hne; auto.
Qed.

(** A record that matches a retained observation in location and in u, v
    is discarded and counted as skipped. *)
Lemma read_data_discard (Ctrl : GPSGRIDDER_CTRL) (GMT : GMT_CTRL) (inp : array)
    (st : reader) :
  (exists i, (i < rd_n st)%nat /\
     same_location GMT (rd_X st) i (fit_longitude GMT inp) = true /\
     same_uv GMT (rd_u st) (rd_v st) i (fit_longitude GMT inp) = true) ->
  rd_n (read_data Ctrl GMT inp st) = rd_n st /\
  rd_n_skip (read_data Ctrl GMT inp st) = S (rd_n_skip st).
Proof.
  intros (i & Hi & HP & HQ).
  pose proof (read_data_scan GMT st (fit_longitude GMT inp)) as H.
  cbv zeta in H. destruct H as (_ & Hskip & Hrun).
  unfold read_data. destruct (skip _) eqn:Es; simpl.
  - destruct (Hskip eq_refl) as [Hn _]. auto.
  - destruct (Hrun eq_refl) as (_ & _ & Hall).
    rewrite (Hall i Hi HP) in HQ. discriminate HQ.
Qed.

(** A record that differs in u, v from every retained observation at its
    location is retained, and each of these observations adds one to the
    count of duplicates. *)
Lemma read_data_retain (Ctrl : GPSGRIDDER_CTRL) (GMT : GMT_CTRL) (inp : array)
    (st : reader) :
  (forall i, (i < rd_n st)%nat ->
     same_location GMT (rd_X st) i (fit_longitude GMT inp) = true ->
     same_uv GMT (rd_u st) (rd_v st) i (fit_longitude GMT inp) = false) ->
  let st' := read_data Ctrl GMT inp st in
  rd_n st' = S (rd_n st) /\
  rd_n_skip st' = rd_n_skip st /\
  rd_n_duplicates st' =
    (rd_n_duplicates st
     + count_upto (fun i => same_location GMT (rd_X st) i (fit_longitude GMT inp))
         (rd_n st))%nat /\
  rd_X st' (rd_n st) GMT_X = fit_longitude GMT inp GMT_X /\
  rd_X st' (rd_n st) GMT_Y = fit_longitude GMT inp GMT_Y /\
  rd_u st' (rd_n st) = fit_longitude GMT inp GMT_U /\
  rd_v st' (rd_n st) = fit_longitude GMT inp GMT_V.
Proof.
  intros Hall.
  pose proof (read_data_scan GMT st (fit_longitude GMT inp)) as H.
  cbv zeta in H. destruct H as (_ & Hskip & Hrun).
  cbv zeta. unfold read_data. destruct (skip _) eqn:Es; simpl.
  - destruct (Hskip eq_refl) as (_ & i & Hi & HP & HQ).
    rewrite (Hall i Hi HP) in HQ. discriminate HQ.
  - destruct (Hrun eq_refl) as (Hn & Hd & _).
    rewrite !upd_same. repeat split; auto.
    + unfold save_weights, save_xy.
      destruct (W_active Ctrl); [destruct (Nat.eqb (W_mode Ctrl) 0) |];
        rewrite !upd_same; unfold upd, GMT_X, GMT_WU, GMT_WV, GMT_Y; simpl; reflexivity.
    + unfold save_weights, save_xy.
      destruct (W_active Ctrl); [destruct (Nat.eqb (W_mode Ctrl) 0) |];
        rewrite !upd_same; unfold upd, GMT_X, GMT_WU, GMT_WV, GMT_Y; simpl; reflexivity.
Qed.

(** C5, as the code has it.  The observations retained so far are kept
    unchanged by the next record.  A record at the location of a retained
    observation (zero separation within tolerance) whose u and v match that
    observation's within tolerance is discarded: the retained count stays
    and the skip counter grows by one.  A record whose u, v differ from
    those of every retained observation at its location is retained next
    to them, and the duplicate counter grows by one for each of them. *)
Theorem duplicate_resolution (Ctrl : GPSGRIDDER_CTRL) (GMT : GMT_CTRL) (inp : array)
    (st : reader) :
  let rec := fit_longitude GMT inp in
  let st' := read_data Ctrl GMT inp st in
  (forall k, (k < rd_n st)%nat ->
     rd_X st' k = rd_X st k /\ rd_u st' k = rd_u st k /\ rd_v st' k = rd_v st k) /\
  ((exists i, (i < rd_n st)%nat /\
      same_location GMT (rd_X st) i rec = true /\
      same_uv GMT (rd_u st) (rd_v st) i rec = true) ->
     rd_n st' = rd_n st /\ rd_n_skip st' = S (rd_n_skip st)) /\
  ((forall i, (i < rd_n st)%nat ->
      same_location GMT (rd_X st) i rec = true ->
      same_uv GMT (rd_u st) (rd_v st) i rec = false) ->
     rd_n st' = S (rd_n st) /\
     rd_n_skip st' = rd_n_skip st /\
     rd_n_duplicates st' =
       (rd_n_duplicates st
        + count_upto (fun i => same_location GMT (rd_X st) i rec) (rd_n st))%nat /\
     rd_X st' (rd_n st) GMT_X = rec GMT_X /\
     rd_X st' (rd_n st) GMT_Y = rec GMT_Y /\
     rd_u st' (rd_n st) = rec GMT_U /\
     rd_v st' (rd_n st) = rec GMT_V).
Proof.
  cbv zeta. split; [| split].
  - intros k Hk. apply read_data_keeps. exact Hk.
  - apply read_data_discard.
  - intros Hall. exact (read_data_retain Ctrl GMT inp st Hall).
Qed.

(** *** The Cartesian host on concrete records *)

Lemma cartesian_same_location (X : nat -> array) (i : nat) (inp : array) :
  X i GMT_X = inp GMT_X -> X i GMT_Y = inp GMT_Y ->
  same_location GMT_cartesian X i inp = true.
Proof.
  intros Hx Hy. unfold same_location, gmt_M_is_zero. simpl.
  rewrite Hx, Hy.
  replace ((inp GMT_X - inp GMT_X) * (inp GMT_X - inp GMT_X)
           + (inp GMT_Y - inp GMT_Y) * (inp GMT_Y - inp GMT_Y)) with 0 by ring.
  rewrite sqrt_0, Rabs_R0. apply Rltb_true.
  apply Rinv_0_lt_compat. lra.
Qed.

Lemma cartesian_almost_equal (a : R) :
  doubleAlmostEqualZero GMT_cartesian a a = true.
Proof.
  cbn [doubleAlmostEqualZero GMT_cartesian]. replace (a - a) with 0 by ring. rewrite Rabs_R0.
  destruct (Rle_dec 0 (5 * / 2 ^ 52)) as [H | H]; [reflexivity | exfalso].
  apply H. apply Rmult_le_pos; [lra |].
  apply Rlt_le, Rinv_0_lt_compat, pow_lt. lra.
Qed.

Lemma cartesian_not_almost_equal (a b : R) :
  1 <= Rabs (a - b) -> doubleAlmostEqualZero GMT_cartesian a b = false.
Proof.
  intros Hab. cbn [doubleAlmostEqualZero GMT_cartesian].
  destruct (Rle_dec (Rabs (a - b)) (5 * / 2 ^ 52)) as [H | H]; [exfalso | reflexivity].
  assert (Hp : 8 <= 2 ^ 52).
  { replace (2 ^ 52) with (8 * 2 ^ 49) by ring.
    assert (1 <= 2 ^ 49) by (apply pow_R1_Rle; lra). lra. }
  assert (Hinv : / 2 ^ 52 <= / 8) by (apply Rinv_le_contravar; lra).
  lra.
Qed.

Lemma fit_longitude_cartesian (inp : array) : fit_longitude GMT_cartesian inp = inp.
Proof. reflexivity. Qed.

(** The run on [rec_A], [rec_B]: both are retained, as one pair of
    duplicates with different observations. *)
Lemma after_A_B_state :
  rd_n after_A_B = 2%nat /\
  rd_n_duplicates after_A_B = 1%nat /\
  (rd_X after_A_B 0%nat GMT_X = 0 /\ rd_X after_A_B 0%nat GMT_Y = 0 /\
   rd_u after_A_B 0%nat = 1 /\ rd_v after_A_B 0%nat = 1) /\
  (rd_X after_A_B 1%nat GMT_X = 0 /\ rd_X after_A_B 1%nat GMT_Y = 0 /\
   rd_u after_A_B 1%nat = 2 /\ rd_v after_A_B 1%nat = 2).
Proof.
  unfold after_A_B.
  set (st1 := read_data New_Ctrl GMT_cartesian rec_A init_reader).
  assert (H1 : rd_n st1 = 1%nat /\ rd_n_duplicates st1 = 0%nat /\
               rd_X st1 0%nat GMT_X = 0 /\ rd_X st1 0%nat GMT_Y = 0 /\
               rd_u st1 0%nat = 1 /\ rd_v st1 0%nat = 1).
  { destruct (read_data_retain New_Ctrl GMT_cartesian rec_A init_reader)
      as (Hn & _ & Hd & Hx & Hy & Hu & Hv).
    - intros i Hi. simpl in Hi. lia.
    - fold st1 in Hn, Hd, Hx, Hy, Hu, Hv. simpl in Hn, Hd, Hx, Hy, Hu, Hv.
      repeat split; assumption. }
  destruct H1 as (Hn1 & Hd1 & Hx1 & Hy1 & Hu1 & Hv1).
  assert (Hloc : same_location GMT_cartesian (rd_X st1) 0
                   (fit_longitude GMT_cartesian rec_B) = true).
  { apply cartesian_same_location; [rewrite Hx1 | rewrite Hy1]; reflexivity. }
  destruct (read_data_retain New_Ctrl GMT_cartesian rec_B st1)
    as (Hn & _ & Hd & Hx & Hy & Hu & Hv).
  - intros i Hi _. rewrite Hn1 in Hi. assert (i = 0%nat) by lia. subst i.
    unfold same_uv. rewrite Hu1, fit_longitude_cartesian.
    rewrite cartesian_not_almost_equal; [reflexivity |].
    change (rec_B GMT_U) with 2. replace (2 - 1) with 1 by ring.
    rewrite Rabs_R1. lra.
  - destruct (read_data_keeps New_Ctrl GMT_cartesian rec_B st1 0) as (Kx & Ku & Kv).
    { rewrite Hn1. lia. }
    rewrite Hn1 in Hn, Hd, Hx, Hy, Hu, Hv. rewrite Hd1 in Hd.
    rewrite Kx, Ku, Kv, Hn, Hx, Hy, Hu, Hv, Hd.
    rewrite count_upto_S, Hloc. unfold count_upto. simpl.
    repeat split; assumption.
Qed.

(** A third record equal to [rec_B] matches the retained observation 1. *)
Lemma rec_B_again_matches :
  exists i, (i < rd_n after_A_B)%nat /\
    same_location GMT_cartesian (rd_X after_A_B) i
      (fit_longitude GMT_cartesian rec_B) = true /\
    same_uv GMT_cartesian (rd_u after_A_B) (rd_v after_A_B) i
      (fit_longitude GMT_cartesian rec_B) = true.
Proof.
  destruct after_A_B_state as (Hn & _ & _ & (Hx1 & Hy1 & Hu1 & Hv1)).
  exists 1%nat. rewrite fit_longitude_cartesian.
  split; [rewrite Hn; lia |]. split.
  - apply cartesian_same_location; [rewrite Hx1 | rewrite Hy1]; reflexivity.
  - unfold same_uv. rewrite Hu1, Hv1.
    change (rec_B GMT_U) with 2. change (rec_B GMT_V) with 2.
    rewrite cartesian_almost_equal. reflexivity.
Qed.

(** The retained observations 0 and 1 are at one location and differ. *)
Lemma after_A_B_conflict : conflicting GMT_cartesian after_A_B 0 1.
Proof.
  destruct after_A_B_state as (Hn & _ & (Hx0 & Hy0 & Hu0 & Hv0) & (Hx1 & Hy1 & Hu1 & Hv1)).
  unfold conflicting. split; [rewrite Hn; lia |]. split.
  - apply cartesian_same_location; unfold point_of, upd; simpl; congruence.
  - unfold same_uv.
    replace (point_of (rd_X after_A_B) (rd_u after_A_B) (rd_v after_A_B) 1 GMT_U)
      with 2 by (unfold point_of, upd; simpl; congruence).
    rewrite Hu0. rewrite cartesian_not_almost_equal; [reflexivity |].
    replace (2 - 1) with 1 by ring. rewrite Rabs_R1. lra.
Qed.

(** C5, as stated, fails on a third record equal to [rec_B]: it is at the
    location of the retained observation 0 and its u, v differ from that
    observation's, yet it is not retained (it matches observation 1). *)
Lemma duplicate_resolution_counterexample :
  (0 < rd_n after_A_B)%nat /\
  same_location GMT_cartesian (rd_X after_A_B) 0
    (fit_longitude GMT_cartesian rec_B) = true /\
  same_uv GMT_cartesian (rd_u after_A_B) (rd_v after_A_B) 0
    (fit_longitude GMT_cartesian rec_B) = false /\
  rd_n (read_data New_Ctrl GMT_cartesian rec_B after_A_B) = rd_n after_A_B /\
  rd_n (read_data New_Ctrl GMT_cartesian rec_B after_A_B) <> S (rd_n after_A_B).
Proof.
  destruct after_A_B_state as (Hn & Hd & (Hx0 & Hy0 & Hu0 & Hv0) & _).
  rewrite fit_longitude_cartesian.
  destruct (read_data_discard New_Ctrl GMT_cartesian rec_B after_A_B
              rec_B_again_matches) as [Hdisc _].
  split; [rewrite Hn; lia |]. split; [| split; [| split]].
  - apply cartesian_same_location; [rewrite Hx0 | rewrite Hy0]; reflexivity.
  - unfold same_uv. rewrite Hu0.
    rewrite cartesian_not_almost_equal; [reflexivity |].
    change (rec_B GMT_U) with 2. replace (2 - 1) with 1 by ring.
    rewrite Rabs_R1. lra.
  - exact Hdisc.
  - rewrite Hdisc. lia.
Qed.

Lemma duplicate_resolution_witness :
  (exists i, (i < rd_n after_A_B)%nat /\
     same_location GMT_cartesian (rd_X after_A_B) i
       (fit_longitude GMT_cartesian rec_B) = true /\
     same_uv GMT_cartesian (rd_u after_A_B) (rd_v after_A_B) i
       (fit_longitude GMT_cartesian rec_B) = true) /\
  rd_n (read_data New_Ctrl GMT_cartesian rec_B after_A_B) = rd_n after_A_B /\
  rd_n_skip (read_data New_Ctrl GMT_cartesian rec_B after_A_B)
    = S (rd_n_skip after_A_B).
Proof.
  split; [exact rec_B_again_matches |].
  exact (proj1 (proj2 (duplicate_resolution New_Ctrl GMT_cartesian rec_B after_A_B))
           rec_B_again_matches).
Defined.

(** ** The gate on conflicting duplicates *)

Lemma count_upto_pos (P : nat -> bool) (n i : nat) :
  (i < n)%nat -> P i = true -> (1 <= count_upto P n)%nat.
Proof.
  induction n as [| n IH]; intros Hi HP; [lia |].
  rewrite count_upto_S. destruct (Nat.eq_dec i n) as [-> | Hne].
  - rewrite HP. lia.
  - assert (1 <= count_upto P n)%nat by (apply IH; [lia | exact HP]). lia.
Qed.

(** The record is either discarded or retained as observation [n]. *)
Lemma read_data_cases (Ctrl : GPSGRIDDER_CTRL) (GMT : GMT_CTRL) (inp : array)
    (st : reader) :
  let rec := fit_longitude GMT inp in
  let st' := read_data Ctrl GMT inp st in
  (rd_n_duplicates st <= rd_n_duplicates st')%nat /\
  (rd_n st' = rd_n st \/
   (rd_n st' = S (rd_n st) /\
    rd_n_duplicates st' =
      (rd_n_duplicates st
       + count_upto (fun i => same_location GMT (rd_X st) i rec) (rd_n st))%nat /\
    (forall i, (i < rd_n st)%nat ->
       same_location GMT (rd_X st) i rec = true ->
       same_uv GMT (rd_u st) (rd_v st) i rec = false) /\
    rd_X st' (rd_n st) GMT_X = rec GMT_X /\
    rd_X st' (rd_n st) GMT_Y = rec GMT_Y /\
    rd_u st' (rd_n st) = rec GMT_U /\
    rd_v st' (rd_n st) = rec GMT_V)).
Proof.
  cbv zeta.
  pose proof (read_data_scan GMT st (fit_longitude GMT inp)) as H.
  cbv zeta in H. destruct H as (Hmono & _ & Hrun).
  split.
  - unfold read_data. destruct (skip _); simpl; exact Hmono.
  - destruct (skip (for_loop (rd_n st)
                      (scan_body GMT (save_xy (rd_X st) (rd_n st) (fit_longitude GMT inp))
                         (rd_u st) (rd_v st) (rd_n st) (fit_longitude GMT inp))
                      (mkScan false (rd_n_skip st) (rd_n_duplicates st)
                         (rd_r_min st) (rd_r_max st)))) eqn:Es.
    + left. unfold read_data. rewrite Es. reflexivity.
    + right. destruct (Hrun eq_refl) as (_ & _ & Hall).
      destruct (read_data_retain Ctrl GMT inp st Hall)
        as (Hn & _ & Hd & Hx & Hy & Hu & Hv).
      repeat split; assumption.
Qed.

(** Reading one more record keeps the fact that every conflicting pair of
    retained observations has been counted. *)
Lemma read_data_flags (Ctrl : GPSGRIDDER_CTRL) (GMT : GMT_CTRL) (inp : array)
    (st : reader) :
  (forall i j, conflicting GMT st i j -> (0 < rd_n_duplicates st)%nat) ->
  forall i j, conflicting GMT (read_data Ctrl GMT inp st) i j ->
    (0 < rd_n_duplicates (read_data Ctrl GMT inp st))%nat.
Proof.
  intros Hinv i j (Hij & Hloc & Huv).
  pose proof (read_data_cases Ctrl GMT inp st) as Hc. cbv zeta in Hc.
  destruct Hc as (Hmono & Hc).
  assert (Hold : (j < rd_n st)%nat -> (0 < rd_n_duplicates st)%nat).
  { intros Hj. apply (Hinv i j). unfold conflicting.
    destruct (read_data_keeps Ctrl GMT inp st i) as (Kxi & Kui & Kvi); [lia |].
    destruct (read_data_keeps Ctrl GMT inp st j Hj) as (Kxj & Kuj & Kvj).
    split; [lia |].
    unfold same_location, same_uv, point_of in *.
    rewrite Kxi, Kxj, Kui, Kuj, Kvi, Kvj in *. auto. }
  destruct Hc as [Hn | (Hn & Hd & Hall & Hx & Hy & Hu & Hv)].
  - rewrite Hn in Hij. assert (0 < rd_n_duplicates st)%nat by (apply Hold; lia). lia.
  - rewrite Hn in Hij. destruct (Nat.eq_dec j (rd_n st)) as [-> | Hne].
    + destruct (read_data_keeps Ctrl GMT inp st i) as (Kxi & Kui & Kvi); [lia |].
      assert (HP : same_location GMT (rd_X st) i (fit_longitude GMT inp) = true).
      { rewrite <- Hloc. unfold same_location, point_of.
        rewrite Kxi. unfold upd, GMT_X, GMT_Y, GMT_U, GMT_V; simpl.
        unfold GMT_X, GMT_Y in Hx, Hy. rewrite Hx, Hy. reflexivity. }
      rewrite Hd.
      pose proof (count_upto_pos
                    (fun k => same_location GMT (rd_X st) k (fit_longitude GMT inp))
                    (rd_n st) i (proj1 Hij) HP).
      lia.
    + assert (0 < rd_n_duplicates st)%nat by (apply Hold; lia). lia.
Qed.

Lemma read_records_flags (Ctrl : GPSGRIDDER_CTRL) (GMT : GMT_CTRL)
    (input : list record) :
  forall st0 st,
    read_records Ctrl GMT input st0 = inr st ->
    (forall i j, conflicting GMT st0 i j -> (0 < rd_n_duplicates st0)%nat) ->
    forall i j, conflicting GMT st i j -> (0 < rd_n_duplicates st)%nat.
Proof.
  induction input as [| r rest IH]; intros st0 st Hrun Hinv.
  - simpl in Hrun. injection Hrun as <-. exact Hinv.
  - destruct r as [inp | |]; simpl in Hrun.
    + apply (IH _ _ Hrun). apply read_data_flags. exact Hinv.
    + apply (IH _ _ Hrun). exact Hinv.
    + discriminate Hrun.
Qed.

(** C4, as the code has it.  When the input is read without a read error
    and two retained observations are at one location with different u, v,
    the run returns the data error before the system is assembled, unless
    the regularized solver is selected ([-C]) with a cutoff that is not
    zero within tolerance, of either sign; in that case the run goes on to
    the linear system. *)
Theorem conflicting_duplicate_gate (Ctrl : GPSGRIDDER_CTRL) (GMT : GMT_CTRL)
    (input : list record) (st : reader) :
  read_records Ctrl GMT input init_reader = inr st ->
  (exists i j, conflicting GMT st i j) ->
  GMT_gpsgridder_system Ctrl GMT input =
    if negb (C_active Ctrl) || gmt_M_is_zero GMT (C_value Ctrl)
    then inl GMT_DATA_READ_ERROR
    else inr (build_system Ctrl GMT st).
Proof.
  intros Hrun (i & j & Hc).
  assert (Hd : (0 < rd_n_duplicates st)%nat).
  { apply (read_records_flags Ctrl GMT input init_reader st Hrun) with (i := i) (j := j).
    - intros a b (Hab & _). simpl in Hab. lia.
    - exact Hc. }
  unfold GMT_gpsgridder_system. rewrite Hrun. unfold duplicate_gate.
  assert (Hz : Nat.eqb (rd_n_duplicates st) 0 = false) by (apply Nat.eqb_neq; lia).
  rewrite Hz. simpl negb at 1. cbv iota.
  destruct (negb (C_active Ctrl) || gmt_M_is_zero GMT (C_value Ctrl)); reflexivity.
Qed.

Lemma read_A_B (Ctrl : GPSGRIDDER_CTRL) :
  W_active Ctrl = false ->
  read_records Ctrl GMT_cartesian [Rec_data rec_A; Rec_data rec_B] init_reader
  = inr after_A_B.
Proof.
  intros HW. simpl. unfold after_A_B, read_data, save_weights. rewrite HW.
  reflexivity.
Qed.

Lemma conflicting_duplicate_gate_witness :
  read_records New_Ctrl GMT_cartesian [Rec_data rec_A; Rec_data rec_B] init_reader
    = inr after_A_B /\
  (exists i j, conflicting GMT_cartesian after_A_B i j) /\
  GMT_gpsgridder_system New_Ctrl GMT_cartesian [Rec_data rec_A; Rec_data rec_B]
    = inl GMT_DATA_READ_ERROR.
Proof.
  assert (Hc : exists i j, conflicting GMT_cartesian after_A_B i j)
    by (exists 0%nat, 1%nat; exact after_A_B_conflict).
  split; [exact (read_A_B New_Ctrl eq_refl) |]. split; [exact Hc |].
  exact (conflicting_duplicate_gate New_Ctrl GMT_cartesian
           [Rec_data rec_A; Rec_data rec_B] after_A_B (read_A_B New_Ctrl eq_refl) Hc).
Defined.

(** C4, as stated, fails on [rec_A], [rec_B] under [-C-1/eig.txt]: the
    two retained observations conflict and the solver is not the
    regularized one with a positive cutoff, yet the run does not return
    the data error; it goes on to the linear system. *)
Lemma conflicting_duplicate_gate_counterexample :
  read_records Ctrl_eigen_only GMT_cartesian [Rec_data rec_A; Rec_data rec_B] init_reader
    = inr after_A_B /\
  conflicting GMT_cartesian after_A_B 0 1 /\
  ~ (C_active Ctrl_eigen_only = true /\ 0 < C_value Ctrl_eigen_only) /\
  GMT_gpsgridder_system Ctrl_eigen_only GMT_cartesian [Rec_data rec_A; Rec_data rec_B]
    = inr (build_system Ctrl_eigen_only GMT_cartesian after_A_B).
Proof.
  split; [exact (read_A_B Ctrl_eigen_only eq_refl) |].
  split; [exact after_A_B_conflict |]. split.
  - intros [_ H]. cbn [C_value Ctrl_eigen_only] in H. lra.
  - unfold GMT_gpsgridder_system. rewrite (read_A_B Ctrl_eigen_only eq_refl).
    unfold duplicate_gate. destruct after_A_B_state as (_ & Hd & _). rewrite Hd.
    cbn [Nat.eqb negb C_active C_value Ctrl_eigen_only orb].
    unfold gmt_M_is_zero. cbn [GMT_CONV8_LIMIT GMT_cartesian].
    rewrite Rabs_m1, Rltb_false; [reflexivity |].
    assert (H : / 10 ^ 8 < 1).
    { rewrite <- Rinv_1. apply Rinv_lt_contravar; lra. }
    lra.
Qed.

(** ** Assembly of the linear system *)

(** One column of one row: the four entries written, and the rest of the
    matrix. *)
Lemma column_body_spec (Ctrl : GPSGRIDDER_CTRL) (GMT : GMT_CTRL) (X : nat -> array)
    (n : nat) (par : array) (geo : bool) (j i : nat) (s : assembly) :
  (0 < n)%nat ->
  let s' := column_body Ctrl GMT X n par geo j i s in
  let wu := if W_active Ctrl then weight_ju s * X i GMT_WU else weight_u s in
  let wv := if W_active Ctrl then weight_jv s * X i GMT_WV else weight_v s in
  let '(G0, G1, G2) := greens_between GMT X par geo i j in
  (asm_u s' = asm_u s /\ asm_v s' = asm_v s /\
   weight_ju s' = weight_ju s /\ weight_jv s' = weight_jv s /\
   weight_u s' = wu /\ weight_v s' = wv) /\
  (asm_A s' (j * (2 * n) + i)%nat = dmul (fin wu) G0 /\
   asm_A s' (j * (2 * n) + i + n)%nat = dmul (fin wu) G2 /\
   asm_A s' ((j + n) * (2 * n) + i)%nat = dmul (fin wv) G2 /\
   asm_A s' ((j + n) * (2 * n) + i + n)%nat = dmul (fin wv) G1) /\
  (forall idx,
     idx <> (j * (2 * n) + i)%nat -> idx <> (j * (2 * n) + i + n)%nat ->
     idx <> ((j + n) * (2 * n) + i)%nat -> idx <> ((j + n) * (2 * n) + i + n)%nat ->
     asm_A s' idx = asm_A s idx).
Proof.
  intros Hn. unfold column_body, greens_between.
  destruct (get_gps_dxdy GMT (X i) (X j) geo) as [dx dy].
  destruct (evaluate_greensfunctions dx dy par) as [[G0 G1] G2].
  cbv zeta. cbn [asm_u asm_v asm_A weight_u weight_v weight_ju weight_jv].
  split; [repeat split |]. split.
  - repeat split.
    + rewrite !upd_other by nia. apply upd_same.
    + rewrite upd_other by nia. apply upd_same.
    + apply upd_same.
    + rewrite !upd_other by nia. apply upd_same.
  - intros idx H1 H2 H3 H4. rewrite !upd_other by assumption. reflexivity.
Qed.

(** The loop on the columns of row [j], after [m] columns. *)
Lemma column_loop_spec (Ctrl : GPSGRIDDER_CTRL) (GMT : GMT_CTRL) (X : nat -> array)
    (n : nat) (par : array) (geo : bool) (j : nat) (s0 : assembly) (m : nat) :
  (m <= n)%nat -> (j < n)%nat ->
  let s := for_loop m (column_body Ctrl GMT X n par geo j) s0 in
  (asm_u s = asm_u s0 /\ asm_v s = asm_v s0 /\
   weight_ju s = weight_ju s0 /\ weight_jv s = weight_jv s0 /\
   (W_active Ctrl = false -> weight_u s = weight_u s0 /\ weight_v s = weight_v s0)) /\
  (forall i, (i < m)%nat ->
     let wu := if W_active Ctrl then weight_ju s0 * X i GMT_WU else weight_u s0 in
     let wv := if W_active Ctrl then weight_jv s0 * X i GMT_WV else weight_v s0 in
     let '(G0, G1, G2) := greens_between GMT X par geo i j in
     asm_A s (j * (2 * n) + i)%nat = dmul (fin wu) G0 /\
     asm_A s (j * (2 * n) + i + n)%nat = dmul (fin wu) G2 /\
     asm_A s ((j + n) * (2 * n) + i)%nat = dmul (fin wv) G2 /\
     asm_A s ((j + n) * (2 * n) + i + n)%nat = dmul (fin wv) G1) /\
  (forall r c, r <> j -> r <> (j + n)%nat -> (c < 2 * n)%nat ->
     asm_A s (r * (2 * n) + c)%nat = asm_A s0 (r * (2 * n) + c)%nat).
Proof.
  intros Hm Hj. induction m as [| m IH]; cbv zeta.
  - rewrite for_loop_0. split; [repeat split; auto |]. split.
    + intros i Hi. lia.
    + reflexivity.
  - rewrite for_loop_S.
    assert (Hm' : (m <= n)%nat) by lia. specialize (IH Hm'). cbv zeta in IH.
    set (s1 := for_loop m (column_body Ctrl GMT X n par geo j) s0) in *.
    destruct IH as ((Iu & Iv & Iju & Ijv & Iw) & Iset & Iframe).
    assert (Hn : (0 < n)%nat) by lia.
    pose proof (column_body_spec Ctrl GMT X n par geo j m s1 Hn) as Hb.
    cbv zeta in Hb.
    destruct (greens_between GMT X par geo m j) as [[G0 G1] G2] eqn:EG.
    destruct Hb as ((Bu & Bv & Bju & Bjv & Bwu & Bwv) & Bset & Bframe).
    split; [| split].
    + rewrite Bu, Bv, Bju, Bjv. do 4 (split; [assumption |]).
      intros HW. rewrite Bwu, Bwv, HW. apply Iw. exact HW.
    + intros i Hi. destruct (Nat.eq_dec i m) as [-> | Hne].
      * rewrite EG.
        assert (Ewu : (if W_active Ctrl then weight_ju s1 * X m GMT_WU else weight_u s1)
                      = (if W_active Ctrl then weight_ju s0 * X m GMT_WU else weight_u s0)).
        { destruct (W_active Ctrl) eqn:EW; [now rewrite Iju | now apply Iw]. }
        assert (Ewv : (if W_active Ctrl then weight_jv s1 * X m GMT_WV else weight_v s1)
                      = (if W_active Ctrl then weight_jv s0 * X m GMT_WV else weight_v s0)).
        { destruct (W_active Ctrl) eqn:EW; [now rewrite Ijv | now apply Iw]. }
        rewrite <- Ewu, <- Ewv. exact Bset.
      * assert (Hlt : (i < m)%nat) by lia. specialize (Iset i Hlt).
        destruct (greens_between GMT X par geo i j) as [[H0 H1] H2].
        rewrite !Bframe by nia. exact Iset.
    + intros r c Hr Hr' Hc. rewrite Bframe by nia. apply Iframe; assumption.
Qed.

(** The loop on the rows, after [J] rows. *)
Lemma row_loop_spec (Ctrl : GPSGRIDDER_CTRL) (GMT : GMT_CTRL) (X : nat -> array)
    (u v : array) (n : nat) (par : array) (geo : bool) (J : nat) :
  (J <= n)%nat ->
  let s := for_loop J (row_body Ctrl GMT X n par geo)
             (mkAsm (fun _ => fin 0) u v 1.0 1.0 1.0 1.0) in
  (W_active Ctrl = false -> weight_u s = 1.0 /\ weight_v s = 1.0) /\
  (forall k,
     asm_u s k = (if Nat.ltb k J && W_active Ctrl then u k * X k GMT_WU else u k) /\
     asm_v s k = (if Nat.ltb k J && W_active Ctrl then v k * X k GMT_WV else v k)) /\
  (forall j i, (j < J)%nat -> (i < n)%nat ->
     let '(G0, G1, G2) := greens_between GMT X par geo i j in
     asm_A s (j * (2 * n) + i)%nat = dmul (fin (pair_weight_u Ctrl X j i)) G0 /\
     asm_A s (j * (2 * n) + i + n)%nat = dmul (fin (pair_weight_u Ctrl X j i)) G2 /\
     asm_A s ((j + n) * (2 * n) + i)%nat = dmul (fin (pair_weight_v Ctrl X j i)) G2 /\
     asm_A s ((j + n) * (2 * n) + i + n)%nat = dmul (fin (pair_weight_v Ctrl X j i)) G1).
Proof.
  intros HJ. induction J as [| J IH]; cbv zeta.
  - rewrite for_loop_0. simpl. split; [auto |]. split; [auto |]. intros j i Hj. lia.
  - rewrite for_loop_S.
    assert (HJ' : (J <= n)%nat) by lia. specialize (IH HJ'). cbv zeta in IH.
    set (s1 := for_loop J (row_body Ctrl GMT X n par geo)
                 (mkAsm (fun _ => fin 0) u v 1.0 1.0 1.0 1.0)) in *.
    destruct IH as (Iw & Iuv & Iset).
    unfold row_body.
    set (s1' := if W_active Ctrl
                then mkAsm (asm_A s1) (upd (asm_u s1) J (asm_u s1 J * X J GMT_WU))
                       (upd (asm_v s1) J (asm_v s1 J * X J GMT_WV))
                       (weight_u s1) (weight_v s1) (X J GMT_WU) (X J GMT_WV)
                else s1).
    assert (HJn : (J < n)%nat) by lia.
    pose proof (column_loop_spec Ctrl GMT X n par geo J s1' n (Nat.le_refl n) HJn) as Hc.
    cbv zeta in Hc.
    set (s2 := for_loop n (column_body Ctrl GMT X n par geo J) s1') in *.
    destruct Hc as ((Cu & Cv & _ & _ & Cw) & Cset & Cframe).
    assert (EA : asm_A s1' = asm_A s1) by (unfold s1'; destruct (W_active Ctrl); reflexivity).
    split; [| split].
    + intros HW. destruct (Cw HW) as [Ewu Ewv]. rewrite Ewu, Ewv.
      unfold s1'. rewrite HW. apply Iw. exact HW.
    + intros k. rewrite Cu, Cv. destruct (Iuv k) as [Iu Iv]. destruct (Iuv J) as [IuJ IvJ].
      rewrite Nat.ltb_irrefl in IuJ, IvJ. simpl in IuJ, IvJ.
      unfold s1'. destruct (W_active Ctrl) eqn:EW; cbn [asm_u asm_v].
      * destruct (Nat.eq_dec k J) as [-> | Hne].
        -- rewrite !upd_same, IuJ, IvJ.
           assert (E : Nat.ltb J (S J) = true) by (apply Nat.ltb_lt; lia).
           rewrite E. simpl. auto.
        -- rewrite !upd_other by exact Hne. rewrite Iu, Iv.
           assert (E : Nat.ltb k (S J) = Nat.ltb k J).
           { destruct (Nat.ltb k J) eqn:E1.
             - apply Nat.ltb_lt. apply Nat.ltb_lt in E1. lia.
             - apply Nat.ltb_ge. apply Nat.ltb_ge in E1. lia. }
           rewrite E. auto.
      * rewrite Iu, Iv, !andb_false_r. auto.
    + intros j i Hj Hi. destruct (Nat.eq_dec j J) as [-> | Hne].
      * specialize (Cset i Hi).
        destruct (greens_between GMT X par geo i J) as [[G0 G1] G2].
        unfold pair_weight_u, pair_weight_v.
        assert (Ewu : (if W_active Ctrl then weight_ju s1' * X i GMT_WU else weight_u s1')
                      = (if W_active Ctrl then X J GMT_WU * X i GMT_WU else 1.0)).
        { unfold s1'. destruct (W_active Ctrl) eqn:EW; [reflexivity | now apply Iw]. }
        assert (Ewv : (if W_active Ctrl then weight_jv s1' * X i GMT_WV else weight_v s1')
                      = (if W_active Ctrl then X J GMT_WV * X i GMT_WV else 1.0)).
        { unfold s1'. destruct (W_active Ctrl) eqn:EW; [reflexivity | now apply Iw]. }
        rewrite <- Ewu, <- Ewv. exact Cset.
      * assert (Hlt : (j < J)%nat) by lia. specialize (Iset j i Hlt Hi).
        destruct (greens_between GMT X par geo i j) as [[G0 G1] G2].
        rewrite <- !Nat.add_assoc.
        rewrite !Cframe, EA by lia.
        rewrite !Nat.add_assoc. exact Iset.
Qed.

Lemma append_v_spec (u v : array) (n m : nat) :
  let obs := for_loop m (fun k obs => upd obs (n + k)%nat (v k)) u in
  (forall k, (k < n)%nat -> obs k = u k) /\
  (forall k, (k < m)%nat -> obs (n + k)%nat = v k).
Proof.
  induction m as [| m IH]; cbv zeta.
  - rewrite for_loop_0. split; [reflexivity | intros k Hk; lia].
  - rewrite for_loop_S. cbv zeta in IH. destruct IH as [Iu Iv]. split.
    + intros k Hk. rewrite upd_other by lia. apply Iu. exact Hk.
    + intros k Hk. destruct (Nat.eq_dec k m) as [-> | Hne].
      * apply upd_same.
      * rewrite upd_other by lia. apply Iv. lia.
Qed.

(** The matrix and right-hand side of [build_matrix] and [append_v] in
    closed form. *)
Lemma build_matrix_spec (Ctrl : GPSGRIDDER_CTRL) (GMT : GMT_CTRL) (X : nat -> array)
    (u v : array) (n : nat) (par : array) (geo : bool) (i j : nat) :
  (i < n)%nat -> (j < n)%nat ->
  let s := build_matrix Ctrl GMT X u v n par geo in
  let obs := append_v (asm_u s) (asm_v s) n in
  let '(G0, G1, G2) := greens_between GMT X par geo i j in
  (asm_A s (j * (2 * n) + i)%nat = dmul (fin (pair_weight_u Ctrl X j i)) G0 /\
   asm_A s (j * (2 * n) + i + n)%nat = dmul (fin (pair_weight_u Ctrl X j i)) G2 /\
   asm_A s ((j + n) * (2 * n) + i)%nat = dmul (fin (pair_weight_v Ctrl X j i)) G2 /\
   asm_A s ((j + n) * (2 * n) + i + n)%nat = dmul (fin (pair_weight_v Ctrl X j i)) G1) /\
  obs i = (if W_active Ctrl then u i * X i GMT_WU else u i) /\
  obs (n + i)%nat = (if W_active Ctrl then v i * X i GMT_WV else v i).
Proof.
  intros Hi Hj. cbv zeta.
  pose proof (row_loop_spec Ctrl GMT X u v n par geo n (Nat.le_refl n)) as H.
  cbv zeta in H. fold (build_matrix Ctrl GMT X u v n par geo) in H.
  destruct H as (_ & Huv & Hset).
  specialize (Hset j i Hj Hi).
  destruct (greens_between GMT X par geo i j) as [[G0 G1] G2].
  split; [exact Hset |].
  destruct (append_v_spec (asm_u (build_matrix Ctrl GMT X u v n par geo))
              (asm_v (build_matrix Ctrl GMT X u v n par geo)) n n) as [Au Av].
  fold (append_v (asm_u (build_matrix Ctrl GMT X u v n par geo))
          (asm_v (build_matrix Ctrl GMT X u v n par geo)) n) in Au, Av.
  rewrite (Au i Hi), (Av i Hi).
  destruct (Huv i) as [Eu Ev]. rewrite Eu, Ev.
  assert (E : Nat.ltb i n = true) by (apply Nat.ltb_lt; exact Hi).
  rewrite E. simpl. auto.
Qed.

(** C2. In the system handed to the solver, for every source [i] and
    evaluation [j] among the [n] retained observations, rows [j], [j+n] and
    columns [i], [i+n] of the [2n] by [2n] matrix hold the block
    (G_xx, G_xy; G_xy, G_yy) of the Green's functions on the offset from
    [i] to [j], scaled by the product of the two observations' weights
    (the u weights on row [j], the v weights on row [j+n]; 1.0 without
    [-W]); the right-hand side holds the normalized u residuals, then the
    normalized v residuals, each times its weight under [-W]. *)
Theorem linear_system_assembly (Ctrl : GPSGRIDDER_CTRL) (GMT : GMT_CTRL) (st : reader)
    (i j : nat) :
  (i < rd_n st)%nat -> (j < rd_n st)%nat ->
  let n := rd_n st in
  let X := rd_X st in
  let '(u, v, _) := do_gps_normalization X (rd_u st) (rd_v st) n (normalize_mode Ctrl) in
  let sys := build_system Ctrl GMT st in
  let '(G_xx, G_yy, G_xy) :=
    greens_between GMT X (init_par Ctrl (rd_r_min st)) (is_geographic GMT) i j in
  (sys_A sys (j * (2 * n) + i)%nat = dmul (fin (pair_weight_u Ctrl X j i)) G_xx /\
   sys_A sys (j * (2 * n) + i + n)%nat = dmul (fin (pair_weight_u Ctrl X j i)) G_xy /\
   sys_A sys ((j + n) * (2 * n) + i)%nat = dmul (fin (pair_weight_v Ctrl X j i)) G_xy /\
   sys_A sys ((j + n) * (2 * n) + i + n)%nat = dmul (fin (pair_weight_v Ctrl X j i)) G_yy) /\
  sys_obs sys i = (if W_active Ctrl then u i * X i GMT_WU else u i) /\
  sys_obs sys (n + i)%nat = (if W_active Ctrl then v i * X i GMT_WV else v i) /\
  sys_n sys = n.
Proof.
  intros Hi Hj. cbv zeta. unfold build_system.
  destruct (do_gps_normalization (rd_X st) (rd_u st) (rd_v st) (rd_n st)
              (normalize_mode Ctrl)) as [[u v] norm].
  pose proof (build_matrix_spec Ctrl GMT (rd_X st) u v (rd_n st)
                (init_par Ctrl (rd_r_min st)) (is_geographic GMT) i j Hi Hj) as H.
  cbv zeta in H.
  destruct (greens_between GMT (rd_X st) (init_par Ctrl (rd_r_min st))
              (is_geographic GMT) i j) as [[G0 G1] G2].
  cbn [sys_A sys_obs sys_n].
  destruct H as (HA & Hu & Hv). repeat split; try apply HA; assumption.
Qed.

Lemma linear_system_assembly_witness :
  (0 < rd_n after_A_B)%nat /\ (1 < rd_n after_A_B)%nat /\
  let n := rd_n after_A_B in
  let X := rd_X after_A_B in
  let '(u, v, _) :=
    do_gps_normalization X (rd_u after_A_B) (rd_v after_A_B) n (normalize_mode New_Ctrl) in
  let sys := build_system New_Ctrl GMT_cartesian after_A_B in
  let '(G_xx, G_yy, G_xy) :=
    greens_between GMT_cartesian X (init_par New_Ctrl (rd_r_min after_A_B))
      (is_geographic GMT_cartesian) 0 1 in
  (sys_A sys (1 * (2 * n) + 0)%nat = dmul (fin (pair_weight_u New_Ctrl X 1 0)) G_xx /\
   sys_A sys (1 * (2 * n) + 0 + n)%nat = dmul (fin (pair_weight_u New_Ctrl X 1 0)) G_xy /\
   sys_A sys ((1 + n) * (2 * n) + 0)%nat = dmul (fin (pair_weight_v New_Ctrl X 1 0)) G_xy /\
   sys_A sys ((1 + n) * (2 * n) + 0 + n)%nat
     = dmul (fin (pair_weight_v New_Ctrl X 1 0)) G_yy) /\
  sys_obs sys 0%nat = (if W_active New_Ctrl then u 0%nat * X 0%nat GMT_WU else u 0%nat) /\
  sys_obs sys (n + 0)%nat
    = (if W_active New_Ctrl then v 0%nat * X 0%nat GMT_WV else v 0%nat) /\
  sys_n sys = n.
Proof.
  assert (H0 : (0 < rd_n after_A_B)%nat)
    by (rewrite (proj1 after_A_B_state); exact Nat.lt_0_2).
  assert (H1 : (1 < rd_n after_A_B)%nat)
    by (rewrite (proj1 after_A_B_state); exact Nat.lt_1_2).
  split; [exact H0 |]. split; [exact H1 |].
  exact (linear_system_assembly New_Ctrl GMT_cartesian after_A_B 0 1 H0 H1).
Defined.

(** ** Uniform weights *)

(** Under [-W] with one weight [w] on u and v of every observation, every
    block of the matrix is [w * w] times the Green's functions and the
    right-hand side is [w] times the residuals: the system is
    [(w^2 A) x = w b]. *)
Lemma uniform_weights_scale_system (Ctrl : GPSGRIDDER_CTRL) (GMT : GMT_CTRL)
    (X : nat -> array) (u v : array) (n : nat) (par : array) (geo : bool) (w : R)
    (i j : nat) :
  W_active Ctrl = true ->
  (forall k, (k < n)%nat -> X k GMT_WU = w /\ X k GMT_WV = w) ->
  (i < n)%nat -> (j < n)%nat ->
  let s := build_matrix Ctrl GMT X u v n par geo in
  let obs := append_v (asm_u s) (asm_v s) n in
  let '(G0, G1, G2) := greens_between GMT X par geo i j in
  (asm_A s (j * (2 * n) + i)%nat = dmul (fin (w * w)) G0 /\
   asm_A s (j * (2 * n) + i + n)%nat = dmul (fin (w * w)) G2 /\
   asm_A s ((j + n) * (2 * n) + i)%nat = dmul (fin (w * w)) G2 /\
   asm_A s ((j + n) * (2 * n) + i + n)%nat = dmul (fin (w * w)) G1) /\
  obs i = u i * w /\ obs (n + i)%nat = v i * w.
Proof.
  intros HW Hw Hi Hj.
  pose proof (build_matrix_spec Ctrl GMT X u v n par geo i j Hi Hj) as H.
  cbv zeta in H |- *.
  destruct (greens_between GMT X par geo i j) as [[G0 G1] G2].
  unfold pair_weight_u, pair_weight_v in H. rewrite HW in H.
  destruct (Hw i Hi) as [Eiu Eiv]. destruct (Hw j Hj) as [Eju Ejv].
  rewrite Eiu, Eiv, Eju, Ejv in H. exact H.
Qed.

(** The weights saved with a retained record. *)
Lemma read_data_weights (Ctrl : GPSGRIDDER_CTRL) (GMT : GMT_CTRL) (inp : array)
    (st : reader) :
  W_active Ctrl = true -> W_mode Ctrl = 0%nat ->
  rd_n (read_data Ctrl GMT inp st) = S (rd_n st) ->
  rd_X (read_data Ctrl GMT inp st) (rd_n st) GMT_WU = 1.0 / fit_longitude GMT inp 4%nat /\
  rd_X (read_data Ctrl GMT inp st) (rd_n st) GMT_WV = 1.0 / fit_longitude GMT inp 5%nat.
Proof.
  intros HW HM. unfold read_data. destruct (skip _); cbn [rd_n rd_X].
  - intros H. exfalso. lia.
  - intros _. unfold save_weights. rewrite HW, HM. cbn [Nat.eqb].
    rewrite upd_same. unfold upd, GMT_WU, GMT_WV. simpl. auto.
Qed.

Lemma cartesian_apart (X : nat -> array) (i : nat) (inp : array) :
  X i GMT_X = 0 -> X i GMT_Y = 0 -> inp GMT_X = 1 -> inp GMT_Y = 0 ->
  same_location GMT_cartesian X i inp = false.
Proof.
  intros Hx Hy Hx' Hy'. unfold same_location, gmt_M_is_zero.
  cbn [gmt_distance GMT_CONV8_LIMIT GMT_cartesian].
  rewrite Hx, Hy, Hx', Hy'.
  replace ((1 - 0) * (1 - 0) + (0 - 0) * (0 - 0)) with 1 by ring.
  rewrite sqrt_1, Rabs_R1. apply Rltb_false.
  assert (H : / 10 ^ 8 < 1).
  { rewrite <- Rinv_1. apply Rinv_lt_contravar; lra. }
  lra.
Qed.

(** The run on the two points: both are retained, with the weight
    [1.0 / sigma] on u and on v, and no duplicates are found. *)
Lemma after_two_points_state (sigma : R) :
  let st := after_two_points sigma in
  rd_n st = 2%nat /\ rd_n_duplicates st = 0%nat /\
  (rd_X st 0%nat GMT_X = 0 /\ rd_X st 0%nat GMT_Y = 0 /\
   rd_u st 0%nat = 1 /\ rd_v st 0%nat = 0 /\
   rd_X st 0%nat GMT_WU = 1.0 / sigma /\ rd_X st 0%nat GMT_WV = 1.0 / sigma) /\
  (rd_X st 1%nat GMT_X = 1 /\ rd_X st 1%nat GMT_Y = 0 /\
   rd_u st 1%nat = -1 /\ rd_v st 1%nat = 0 /\
   rd_X st 1%nat GMT_WU = 1.0 / sigma /\ rd_X st 1%nat GMT_WV = 1.0 / sigma).
Proof.
  cbv zeta. unfold after_two_points.
  set (r1 := obs_record 0 0 1 0 sigma sigma).
  set (r2 := obs_record 1 0 (-1) 0 sigma sigma).
  set (st1 := read_data Ctrl_weighted GMT_cartesian r1 init_reader).
  destruct (read_data_retain Ctrl_weighted GMT_cartesian r1 init_reader)
    as (Hn1 & _ & Hd1 & Hx1 & Hy1 & Hu1 & Hv1).
  { intros i Hi. simpl in Hi. lia. }
  fold st1 in Hn1, Hd1, Hx1, Hy1, Hu1, Hv1.
  cbn [rd_n rd_n_duplicates init_reader] in Hn1, Hd1, Hx1, Hy1, Hu1, Hv1.
  destruct (read_data_weights Ctrl_weighted GMT_cartesian r1 init_reader
              eq_refl eq_refl Hn1) as [Hwu1 Hwv1].
  fold st1 in Hwu1, Hwv1. cbn [rd_n init_reader] in Hwu1, Hwv1.
  rewrite fit_longitude_cartesian in Hx1, Hy1, Hu1, Hv1, Hwu1, Hwv1.
  assert (Hfar : same_location GMT_cartesian (rd_X st1) 0
                   (fit_longitude GMT_cartesian r2) = false).
  { rewrite fit_longitude_cartesian.
    apply cartesian_apart; [rewrite Hx1 | rewrite Hy1 | |]; reflexivity. }
  destruct (read_data_retain Ctrl_weighted GMT_cartesian r2 st1)
    as (Hn & _ & Hd & Hx & Hy & Hu & Hv).
  { intros i Hi HP. rewrite Hn1 in Hi. assert (i = 0%nat) by lia. subst i.
    rewrite Hfar in HP. discriminate HP. }
  destruct (read_data_weights Ctrl_weighted GMT_cartesian r2 st1 eq_refl eq_refl Hn)
    as [Hwu Hwv].
  destruct (read_data_keeps Ctrl_weighted GMT_cartesian r2 st1 0) as (Kx & Ku & Kv).
  { rewrite Hn1. lia. }
  rewrite Hn1 in Hn, Hd, Hx, Hy, Hu, Hv, Hwu, Hwv.
  rewrite fit_longitude_cartesian in Hx, Hy, Hu, Hv, Hwu, Hwv.
  rewrite count_upto_S, Hd1 in Hd. rewrite Hfar in Hd.
  rewrite Kx, Ku, Kv.
  split; [exact Hn |]. split; [exact Hd |].
  split; repeat split; assumption.
Qed.

(** The normalization of the two points without trend removal: the mean
    is zero, the range of u is 1 and that of v is 0, so the data stay as
    they are. *)
Lemma two_point_normalization (X : nat -> array) (u v : array) :
  u 0%nat = 1 -> u 1%nat = -1 -> v 0%nat = 0 -> v 1%nat = 0 ->
  let '(u', v', coeff) := do_gps_normalization X u v 2 GPS_NORM in
  u' 0%nat = 1 /\ u' 1%nat = -1 /\ v' 0%nat = 0 /\ v' 1%nat = 0.
Proof.
  intros Hu0 Hu1 Hv0 Hv1.
  pose proof DBL_MAX_gt_1 as Hbig.
  unfold do_gps_normalization.
  change (bit_set GPS_NORM GPS_NORM) with true. cbv iota.
  assert (Hc : norm_trend X u v 2 GPS_NORM GSP_MEAN_U = 0 /\
               norm_trend X u v 2 GPS_NORM GSP_MEAN_V = 0).
  { unfold norm_trend. change (bit_set GPS_NORM GPS_TREND) with false. cbv iota.
    unfold norm_means. rewrite !for_loop_S, for_loop_0.
    unfold mean_body. change (N.eqb (N.land GPS_NORM GPS_TREND) 0) with true. cbv iota.
    unfold upd, GSP_MEAN_U, GSP_MEAN_V. cbn [Nat.eqb INR].
    rewrite Hu0, Hu1, Hv0, Hv1. split; field. }
  destruct Hc as [Hmu Hmv].
  set (coeff := norm_trend X u v 2 GPS_NORM) in *.
  assert (Hs : let s := norm_remove X u v 2 GPS_NORM coeff in
               res_u s 0%nat = 1 /\ res_u s 1%nat = -1 /\
               res_v s 0%nat = 0 /\ res_v s 1%nat = 0 /\
               umin s = -1 /\ umax s = 1 /\ vmin s = 0 /\ vmax s = 0).
  { cbv zeta. unfold norm_remove. rewrite !for_loop_S, for_loop_0.
    unfold remove_body. change (bit_set GPS_NORM GPS_TREND) with false. cbv iota.
    cbn [res_u res_v umin umax vmin vmax].
    unfold upd. cbn [Nat.eqb]. rewrite Hmu, Hmv, Hu0, Hu1, Hv0, Hv1.
    replace (1 - 0) with 1 by ring. replace (-1 - 0) with (-1) by ring.
    replace (0 - 0) with 0 by ring.
    rewrite (Rltb_true 1 DBL_MAX), (Rgtb_true 1 (- DBL_MAX)),
      (Rltb_true 0 DBL_MAX), (Rgtb_true 0 (- DBL_MAX)) by lra.
    rewrite (Rltb_true (-1) 1), (Rgtb_false (-1) 1), (Rltb_false 0 0), (Rgtb_false 0 0)
      by lra.
    repeat split; reflexivity. }
  cbv zeta in Hs. set (s := norm_remove X u v 2 GPS_NORM coeff) in *.
  destruct Hs as (Ru0 & Ru1 & Rv0 & Rv1 & Emin & Emax & Fmin & Fmax).
  rewrite Emin, Emax, Fmin, Fmax.
  assert (Eru : MAX (Rabs (-1)) (Rabs 1) = 1).
  { rewrite Rabs_m1, Rabs_R1. unfold MAX. rewrite Rgtb_false by lra. reflexivity. }
  rewrite Eru, MAX_zero.
  unfold GSP_RANGE_U, GSP_RANGE_V.
  rewrite upd_same, (upd_other _ 9 8), upd_same by lia.
  unfold range_scale. rewrite (Reqb_false 1 0), (Reqb_true 0 0) by lra.
  destruct (scale_loop_spec (1 / 1) 1 (res_u s) (res_v s) 2 0) as [S0u S0v].
  destruct (scale_loop_spec (1 / 1) 1 (res_u s) (res_v s) 2 1) as [S1u S1v].
  cbn [Nat.ltb Nat.leb] in S0u, S0v, S1u, S1v.
  cbv zeta. rewrite S0u, S0v, S1u, S1v, Ru0, Ru1, Rv0, Rv1.
  repeat split; field.
Qed.

(** The Green's functions where the squared radius with the fudge is
    positive. *)
Lemma greens_function_finite (dx dy : R) (par : array) :
  0 < dx * dx + dy * dy + par 1%nat ->
  evaluate_greensfunctions dx dy par =
    (Some ((3.0 - par 0%nat) / 2.0 * ln (dx * dx + dy * dy + par 1%nat)
           + (1.0 + par 0%nat) * (dx * dx) * (1.0 / (dx * dx + dy * dy + par 1%nat))),
     Some ((3.0 - par 0%nat) / 2.0 * ln (dx * dx + dy * dy + par 1%nat)
           + (1.0 + par 0%nat) * (dy * dy) * (1.0 / (dx * dx + dy * dy + par 1%nat))),
     Some ((1.0 + par 0%nat) * dx * dy * (1.0 / (dx * dx + dy * dy + par 1%nat)))).
Proof.
  intros Hp. unfold evaluate_greensfunctions.
  rewrite c_log_pos by exact Hp. rewrite c_div_nonzero by lra. reflexivity.
Qed.

(** A row of finite entries times a vector. *)
Lemma row_dot_finite (A : nat -> double) (n2 row : nat) (x : array) (M : nat -> R) :
  (forall col, (col < n2)%nat -> A (row * n2 + col)%nat = Some (M (row * n2 + col)%nat)) ->
  row_dot A n2 row x
  = Some (for_loop n2 (fun col acc => acc + M (row * n2 + col)%nat * x col) 0).
Proof.
  intros HA. unfold row_dot.
  assert (H : forall m, (m <= n2)%nat ->
            for_loop m (fun col acc => dadd acc (dmul (A (row * n2 + col)%nat) (fin (x col))))
              (fin 0)
            = Some (for_loop m (fun col acc => acc + M (row * n2 + col)%nat * x col) 0)).
  { induction m as [| m IH]; intros Hm; [reflexivity |].
    rewrite !for_loop_S, IH by lia. rewrite HA by lia. reflexivity. }
  apply H. lia.
Qed.

(** The Green's functions between the two points, with the fudge 1. *)
Lemma two_point_greens (X : nat -> array) (par : array) :
  X 0%nat GMT_X = 0 -> X 0%nat GMT_Y = 0 -> X 1%nat GMT_X = 1 -> X 1%nat GMT_Y = 0 ->
  par 0%nat = two_point_par0 -> par 1%nat = 1 ->
  greens_between GMT_cartesian X par false 0 0 = (Some 0, Some 0, Some 0) /\
  greens_between GMT_cartesian X par false 1 1 = (Some 0, Some 0, Some 0) /\
  greens_between GMT_cartesian X par false 0 1
    = (Some two_point_B, Some two_point_L, Some 0) /\
  greens_between GMT_cartesian X par false 1 0
    = (Some two_point_B, Some two_point_L, Some 0).
Proof.
  intros Hx0 Hy0 Hx1 Hy1 Hp0 Hp1.
  unfold greens_between, get_gps_dxdy. rewrite Hx0, Hy0, Hx1, Hy1.
  rewrite !greens_function_finite by (rewrite Hp1; lra).
  rewrite Hp0, Hp1. unfold two_point_B, two_point_L.
  replace ((0 - 0) * (0 - 0) + (0 - 0) * (0 - 0) + 1) with 1 by ring.
  replace ((1 - 0) * (1 - 0) + (0 - 0) * (0 - 0) + 1) with 2 by ring.
  replace ((0 - 1) * (0 - 1) + (0 - 0) * (0 - 0) + 1) with 2 by ring.
  replace ((1 - 1) * (1 - 1) + (0 - 0) * (0 - 0) + 1) with 1 by ring.
  rewrite ln_1, !lit_1, !lit_2, !lit_3.
  split; [| split; [| split]];
    (f_equal; [f_equal |]); f_equal; field.
Qed.

Lemma two_point_par (sigma : R) :
  init_par Ctrl_weighted (rd_r_min (after_two_points sigma)) 0%nat = two_point_par0 /\
  init_par Ctrl_weighted (rd_r_min (after_two_points sigma)) 1%nat = 1.
Proof. split; reflexivity. Qed.

(** The system of the two points: the matrix is [two_point_M] times the
    square of the weight, the right-hand side [two_point_rhs] times the
    weight. *)
Lemma two_point_system (sigma : R) :
  let w := 1.0 / sigma in
  let sys := build_system Ctrl_weighted GMT_cartesian (after_two_points sigma) in
  sys_n sys = 2%nat /\
  (forall idx, (idx < 16)%nat -> sys_A sys idx = Some (w * w * two_point_M idx)) /\
  (forall row, (row < 4)%nat -> sys_obs sys row = w * two_point_rhs row).
Proof.
  cbv zeta.
  destruct (after_two_points_state sigma)
    as (Hn & _ & (Hx0 & Hy0 & Hu0 & Hv0 & Hwu0 & Hwv0)
        & (Hx1 & Hy1 & Hu1 & Hv1 & Hwu1 & Hwv1)).
  destruct (two_point_par sigma) as [Hp0 Hp1].
  set (st := after_two_points sigma) in *.
  pose proof (two_point_normalization (rd_X st) (rd_u st) (rd_v st) Hu0 Hu1 Hv0 Hv1)
    as Hnorm.
  unfold build_system. rewrite Hn.
  change (normalize_mode Ctrl_weighted) with GPS_NORM.
  change (is_geographic GMT_cartesian) with false.
  destruct (do_gps_normalization (rd_X st) (rd_u st) (rd_v st) 2 GPS_NORM)
    as [[u' v'] norm].
  destruct Hnorm as (Nu0 & Nu1 & Nv0 & Nv1).
  set (par := init_par Ctrl_weighted (rd_r_min st)) in *.
  destruct (two_point_greens (rd_X st) par Hx0 Hy0 Hx1 Hy1 Hp0 Hp1)
    as (G00 & G11 & G01 & G10).
  cbn [sys_n sys_A sys_obs].
  pose proof (build_matrix_spec Ctrl_weighted GMT_cartesian (rd_X st) u' v' 2 par false
                0 0 Nat.lt_0_2 Nat.lt_0_2) as B00.
  pose proof (build_matrix_spec Ctrl_weighted GMT_cartesian (rd_X st) u' v' 2 par false
                1 1 Nat.lt_1_2 Nat.lt_1_2) as B11.
  pose proof (build_matrix_spec Ctrl_weighted GMT_cartesian (rd_X st) u' v' 2 par false
                0 1 Nat.lt_0_2 Nat.lt_1_2) as B01.
  pose proof (build_matrix_spec Ctrl_weighted GMT_cartesian (rd_X st) u' v' 2 par false
                1 0 Nat.lt_1_2 Nat.lt_0_2) as B10.
  cbv zeta in B00, B11, B01, B10.
  rewrite G00 in B00. rewrite G11 in B11. rewrite G01 in B01. rewrite G10 in B10.
  unfold pair_weight_u, pair_weight_v in B00, B11, B01, B10.
  cbn [W_active Ctrl_weighted Nat.mul Nat.add] in B00, B11, B01, B10.
  rewrite ?Hwu0, ?Hwv0, ?Hwu1, ?Hwv1, ?Nu0, ?Nu1, ?Nv0, ?Nv1 in B00, B11, B01, B10.
  set (s := build_matrix Ctrl_weighted GMT_cartesian (rd_X st) u' v' 2 par false) in *.
  destruct B00 as ((A0 & A2 & A8 & A10) & O0 & O2).
  destruct B11 as ((A5 & A7 & A13 & A15) & O1 & O3).
  destruct B01 as ((A4 & A6 & A12 & A14) & _ & _).
  destruct B10 as ((A1 & A3 & A9 & A11) & _ & _).
  rewrite ?Hwu0, ?Hwv0, ?Hwu1, ?Hwv1 in *.
  rewrite Nu0 in O0. rewrite Nu1 in O1. rewrite Nv0 in O2. rewrite Nv1 in O3.
  split; [reflexivity |]. split.
  - intros idx Hidx.
    do 16 (destruct idx as [| idx];
           [match goal with
            | H : asm_A s ?k = _ |- asm_A s ?k = _ =>
                rewrite H; cbn [dmul dlift2 fin two_point_M]; f_equal; ring
            end |]).
    exfalso. lia.
  - intros row Hrow.
    do 4 (destruct row as [| row];
          [match goal with
           | H : append_v _ _ _ ?k = _ |- append_v _ _ _ ?k = _ =>
               rewrite H; cbn [two_point_rhs]; ring
           end |]).
    exfalso. lia.
Qed.

Lemma two_point_par0_value : two_point_par0 = 1.1.
Proof. unfold two_point_par0. lra. Qed.

Lemma two_point_L_pos : 0 < two_point_L.
Proof.
  unfold two_point_L. rewrite two_point_par0_value.
  pose proof ln_lt_2 as H. lra.
Qed.

Lemma two_point_B_pos : 0 < two_point_B.
Proof.
  unfold two_point_B. rewrite two_point_par0_value.
  pose proof two_point_L_pos as H. lra.
Qed.

(** The run on the two points reaches the solver. *)
Lemma two_point_run (sigma : R) :
  GMT_gpsgridder_system Ctrl_weighted GMT_cartesian (two_points sigma)
  = inr (build_system Ctrl_weighted GMT_cartesian (after_two_points sigma)).
Proof.
  unfold GMT_gpsgridder_system, two_points. cbn [read_records].
  fold (after_two_points sigma). unfold duplicate_gate.
  destruct (after_two_points_state sigma) as (_ & Hd & _).
  rewrite Hd. reflexivity.
Qed.

Lemma two_point_rows (sigma : R) (y : array) (row : nat) :
  (row < 4)%nat ->
  let w := 1.0 / sigma in
  let sys := build_system Ctrl_weighted GMT_cartesian (after_two_points sigma) in
  row_dot (sys_A sys) 4 row y
  = Some (w * w * (two_point_M (row * 4 + 0) * y 0%nat + two_point_M (row * 4 + 1) * y 1%nat
                   + two_point_M (row * 4 + 2) * y 2%nat
                   + two_point_M (row * 4 + 3) * y 3%nat)).
Proof.
  intros Hrow. cbv zeta.
  destruct (two_point_system sigma) as (_ & HA & _). cbv zeta in HA.
  rewrite (row_dot_finite _ 4 row y (fun idx => 1.0 / sigma * (1.0 / sigma) * two_point_M idx)).
  - rewrite !for_loop_S, for_loop_0. f_equal. ring.
  - intros col Hcol. apply HA. lia.
Qed.

(** C6 on the two points, read once with the data error 1 on every
    observation (weights 1) and once with the data error 0.5 (weights 2).
    Both runs reach the solver.  With the weights 1 the system is solved by
    [two_point_alpha]; with the weights 2 it is solved by half of it; and
    no coefficient vector solves both systems, so whatever the solver
    returns, the fitted coefficients of the two runs differ. *)
Theorem uniform_weights_change_the_fit :
  let sys1 := build_system Ctrl_weighted GMT_cartesian (after_two_points 1) in
  let sys2 := build_system Ctrl_weighted GMT_cartesian (after_two_points 0.5) in
  (GMT_gpsgridder_system Ctrl_weighted GMT_cartesian (two_points 1) = inr sys1 /\
   GMT_gpsgridder_system Ctrl_weighted GMT_cartesian (two_points 0.5) = inr sys2) /\
  (forall i, (i < 2)%nat ->
     rd_X (after_two_points 1) i GMT_WU = 1 /\ rd_X (after_two_points 1) i GMT_WV = 1 /\
     rd_X (after_two_points 0.5) i GMT_WU = 2 /\
     rd_X (after_two_points 0.5) i GMT_WV = 2) /\
  solves (sys_A sys1) 4 (sys_obs sys1) two_point_alpha /\
  solves (sys_A sys2) 4 (sys_obs sys2) (fun k => two_point_alpha k / 2) /\
  (forall y, solves (sys_A sys1) 4 (sys_obs sys1) y ->
             ~ solves (sys_A sys2) 4 (sys_obs sys2) y).
Proof.
  cbv zeta. pose proof two_point_B_pos as HB.
  split; [split; apply two_point_run |]. split; [| split; [| split]].
  - intros i Hi.
    destruct (after_two_points_state 1)
      as (_ & _ & (_ & _ & _ & _ & Wu0 & Wv0) & (_ & _ & _ & _ & Wu1 & Wv1)).
    destruct (after_two_points_state 0.5)
      as (_ & _ & (_ & _ & _ & _ & Xu0 & Xv0) & (_ & _ & _ & _ & Xu1 & Xv1)).
    destruct i as [| [| i]]; [| | lia].
    + rewrite Wu0, Wv0, Xu0, Xv0. repeat split; lra.
    + rewrite Wu1, Wv1, Xu1, Xv1. repeat split; lra.
  - intros row Hrow.
    destruct (two_point_system 1) as (_ & _ & Hb). cbv zeta in Hb.
    rewrite (two_point_rows 1 two_point_alpha row Hrow), (Hb row Hrow).
    unfold fin. f_equal.
    do 4 (destruct row as [| row];
          [cbn [Nat.mul Nat.add two_point_M two_point_alpha two_point_rhs];
           rewrite lit_1; field; lra |]).
    lia.
  - intros row Hrow.
    destruct (two_point_system 0.5) as (_ & _ & Hb). cbv zeta in Hb.
    rewrite (two_point_rows 0.5 _ row Hrow), (Hb row Hrow).
    unfold fin. f_equal.
    assert (Hhalf : 0.5 = / 2) by lra.
    do 4 (destruct row as [| row];
          [cbn [Nat.mul Nat.add two_point_M two_point_alpha two_point_rhs];
           rewrite lit_1, Hhalf; field; lra |]).
    lia.
  - intros y S1 S2.
    assert (H04 : (0 < 4)%nat) by lia.
    specialize (S1 0%nat H04). specialize (S2 0%nat H04).
    destruct (two_point_system 1) as (_ & _ & Hb1).
    destruct (two_point_system 0.5) as (_ & _ & Hb2).
    cbv zeta in Hb1, Hb2.
    rewrite (two_point_rows 1 y 0 H04), (Hb1 0%nat H04) in S1.
    rewrite (two_point_rows 0.5 y 0 H04), (Hb2 0%nat H04) in S2.
    cbn [Nat.mul Nat.add two_point_M two_point_rhs] in S1, S2.
    unfold fin in S1, S2. injection S1 as E1. injection S2 as E2.
    assert (W1 : 1.0 / 1 = 1) by lra.
    assert (W2 : 1.0 / 0.5 = 2) by lra.
    rewrite W1 in E1. rewrite W2 in E2.
    assert (F1 : two_point_B * y 1%nat = 1) by lra.
    assert (F2 : 4 * (two_point_B * y 1%nat) = 2) by lra.
    lra.
Qed.

(** ** Eigenvalue diagnostics *)

Lemma insert_ascending_perm (x : R) (l : list R) :
  Permutation (x :: l) (insert_ascending x l).
Proof.
  induction l as [| y t IH]; simpl.
  - apply Permutation_refl.
  - destruct (Rle_dec x y).
    + apply Permutation_refl.
    + apply perm_trans with (y :: x :: t).
      * apply perm_swap.
      * apply perm_skip. exact IH.
Qed.

Lemma insert_ascending_sorted (x : R) (l : list R) :
  StronglySorted Rle l -> StronglySorted Rle (insert_ascending x l).
Proof.
  induction l as [| y t IH]; intros Hs; simpl.
  - constructor; constructor.
  - inversion Hs as [| ? ? Ht Hall]; subst.
    destruct (Rle_dec x y) as [Hle | Hgt].
    + constructor; [exact Hs |].
      constructor; [exact Hle |].
      apply Forall_impl with (P := Rle y); [| exact Hall].
      intros z Hz. lra.
    + constructor; [apply IH; exact Ht |].
      apply (Permutation_Forall (insert_ascending_perm x t)).
      constructor; [lra | exact Hall].
Qed.

Lemma sort_ascending_spec (l : list R) :
  StronglySorted Rle (fold_right insert_ascending [] l) /\
  Permutation (fold_right insert_ascending [] l) l.
Proof.
  induction l as [| x t [IHs IHp]]; simpl.
  - split; constructor.
  - split.
    + apply insert_ascending_sorted. exact IHs.
    + apply perm_trans with (x :: fold_right insert_ascending [] t).
      * apply Permutation_sym, insert_ascending_perm.
      * apply perm_skip. exact IHp.
Qed.

Lemma sorted_nth (l : list R) :
  StronglySorted Rle l ->
  forall i j, (i <= j)%nat -> (j < length l)%nat -> nth i l 0 <= nth j l 0.
Proof.
  induction 1 as [| x t Ht IH Hall]; intros i j Hij Hj.
  - simpl in Hj. lia.
  - destruct j as [| j].
    + assert (i = 0%nat) by lia. subst i. simpl. lra.
    + destruct i as [| i].
      * simpl. rewrite Forall_forall in Hall. apply Hall.
        apply nth_In. simpl in Hj. lia.
      * simpl. apply IH; [lia | simpl in Hj; lia].
Qed.

Lemma map_seq_nth (l : list R) :
  map (fun k => nth k l 0) (seq 0 (length l)) = l.
Proof.
  apply nth_ext with (d := 0) (d' := 0).
  - rewrite length_map, length_seq. reflexivity.
  - intros i Hi. rewrite length_map, length_seq in Hi.
    rewrite (nth_indep _ 0 (nth 0 l 0))
      by (rewrite length_map, length_seq; exact Hi).
    pose proof (map_nth (fun k => nth k l 0) (seq 0 (length l)) 0%nat i) as E.
    cbv beta in E. rewrite E, seq_nth by exact Hi. reflexivity.
Qed.

(** The first [m] elements after the sort are in ascending order and are
    the first [m] elements before it, rearranged. *)
Lemma gmt_sort_array_spec (a : array) (m : nat) :
  (forall i j, (i <= j)%nat -> (j < m)%nat ->
     gmt_sort_array a m i <= gmt_sort_array a m j) /\
  Permutation (map (gmt_sort_array a m) (seq 0 m)) (map a (seq 0 m)).
Proof.
  destruct (sort_ascending_spec (map a (seq 0 m))) as [Hs Hp].
  set (sorted := fold_right insert_ascending [] (map a (seq 0 m))) in *.
  assert (Hlen : length sorted = m).
  { rewrite (Permutation_length Hp), length_map, length_seq. reflexivity. }
  split.
  - intros i j Hij Hj. unfold gmt_sort_array. fold sorted.
    assert (Ei : Nat.ltb i m = true) by (apply Nat.ltb_lt; lia).
    assert (Ej : Nat.ltb j m = true) by (apply Nat.ltb_lt; lia).
    rewrite Ei, Ej. apply sorted_nth; [exact Hs | exact Hij | lia].
  - assert (E : map (gmt_sort_array a m) (seq 0 m) = sorted).
    { apply eq_trans with (map (fun k => nth k sorted 0) (seq 0 m));
        [| rewrite <- Hlen; apply map_seq_nth].
      apply map_ext_in. intros k Hk. apply in_seq in Hk.
      unfold gmt_sort_array. fold sorted.
      assert (Ek : Nat.ltb k m = true) by (apply Nat.ltb_lt; lia).
      rewrite Ek. reflexivity. }
    rewrite E. exact Hp.
Qed.

(** The loop that fills the two columns, after [m] rows. *)
Lemma report_loop_spec (Ctrl : GPSGRIDDER_CTRL) (eig : array) (eig_max : R)
    (EX0 : nat -> R) (EY0 : nat -> double) (j0 m : nat) :
  let '(EX, EY, j) := for_loop m (report_body Ctrl eig eig_max) (EX0, EY0, j0) in
  j = (j0 - m)%nat /\
  forall i, (i < m)%nat ->
    EX i = INR i + 1.0 /\
    EY i = (if Nat.eqb (C_mode Ctrl) 1 then fin (eig (j0 - i)%nat)
            else c_div (eig (j0 - i)%nat) eig_max).
Proof.
  induction m as [| m IH].
  - rewrite for_loop_0. split; [lia | intros i Hi; lia].
  - rewrite for_loop_S.
    destruct (for_loop m (report_body Ctrl eig eig_max) (EX0, EY0, j0)) as [[EX EY] j].
    destruct IH as [Hj Hrows]. unfold report_body. split; [lia |].
    intros i Hi. destruct (Nat.eq_dec i m) as [-> | Hne].
    + rewrite !upd_same, Hj. auto.
    + rewrite !upd_other by exact Hne. apply Hrows. lia.
Qed.

(** C10. When the regularized solver writes the eigenvalue file in ratio
    mode (the mode of [-C] is not that of [-Cv]) for [n >= 1] observations,
    the [2n] singular values are put in ascending order, row [i] of the
    file holds [i + 1] and the value at index [2n - 1 - i] of the sorted
    array divided by the value at index [n - 1], the n-th smallest; and
    these ratios are the ratios to the largest singular value, the one at
    index [2n - 1], exactly when the values at the indices [n - 1] and
    [2n - 1] are equal. *)
Theorem eigen_ratio_denominator (Ctrl : GPSGRIDDER_CTRL) (file : String.string)
    (s : array) (n : nat) :
  C_active Ctrl = true -> C_file Ctrl = Some file ->
  (0 < n)%nat -> C_mode Ctrl <> 1%nat ->
  let n2 := (2 * n)%nat in
  let eig := gmt_sort_array s n2 in
  exists EX EY,
    eigen_report Ctrl s n = Some (EX, EY) /\
    (forall i j, (i <= j)%nat -> (j < n2)%nat -> eig i <= eig j) /\
    Permutation (map eig (seq 0 n2)) (map s (seq 0 n2)) /\
    (forall i, (i < n2)%nat ->
       EX i = INR i + 1 /\ EY i = c_div (eig (n2 - 1 - i)%nat) (eig (n - 1)%nat)) /\
    ((forall i, (i < n2)%nat -> EY i = c_div (eig (n2 - 1 - i)%nat) (eig (n2 - 1)%nat))
     <-> eig (n - 1)%nat = eig (n2 - 1)%nat).
Proof.
  intros Hact Hfile Hn Hmode. cbv zeta. unfold eigen_report. rewrite Hact, Hfile.
  pose proof (report_loop_spec Ctrl (gmt_sort_array s (2 * n))
                (gmt_sort_array s (2 * n) (n - 1)%nat)
                (fun _ => 0) (fun _ => fin 0) (2 * n - 1) (2 * n)) as Hloop.
  destruct (for_loop (2 * n)
              (report_body Ctrl (gmt_sort_array s (2 * n))
                 (gmt_sort_array s (2 * n) (n - 1)%nat))
              (fun _ => 0, fun _ => fin 0, (2 * n - 1)%nat)) as [[EX EY] j].
  destruct Hloop as [_ Hrows].
  apply Nat.eqb_neq in Hmode. rewrite Hmode in Hrows.
  destruct (gmt_sort_array_spec s (2 * n)) as [Hasc Hperm].
  set (eig := gmt_sort_array s (2 * n)) in *.
  exists EX, EY.
  split; [reflexivity |]. split; [exact Hasc |]. split; [exact Hperm |]. split.
  - intros i Hi. destruct (Hrows i Hi) as [Hx Hy]. rewrite Hx, Hy, lit_1. auto.
  - split.
    + intros Hall.
      assert (H0 : (0 < 2 * n)%nat) by lia.
      specialize (Hall 0%nat H0). destruct (Hrows 0%nat H0) as [_ Hy].
      rewrite Hy, Nat.sub_0_r in Hall.
      set (a := eig (n - 1)%nat) in *. set (b := eig (2 * n - 1)%nat) in *.
      unfold c_div in Hall.
      destruct (Req_dec_T a 0) as [Ha | Ha]; destruct (Req_dec_T b 0) as [Hb | Hb];
        try discriminate Hall.
      * congruence.
      * injection Hall as E.
        assert (Hbb : b / b = 1) by (field; exact Hb).
        rewrite Hbb in E.
        assert (Hba : b = a * (b / a)) by (field; exact Ha).
        rewrite E in Hba. lra.
    + intros E i Hi. destruct (Hrows i Hi) as [_ Hy]. rewrite Hy, E. reflexivity.
Qed.

Lemma eigen_ratio_denominator_witness :
  C_active Ctrl_eigen_only = true /\
  C_file Ctrl_eigen_only = Some "eig.txt"%string /\
  (0 < 1)%nat /\ C_mode Ctrl_eigen_only <> 1%nat /\
  let eig := gmt_sort_array (fun k => INR k) 2 in
  exists EX EY,
    eigen_report Ctrl_eigen_only (fun k => INR k) 1 = Some (EX, EY) /\
    (forall i j, (i <= j)%nat -> (j < 2)%nat -> eig i <= eig j) /\
    Permutation (map eig (seq 0 2)) (map (fun k => INR k) (seq 0 2)) /\
    (forall i, (i < 2)%nat ->
       EX i = INR i + 1 /\ EY i = c_div (eig (2 - 1 - i)%nat) (eig (1 - 1)%nat)) /\
    ((forall i, (i < 2)%nat -> EY i = c_div (eig (2 - 1 - i)%nat) (eig (2 - 1)%nat))
     <-> eig (1 - 1)%nat = eig (2 - 1)%nat).
Proof.
  split; [reflexivity |]. split; [reflexivity |].
  split; [exact Nat.lt_0_1 |]. split; [exact (Nat.neq_0_succ 0) |].
  exact (eigen_ratio_denominator Ctrl_eigen_only "eig.txt"%string (fun k => INR k) 1
           eq_refl eq_refl Nat.lt_0_1 (Nat.neq_0_succ 0)).
Defined.

(** * Further properties of the code *)

(** ** The Green's functions on the plane *)

(** X1. Exchanging the two axes exchanges G[0] and G[1] and leaves G[2];
    reflecting one axis leaves G[0] and G[1] and changes the sign of
    G[2]. *)
Theorem greens_function_axes (dx dy : R) (par : array) :
  let '(G0, G1, G2) := evaluate_greensfunctions dx dy par in
  evaluate_greensfunctions dy dx par = (G1, G0, G2) /\
  evaluate_greensfunctions (- dx) dy par = (G0, G1, dmul (fin (-1)) G2) /\
  evaluate_greensfunctions dx (- dy) par = (G0, G1, dmul (fin (-1)) G2).
Proof.
  unfold evaluate_greensfunctions.
  replace (dy * dy + dx * dx + par 1%nat) with (dx * dx + dy * dy + par 1%nat) by ring.
  replace (- dx * - dx) with (dx * dx) by ring.
  replace (- dy * - dy) with (dy * dy) by ring.
  replace ((1.0 + par 0%nat) * dy * dx) with ((1.0 + par 0%nat) * dx * dy) by ring.
  replace ((1.0 + par 0%nat) * - dx * dy) with (-1 * ((1.0 + par 0%nat) * dx * dy)) by ring.
  replace ((1.0 + par 0%nat) * dx * - dy) with (-1 * ((1.0 + par 0%nat) * dx * dy)) by ring.
  set (r2 := dx * dx + dy * dy + par 1%nat).
  destruct (c_div 1.0 r2) as [inv |]; destruct (c_log r2) as [l |]; simpl;
    repeat apply conj; try reflexivity; do 2 f_equal; ring.
Qed.

(** *** Offsets and parameters of ordinary size *)

Lemma DBL_OVERFLOW_eq : DBL_OVERFLOW = IZR (2 ^ 1024) - IZR (2 ^ 970).
Proof. unfold DBL_OVERFLOW. rewrite <- minus_IZR. reflexivity. Qed.

Lemma DBL_MAX_eq : DBL_MAX = IZR (2 ^ 1024) - IZR (2 ^ 971).
Proof. unfold DBL_MAX. rewrite <- minus_IZR. reflexivity. Qed.

Lemma Rabs_mult_le (a b A B : R) :
  Rabs a <= A -> Rabs b <= B -> Rabs (a * b) <= A * B.
Proof.
  intros Ha Hb. rewrite Rabs_mult.
  apply Rmult_le_compat; try apply Rabs_pos; assumption.
Qed.

Lemma Rabs_plus_le (a b A B : R) :
  Rabs a <= A -> Rabs b <= B -> Rabs (a + b) <= A + B.
Proof.
  intros Ha Hb. apply Rle_trans with (Rabs a + Rabs b); [apply Rabs_triang | lra].
Qed.

(** A result of magnitude at most [B] inside the range: finite, of
    magnitude at most [2 B + 1], and not below the exact result by more
    than the rounding error. *)
Lemma dbl_round_within (rnd : R -> R) (x B : R) :
  binary64_rounding rnd -> Rabs x <= B -> B < DBL_OVERFLOW ->
  exists y, dbl_round rnd x = Fin y /\ Rabs y <= 2 * B + 1 /\
            x - (Rabs x * / IZR (2 ^ 53) + / IZR (2 ^ 1075)) <= y.
Proof.
  intros Hr HB Hlt.
  assert (Hin : Rabs x < DBL_OVERFLOW) by lra.
  destruct (dbl_round_finite rnd x Hr Hin) as (y & Ey & By).
  exists y. split; [exact Ey |]. split; [lra |].
  destruct Hr as [_ He]. specialize (He x Hin).
  unfold dbl_round in Ey. rewrite Rltb_true in Ey by exact Hin.
  injection Ey as Ey. subst y.
  assert (Hm : Rmax (Rabs x * / IZR (2 ^ 53)) (/ IZR (2 ^ 1075))
               <= Rabs x * / IZR (2 ^ 53) + / IZR (2 ^ 1075)).
  { pose proof (Rabs_pos x). apply Rmax_lub; lra. }
  unfold Rabs in He at 1. destruct (Rcase_abs (rnd x - x)); lra.
Qed.

(** The rounding of a value that is not negative is not below
    [-2^-1075]. *)
Lemma dbl_round_nonneg (rnd : R -> R) (x B : R) :
  binary64_rounding rnd -> 0 <= x <= B -> B < DBL_OVERFLOW ->
  exists y, dbl_round rnd x = Fin y /\ - / IZR (2 ^ 1075) <= y <= 2 * B + 1.
Proof.
  intros Hr [H0 HB] Hlt.
  destruct (dbl_round_within rnd x B Hr) as (y & Ey & By & Ly);
    [rewrite Rabs_right by lra; exact HB | exact Hlt |].
  exists y. split; [exact Ey |].
  rewrite (Rabs_right x) in Ly by lra.
  unfold Rabs in By. destruct (Rcase_abs y); lra.
Qed.

(** X2. With offsets of magnitude at most [2^200], a shape parameter
    [par[0]] of magnitude at most [2^20] and a fudge [par[1]] between
    [2^-400] and [2^400], the three values [evaluate_greensfunctions]
    delivers are finite, whatever the rounding does inside the range: no
    intermediate result reaches the overflow threshold and the squared
    radius stays positive. *)
Theorem greens_function_finite_range (rnd : R -> R) (par : nat -> dbl)
    (dx dy p0 f : R) :
  binary64_rounding rnd ->
  par 0%nat = Fin p0 -> par 1%nat = Fin f ->
  Rabs dx <= IZR (2 ^ 200) -> Rabs dy <= IZR (2 ^ 200) ->
  Rabs p0 <= IZR (2 ^ 20) ->
  / IZR (2 ^ 400) <= f <= IZR (2 ^ 400) ->
  let '(G0, G1, G2) := evaluate_greensfunctions_dbl rnd (Fin dx) (Fin dy) par in
  dbl_finite G0 /\ dbl_finite G1 /\ dbl_finite G2.
Proof.
  intros Hr E0 E1 Hdx Hdy Hp0 [Hlo Hhi].
  unfold evaluate_greensfunctions_dbl. rewrite E0, E1, lit_1, lit_2, lit_3.
  (* the squares *)
  assert (Sx : 0 <= dx * dx <= IZR (2 ^ 400)).
  { split; [nra |]. pose proof (Rabs_mult_le dx dx _ _ Hdx Hdx) as H.
    rewrite Rabs_right in H by nra. lra. }
  assert (Sy : 0 <= dy * dy <= IZR (2 ^ 400)).
  { split; [nra |]. pose proof (Rabs_mult_le dy dy _ _ Hdy Hdy) as H.
    rewrite Rabs_right in H by nra. lra. }
  destruct (dbl_round_nonneg rnd (dx * dx) _ Hr Sx) as (x2 & Ex2 & Bx2); [rewrite DBL_OVERFLOW_eq; lra |].
  destruct (dbl_round_nonneg rnd (dy * dy) _ Hr Sy) as (y2 & Ey2 & By2); [rewrite DBL_OVERFLOW_eq; lra |].
  assert (Edx2 : dbl_mul rnd (Fin dx) (Fin dx) = Fin x2) by exact Ex2.
  assert (Edy2 : dbl_mul rnd (Fin dy) (Fin dy) = Fin y2) by exact Ey2.
  rewrite Edx2, Edy2.
  assert (Ax2 : Rabs x2 <= IZR (2 ^ 402)) by (apply Rabs_le; lra).
  assert (Ay2 : Rabs y2 <= IZR (2 ^ 402)) by (apply Rabs_le; lra).
  (* their sum and the squared radius *)
  destruct (dbl_round_within rnd (x2 + y2) (IZR (2 ^ 403)) Hr) as (s & Es & Bs & Ls);
    [pose proof (Rabs_plus_le _ _ _ _ Ax2 Ay2); lra | rewrite DBL_OVERFLOW_eq; lra |].
  assert (Ls' : - / IZR (2 ^ 1073) <= s).
  { unfold Rabs in Ls. destruct (Rcase_abs (x2 + y2)); lra. }
  assert (Esum : dbl_add rnd (Fin x2) (Fin y2) = Fin s) by exact Es.
  rewrite Esum.
  assert (Hsf : 0 < s + f) by lra.
  destruct (dbl_round_within rnd (s + f) (IZR (2 ^ 405)) Hr) as (g & Eg & Bg & Lg);
    [apply Rabs_le; unfold Rabs in Bs; destruct (Rcase_abs s); lra | rewrite DBL_OVERFLOW_eq; lra |].
  rewrite (Rabs_right (s + f)) in Lg by lra.
  assert (Hg : / IZR (2 ^ 401) <= g) by lra.
  assert (Hg' : g <= IZR (2 ^ 407)) by (unfold Rabs in Bg; destruct (Rcase_abs g); lra).
  assert (Edr : dbl_add rnd (Fin s) (Fin f) = Fin g) by exact Eg.
  rewrite Edr.
  (* c1 and c2 *)
  destruct (dbl_round_within rnd (3 + - p0) (IZR (2 ^ 21)) Hr) as (y1 & R1 & B1 & _);
    [replace (IZR (2 ^ 21)) with (3 + (IZR (2 ^ 21) - 3)) by ring;
     apply Rabs_plus_le; [rewrite Rabs_right; lra | rewrite Rabs_Ropp; lra] | rewrite DBL_OVERFLOW_eq; lra |].
  assert (Ec1a : dbl_sub rnd (Fin 3) (Fin p0) = Fin y1) by exact R1.
  destruct (dbl_round_within rnd (y1 / 2) (IZR (2 ^ 22)) Hr) as (c1 & R2 & B2 & _);
    [unfold Rdiv; replace (IZR (2 ^ 22)) with (IZR (2 ^ 23) * / 2) by lra;
     apply Rabs_mult_le; [lra | rewrite Rabs_right; lra] | rewrite DBL_OVERFLOW_eq; lra |].
  assert (Ec1 : dbl_div rnd (Fin y1) (Fin 2) = Fin c1).
  { unfold dbl_div. rewrite Reqb_false by lra. exact R2. }
  destruct (dbl_round_within rnd (1 + p0) (IZR (2 ^ 21)) Hr) as (c2 & R3 & B3 & _);
    [replace (IZR (2 ^ 21)) with (1 + (IZR (2 ^ 21) - 1)) by ring;
     apply Rabs_plus_le; [rewrite Rabs_R1; lra | lra] | rewrite DBL_OVERFLOW_eq; lra |].
  assert (Ec2 : dbl_add rnd (Fin 1) (Fin p0) = Fin c2) by exact R3.
  rewrite Ec1a, Ec1, Ec2.
  (* the logarithm *)
  assert (Hln : Rabs (ln g) <= 1025).
  { apply ln_double_range. rewrite DBL_MAX_eq. unfold DBL_MIN. lra. }
  destruct (dbl_round_within rnd (ln g) 1025 Hr Hln) as (lg & R4 & B4 & _); [rewrite DBL_OVERFLOW_eq; lra |].
  assert (Elog : dbl_log rnd (Fin g) = Fin lg).
  { unfold dbl_log. rewrite (Rltb_true 0 g) by lra. exact R4. }
  rewrite Elog.
  destruct (dbl_round_within rnd (c1 * lg) (IZR (2 ^ 35)) Hr) as (G01 & R5 & B5 & _);
    [pose proof (Rabs_mult_le _ _ _ _ B2 B4); lra | rewrite DBL_OVERFLOW_eq; lra |].
  assert (EG : dbl_mul rnd (Fin c1) (Fin lg) = Fin G01) by exact R5.
  rewrite EG.
  (* the inverse squared radius *)
  assert (Hq : Rabs (1 / g) <= IZR (2 ^ 401)).
  { assert (Hi : / g <= / / IZR (2 ^ 401)) by (apply Rinv_le_contravar; lra).
    assert (Hi' : 0 < / g) by (apply Rinv_0_lt_compat; lra).
    rewrite Rinv_inv in Hi. unfold Rdiv. rewrite Rmult_1_l, Rabs_right; lra. }
  destruct (dbl_round_within rnd (1 / g) _ Hr Hq) as (q & R6 & B6 & _); [rewrite DBL_OVERFLOW_eq; lra |].
  assert (Einv : dbl_div rnd (Fin 1) (Fin g) = Fin q).
  { unfold dbl_div. rewrite Reqb_false by lra. exact R6. }
  rewrite Einv.
  (* the three second terms *)
  destruct (dbl_round_within rnd (c2 * x2) (IZR (2 ^ 425)) Hr) as (ax & Rax & Bax & _);
    [pose proof (Rabs_mult_le _ _ _ _ B3 Ax2); lra | rewrite DBL_OVERFLOW_eq; lra |].
  destruct (dbl_round_within rnd (c2 * y2) (IZR (2 ^ 425)) Hr) as (ay & Ray & Bay & _);
    [pose proof (Rabs_mult_le _ _ _ _ B3 Ay2); lra | rewrite DBL_OVERFLOW_eq; lra |].
  destruct (dbl_round_within rnd (ax * q) (IZR (2 ^ 830)) Hr) as (bx & Rbx & Bbx & _);
    [pose proof (Rabs_mult_le _ _ _ _ Bax B6); lra | rewrite DBL_OVERFLOW_eq; lra |].
  destruct (dbl_round_within rnd (ay * q) (IZR (2 ^ 830)) Hr) as (by' & Rby & Bby & _);
    [pose proof (Rabs_mult_le _ _ _ _ Bay B6); lra | rewrite DBL_OVERFLOW_eq; lra |].
  destruct (dbl_round_within rnd (c2 * dx) (IZR (2 ^ 223)) Hr) as (cx & Rcx & Bcx & _);
    [pose proof (Rabs_mult_le _ _ _ _ B3 Hdx); lra | rewrite DBL_OVERFLOW_eq; lra |].
  destruct (dbl_round_within rnd (cx * dy) (IZR (2 ^ 425)) Hr) as (cxy & Rcxy & Bcxy & _);
    [pose proof (Rabs_mult_le _ _ _ _ Bcx Hdy); lra | rewrite DBL_OVERFLOW_eq; lra |].
  destruct (dbl_round_within rnd (cxy * q) (IZR (2 ^ 830)) Hr) as (G2 & RG2 & _ & _);
    [pose proof (Rabs_mult_le _ _ _ _ Bcxy B6); lra | rewrite DBL_OVERFLOW_eq; lra |].
  destruct (dbl_round_within rnd (G01 + bx) (IZR (2 ^ 832)) Hr) as (G0 & RG0 & _ & _);
    [pose proof (Rabs_plus_le _ _ _ _ B5 Bbx); lra | rewrite DBL_OVERFLOW_eq; lra |].
  destruct (dbl_round_within rnd (G01 + by') (IZR (2 ^ 832)) Hr) as (G1 & RG1 & _ & _);
    [pose proof (Rabs_plus_le _ _ _ _ B5 Bby); lra | rewrite DBL_OVERFLOW_eq; lra |].
  change (dbl_mul rnd (Fin c2) (Fin x2)) with (dbl_round rnd (c2 * x2)).
  change (dbl_mul rnd (Fin c2) (Fin y2)) with (dbl_round rnd (c2 * y2)).
  change (dbl_mul rnd (Fin c2) (Fin dx)) with (dbl_round rnd (c2 * dx)).
  rewrite Rax, Ray, Rcx.
  change (dbl_mul rnd (Fin ax) (Fin q)) with (dbl_round rnd (ax * q)).
  change (dbl_mul rnd (Fin ay) (Fin q)) with (dbl_round rnd (ay * q)).
  change (dbl_mul rnd (Fin cx) (Fin dy)) with (dbl_round rnd (cx * dy)).
  rewrite Rbx, Rby, Rcxy.
  change (dbl_add rnd (Fin G01) (Fin bx)) with (dbl_round rnd (G01 + bx)).
  change (dbl_add rnd (Fin G01) (Fin by')) with (dbl_round rnd (G01 + by')).
  change (dbl_mul rnd (Fin cxy) (Fin q)) with (dbl_round rnd (cxy * q)).
  rewrite RG0, RG1, RG2.
  cbn [dbl_finite]. auto.
Qed.

Lemma greens_function_finite_range_witness :
  let par := fun k : nat => match k with 0%nat => Fin 1.1 | _ => Fin 0.01 end in
  binary64_rounding exact_rounding /\
  par 0%nat = Fin 1.1 /\ par 1%nat = Fin 0.01 /\
  Rabs 3 <= IZR (2 ^ 200) /\ Rabs (-4) <= IZR (2 ^ 200) /\
  Rabs 1.1 <= IZR (2 ^ 20) /\
  / IZR (2 ^ 400) <= 0.01 <= IZR (2 ^ 400) /\
  let '(G0, G1, G2) := evaluate_greensfunctions_dbl exact_rounding (Fin 3) (Fin (-4)) par in
  dbl_finite G0 /\ dbl_finite G1 /\ dbl_finite G2.
Proof.
  cbv zeta.
  assert (H3 : Rabs 3 <= IZR (2 ^ 200)) by (rewrite Rabs_right; lra).
  assert (H4 : Rabs (-4) <= IZR (2 ^ 200)) by (apply Rabs_le; lra).
  assert (H1 : Rabs 1.1 <= IZR (2 ^ 20)) by (rewrite Rabs_right; lra).
  assert (H2 : / IZR (2 ^ 400) <= 0.01 <= IZR (2 ^ 400)) by lra.
  split; [exact exact_rounding_binary64 |].
  split; [reflexivity |]. split; [reflexivity |].
  split; [exact H3 |]. split; [exact H4 |]. split; [exact H1 |]. split; [exact H2 |].
  exact (greens_function_finite_range exact_rounding
           (fun k : nat => match k with 0%nat => Fin 1.1 | _ => Fin 0.01 end)
           3 (-4) 1.1 0.01 exact_rounding_binary64 eq_refl eq_refl H3 H4 H1 H2).
Defined.

(** ** Sums *)

Lemma Rsum_0 (f : nat -> R) : Rsum f 0 = 0.
Proof. reflexivity. Qed.

Lemma Rsum_S (f : nat -> R) (n : nat) : Rsum f (S n) = Rsum f n + f n.
Proof. unfold Rsum. rewrite for_loop_S. reflexivity. Qed.

Lemma Rsum_ext (f g : nat -> R) (n : nat) :
  (forall i, (i < n)%nat -> f i = g i) -> Rsum f n = Rsum g n.
Proof.
  intros H. induction n as [| n IH]; [reflexivity |].
  rewrite !Rsum_S, IH, (H n) by (intros; auto; lia). reflexivity.
Qed.

Lemma Rsum_plus (f g : nat -> R) (n : nat) :
  Rsum (fun i => f i + g i) n = Rsum f n + Rsum g n.
Proof.
  induction n as [| n IH]; [rewrite !Rsum_0; ring |].
  rewrite !Rsum_S, IH. ring.
Qed.

Lemma Rsum_app (f : nat -> R) (n m : nat) :
  Rsum f (n + m) = Rsum f n + Rsum (fun i => f (n + i)%nat) m.
Proof.
  induction m as [| m IH].
  - rewrite Nat.add_0_r, (Rsum_0 (fun i => f (n + i)%nat)). ring.
  - rewrite Nat.add_succ_r, !Rsum_S, IH. ring.
Qed.

(** The sum over [2n] indices, as the sum of its two halves. *)
Lemma Rsum_halves (f : nat -> R) (n : nat) :
  Rsum f (2 * n) = Rsum f n + Rsum (fun i => f (n + i)%nat) n.
Proof.
  replace (2 * n)%nat with (n + n)%nat by lia. apply Rsum_app.
Qed.

(** ** More on the normalization *)

Lemma MAX_ge (a b : R) : a <= MAX a b /\ b <= MAX a b.
Proof. unfold MAX, Rgtb. destruct (Rgt_dec a b); lra. Qed.

Lemma scaled_within_unit (lo hi x : R) :
  lo <= x <= hi -> -1 <= x * range_scale (MAX (Rabs lo) (Rabs hi)) <= 1.
Proof.
  intros Hx.
  destruct (MAX_ge (Rabs lo) (Rabs hi)) as [Hlo Hhi].
  pose proof (Rle_abs hi) as H1. pose proof (Rle_abs (- lo)) as H2.
  rewrite Rabs_Ropp in H2.
  set (r := MAX (Rabs lo) (Rabs hi)) in *.
  assert (Hr : - r <= x <= r) by lra.
  unfold range_scale, Reqb. destruct (Req_dec_T r 0) as [Hz | Hnz].
  - rewrite Hz in Hr. lra.
  - assert (Hpos : 0 < r) by lra.
    assert (Hinv : 0 < / r) by (apply Rinv_0_lt_compat; exact Hpos).
    assert (E : r * / r = 1) by (field; exact Hnz).
    unfold Rdiv. rewrite Rmult_1_l. split; nra.
Qed.

(** The normalized data of observation [i], in closed form. *)
Lemma do_gps_normalization_values (X : nat -> array) (u v : array) (n : nat)
    (mode : N) (i : nat) :
  (i < n)%nat ->
  let coeff := norm_trend X u v n mode in
  let s := norm_remove X u v n mode coeff in
  let '(u', v', coeff') := do_gps_normalization X u v n mode in
  (forall k, (k < 8)%nat -> coeff' k = coeff k) /\
  res_u s i = detrended_u X u mode coeff i /\
  res_v s i = detrended_v X v mode coeff i /\
  umin s <= res_u s i <= umax s /\ vmin s <= res_v s i <= vmax s /\
  (if bit_set mode GPS_NORM
   then coeff' GSP_RANGE_U = MAX (Rabs (umin s)) (Rabs (umax s)) /\
        coeff' GSP_RANGE_V = MAX (Rabs (vmin s)) (Rabs (vmax s)) /\
        u' i = res_u s i * range_scale (coeff' GSP_RANGE_U) /\
        v' i = res_v s i * range_scale (coeff' GSP_RANGE_V)
   else u' i = res_u s i /\ v' i = res_v s i).
Proof.
  intros Hi. cbv zeta. unfold do_gps_normalization.
  set (coeff := norm_trend X u v n mode).
  destruct (norm_remove_spec X u v mode coeff n) as [Hlt _].
  destruct (Hlt i Hi) as (Hu & Hv & Hbu & Hbv).
  set (s := norm_remove X u v n mode coeff) in *.
  destruct (bit_set mode GPS_NORM).
  - set (ru := MAX (Rabs (umin s)) (Rabs (umax s))).
    set (rv := MAX (Rabs (vmin s)) (Rabs (vmax s))).
    assert (Eu : upd (upd coeff GSP_RANGE_U ru) GSP_RANGE_V rv GSP_RANGE_U = ru)
      by (unfold GSP_RANGE_U, GSP_RANGE_V; rewrite upd_other by lia; apply upd_same).
    assert (Ev : upd (upd coeff GSP_RANGE_U ru) GSP_RANGE_V rv GSP_RANGE_V = rv)
      by apply upd_same.
    rewrite Eu, Ev.
    destruct (scale_loop_spec (range_scale ru) (range_scale rv) (res_u s) (res_v s) n i)
      as [Hsu Hsv].
    assert (Hin : Nat.ltb i n = true) by (apply Nat.ltb_lt; exact Hi).
    rewrite Hin in Hsu, Hsv.
    split.
    { intros k Hk. unfold GSP_RANGE_U, GSP_RANGE_V. rewrite !upd_other by lia.
      reflexivity. }
    repeat split; try tauto; assumption.
  - split; [reflexivity |]. repeat split; tauto.
Qed.

(** X3. Under [GPS_NORM] every normalized u and v lies between -1 and 1,
    and the stored ranges are not negative. *)
Theorem normalized_within_unit (X : nat -> array) (u v : array) (n : nat)
    (mode : N) (i : nat) :
  bit_set mode GPS_NORM = true -> (i < n)%nat ->
  let '(u', v', coeff) := do_gps_normalization X u v n mode in
  -1 <= u' i <= 1 /\ -1 <= v' i <= 1 /\
  0 <= coeff GSP_RANGE_U /\ 0 <= coeff GSP_RANGE_V.
Proof.
  intros Hnorm Hi.
  pose proof (do_gps_normalization_values X u v n mode i Hi) as H. cbv zeta in H.
  destruct (do_gps_normalization X u v n mode) as [[u' v'] coeff'].
  rewrite Hnorm in H.
  destruct H as (_ & _ & _ & Hbu & Hbv & Eru & Erv & Eu & Ev).
  rewrite Eu, Ev, Eru, Erv.
  split; [apply scaled_within_unit; exact Hbu |].
  split; [apply scaled_within_unit; exact Hbv |].
  split.
  - destruct (MAX_ge (Rabs (umin (norm_remove X u v n mode (norm_trend X u v n mode))))
                (Rabs (umax (norm_remove X u v n mode (norm_trend X u v n mode)))))
      as [H1 _].
    pose proof (Rabs_pos (umin (norm_remove X u v n mode (norm_trend X u v n mode)))).
    lra.
  - destruct (MAX_ge (Rabs (vmin (norm_remove X u v n mode (norm_trend X u v n mode))))
                (Rabs (vmax (norm_remove X u v n mode (norm_trend X u v n mode)))))
      as [H1 _].
    pose proof (Rabs_pos (vmin (norm_remove X u v n mode (norm_trend X u v n mode)))).
    lra.
Qed.

Lemma normalized_within_unit_witness :
  bit_set 3 GPS_NORM = true /\ (0 < 1)%nat /\
  let '(u', v', coeff) :=
    do_gps_normalization (fun _ _ => 1) (fun _ => 2) (fun _ => 3) 1 3%N in
  -1 <= u' 0%nat <= 1 /\ -1 <= v' 0%nat <= 1 /\
  0 <= coeff GSP_RANGE_U /\ 0 <= coeff GSP_RANGE_V.
Proof.
  split; [reflexivity |]. split; [exact Nat.lt_0_1 |].
  exact (normalized_within_unit (fun _ _ => 1) (fun _ => 2) (fun _ => 3) 1 3%N 0
           eq_refl Nat.lt_0_1).
Defined.

(** ** More on the reading loop *)

Lemma read_all_snoc (Ctrl : GPSGRIDDER_CTRL) (GMT : GMT_CTRL) (recs : list array)
    (inp : array) (st : reader) :
  read_all Ctrl GMT (recs ++ [inp]) st = read_data Ctrl GMT inp (read_all Ctrl GMT recs st).
Proof. unfold read_all. rewrite fold_left_app. reflexivity. Qed.

Lemma read_records_error (Ctrl : GPSGRIDDER_CTRL) (GMT : GMT_CTRL)
    (input : list record) :
  forall st, In Rec_error input -> read_records Ctrl GMT input st = inl GMT_RUNTIME_ERROR.
Proof.
  induction input as [| r rest IH]; intros st Hin; [destruct Hin |].
  destruct r as [inp | |]; simpl.
  - destruct Hin as [H | H]; [discriminate H | apply IH; exact H].
  - destruct Hin as [H | H]; [discriminate H | apply IH; exact H].
  - reflexivity.
Qed.

Lemma read_records_fold (Ctrl : GPSGRIDDER_CTRL) (GMT : GMT_CTRL)
    (input : list record) :
  forall st, ~ In Rec_error input ->
    read_records Ctrl GMT input st = inr (read_all Ctrl GMT (data_records input) st).
Proof.
  induction input as [| r rest IH]; intros st Hne; [reflexivity |].
  destruct r as [inp | |]; simpl.
  - apply IH. intros Hin. apply Hne. right. exact Hin.
  - apply IH. intros Hin. apply Hne. right. exact Hin.
  - exfalso. apply Hne. left. reflexivity.
Qed.

(** X6. The reading loop ends with an error exactly when the input holds
    a read error, wherever it is, and the error is [GMT_RUNTIME_ERROR];
    otherwise headers are passed over and the data records are taken one
    after the other. *)
Theorem read_records_outcome (Ctrl : GPSGRIDDER_CTRL) (GMT : GMT_CTRL)
    (input : list record) (st : reader) :
  (In Rec_error input <-> read_records Ctrl GMT input st = inl GMT_RUNTIME_ERROR) /\
  (In Rec_error input <-> exists e, read_records Ctrl GMT input st = inl e) /\
  (~ In Rec_error input ->
   read_records Ctrl GMT input st = inr (read_all Ctrl GMT (data_records input) st)).
Proof.
  assert (Hdec : In Rec_error input \/ ~ In Rec_error input).
  { induction input as [| r rest IH]; [right; intros [] |].
    destruct r; try (left; left; reflexivity);
      destruct IH as [H | H]; [left; right; exact H | right | left; right; exact H | right];
      intros [E | E]; try discriminate E; contradiction. }
  split; [| split].
  - split; [apply read_records_error |].
    intros H. destruct Hdec as [Hin | Hne]; [exact Hin |].
    rewrite (read_records_fold Ctrl GMT input st Hne) in H. discriminate H.
  - split.
    + intros Hin. exists GMT_RUNTIME_ERROR. apply read_records_error. exact Hin.
    + intros [e H]. destruct Hdec as [Hin | Hne]; [exact Hin |].
      rewrite (read_records_fold Ctrl GMT input st Hne) in H. discriminate H.
  - apply read_records_fold.
Qed.

Lemma read_data_counts (Ctrl : GPSGRIDDER_CTRL) (GMT : GMT_CTRL) (inp : array)
    (st : reader) :
  let st' := read_data Ctrl GMT inp st in
  rd_n_read st' = S (rd_n_read st) /\
  (rd_n st' + rd_n_skip st' = S (rd_n st + rd_n_skip st))%nat /\
  (rd_n st <= rd_n st')%nat /\ (rd_n_skip st <= rd_n_skip st')%nat /\
  (rd_n st = 0%nat -> rd_n st' = 1%nat).
Proof.
  cbv zeta.
  pose proof (read_data_scan GMT st (fit_longitude GMT inp)) as H.
  cbv zeta in H. destruct H as (_ & Hskip & Hrun).
  unfold read_data. destruct (skip _) eqn:Es; cbn [rd_n rd_n_skip rd_n_read].
  - destruct (Hskip eq_refl) as (Hn & i & Hi & _). rewrite Hn.
    repeat split; try lia.
  - destruct (Hrun eq_refl) as (Hn & _). rewrite Hn. repeat split; lia.
Qed.

Lemma read_all_counts (Ctrl : GPSGRIDDER_CTRL) (GMT : GMT_CTRL) (recs : list array) :
  forall st,
    let st' := read_all Ctrl GMT recs st in
    rd_n_read st' = (rd_n_read st + length recs)%nat /\
    (rd_n st' + rd_n_skip st' = rd_n st + rd_n_skip st + length recs)%nat /\
    (rd_n st <= rd_n st')%nat /\
    (recs <> [] -> 1 <= rd_n st')%nat.
Proof.
  induction recs as [| inp rest IH]; intros st; cbv zeta.
  - simpl. repeat split; try lia. intros H. congruence.
  - simpl. specialize (IH (read_data Ctrl GMT inp st)). cbv zeta in IH.
    destruct IH as (I1 & I2 & I3 & _).
    destruct (read_data_counts Ctrl GMT inp st) as (C1 & C2 & C3 & _ & C5).
    split; [lia |]. split; [lia |]. split; [lia |].
    intros _. destruct (Nat.eq_dec (rd_n st) 0) as [E | E]; [specialize (C5 E) |]; lia.
Qed.

(** X7. When the input is read without a read error, every data record
    is counted once, as retained or as skipped: the numbers of retained and
    of skipped observations add up to the number of records read, which is
    the number of data records of the input; and the first data record is
    always retained. *)
Theorem read_records_counts (Ctrl : GPSGRIDDER_CTRL) (GMT : GMT_CTRL)
    (input : list record) (st : reader) :
  read_records Ctrl GMT input init_reader = inr st ->
  rd_n_read st = length (data_records input) /\
  (rd_n st + rd_n_skip st = rd_n_read st)%nat /\
  (data_records input <> [] -> 1 <= rd_n st)%nat.
Proof.
  intros Hrun.
  assert (Hne : ~ In Rec_error input).
  { intros Hin. rewrite (read_records_error Ctrl GMT input init_reader Hin) in Hrun.
    discriminate Hrun. }
  rewrite (read_records_fold Ctrl GMT input init_reader Hne) in Hrun.
  injection Hrun as <-.
  pose proof (read_all_counts Ctrl GMT (data_records input) init_reader) as H.
  cbv zeta in H. cbn [rd_n rd_n_skip rd_n_read init_reader] in H.
  destruct H as (H1 & H2 & _ & H4). repeat split; try lia. exact H4.
Qed.

Lemma read_header_A_B :
  read_records New_Ctrl GMT_cartesian [Rec_header; Rec_data rec_A; Rec_data rec_B]
    init_reader = inr after_A_B.
Proof. reflexivity. Qed.

Lemma read_records_counts_witness :
  read_records New_Ctrl GMT_cartesian [Rec_header; Rec_data rec_A; Rec_data rec_B]
    init_reader = inr after_A_B /\
  rd_n_read after_A_B
  = length (data_records [Rec_header; Rec_data rec_A; Rec_data rec_B]) /\
  (rd_n after_A_B + rd_n_skip after_A_B = rd_n_read after_A_B)%nat /\
  (data_records [Rec_header; Rec_data rec_A; Rec_data rec_B] <> [] ->
   1 <= rd_n after_A_B)%nat.
Proof.
  split; [exact read_header_A_B |].
  exact (read_records_counts New_Ctrl GMT_cartesian
           [Rec_header; Rec_data rec_A; Rec_data rec_B] after_A_B read_header_A_B).
Defined.

(** ** The extreme separations *)

(** What the duplicate check does to [r_min] and [r_max]. *)
Lemma scan_loop_radius (GMT : GMT_CTRL) (X : nat -> array) (u v : array) (m : nat)
    (inp : array) (s0 : scan) (n : nat) :
  let r := fun i => get_gps_radius GMT (X i) (X m) in
  let P := fun i => gmt_M_is_zero GMT (r i) in
  let s := for_loop n (scan_body GMT X u v m inp) s0 in
  (sc_r_min s <= sc_r_min s0 /\ sc_r_max s0 <= sc_r_max s) /\
  (skip s = false ->
   forall i, (i < n)%nat -> P i = false -> sc_r_min s <= r i <= sc_r_max s) /\
  ((forall i, (i < n)%nat -> P i = true) ->
   sc_r_min s = sc_r_min s0 /\ sc_r_max s = sc_r_max s0) /\
  (forall lo, lo <= sc_r_min s0 ->
     (forall i, (i < n)%nat -> P i = false -> lo <= r i) -> lo <= sc_r_min s).
Proof.
  induction n as [| n IH]; cbv zeta.
  - rewrite for_loop_0. split; [lra |]. split; [intros _ i Hi; lia |].
    split; [auto |]. intros lo Hlo _. exact Hlo.
  - rewrite for_loop_S. cbv zeta in IH.
    set (s1 := for_loop n (scan_body GMT X u v m inp) s0) in *.
    destruct IH as ((Imin & Imax) & Irun & Isame & Ilo).
    unfold scan_body. destruct (skip s1) eqn:Es.
    + split; [split; assumption |]. split.
      * intros H. rewrite Es in H. discriminate H.
      * split.
        -- intros Hall. apply Isame. intros i Hi. apply Hall. lia.
        -- intros lo Hlo Hall. apply Ilo; [exact Hlo |].
           intros i Hi. apply Hall. lia.
    + destruct (gmt_M_is_zero GMT (get_gps_radius GMT (X n) (X m))) eqn:EP.
      * assert (Hkeep : forall b1 k1 k2,
                  sc_r_min (mkScan b1 k1 k2 (sc_r_min s1) (sc_r_max s1)) = sc_r_min s1 /\
                  sc_r_max (mkScan b1 k1 k2 (sc_r_min s1) (sc_r_max s1)) = sc_r_max s1)
          by (intros; split; reflexivity).
        destruct (doubleAlmostEqualZero GMT (inp GMT_U) (u n)
                  && doubleAlmostEqualZero GMT (inp GMT_V) (v n));
          cbn [sc_r_min sc_r_max skip];
          (split; [split; assumption |]); (split; [| split]).
        -- intros H. discriminate H.
        -- intros Hall. apply Isame. intros i Hi. apply Hall. lia.
        -- intros lo Hlo Hall. apply Ilo; [exact Hlo |]. intros i Hi. apply Hall. lia.
        -- intros _ i Hi HPi. destruct (Nat.eq_dec i n) as [-> | Hne].
           ++ rewrite EP in HPi. discriminate HPi.
           ++ apply (Irun eq_refl); [lia | exact HPi].
        -- intros Hall. apply Isame. intros i Hi. apply Hall. lia.
        -- intros lo Hlo Hall. apply Ilo; [exact Hlo |]. intros i Hi. apply Hall. lia.
      * cbn [sc_r_min sc_r_max skip]. unfold Rltb, Rgtb.
        set (rn := get_gps_radius GMT (X n) (X m)) in *.
        split; [| split; [| split]].
        -- destruct (Rlt_dec rn (sc_r_min s1)); destruct (Rgt_dec rn (sc_r_max s1)); lra.
        -- intros _ i Hi HPi. destruct (Nat.eq_dec i n) as [-> | Hne].
           ++ fold rn.
              destruct (Rlt_dec rn (sc_r_min s1)); destruct (Rgt_dec rn (sc_r_max s1)); lra.
           ++ assert (Hlt : (i < n)%nat) by lia.
              pose proof (Irun eq_refl i Hlt HPi) as Hb.
              destruct (Rlt_dec rn (sc_r_min s1)); destruct (Rgt_dec rn (sc_r_max s1)); lra.
        -- intros Hall. specialize (Hall n (Nat.lt_succ_diag_r n)).
           fold rn in Hall. rewrite EP in Hall. discriminate Hall.
        -- intros lo Hlo Hall.
           assert (H1 : lo <= sc_r_min s1)
             by (apply Ilo; [exact Hlo | intros i Hi; apply Hall; lia]).
           assert (H2 : lo <= rn) by (apply (Hall n); [lia | exact EP]).
           destruct (Rlt_dec rn (sc_r_min s1)); lra.
Qed.

Lemma scan_radius_value (GMT : GMT_CTRL) (X : nat -> array) (n : nat) (inp : array)
    (i : nat) :
  i <> n ->
  get_gps_radius GMT (save_xy X n inp i) (save_xy X n inp n)
  = get_gps_radius GMT (X i) inp.
Proof.
  intros Hne. unfold get_gps_radius, save_xy.
  rewrite upd_same, (upd_other _ _ _ _ Hne).
  unfold GMT_X, GMT_Y, upd. simpl. reflexivity.
Qed.

(** What one record does to [r_min] and [r_max]. *)
Lemma read_data_radius (Ctrl : GPSGRIDDER_CTRL) (GMT : GMT_CTRL) (inp : array)
    (st : reader) :
  let rec := fit_longitude GMT inp in
  let st' := read_data Ctrl GMT inp st in
  (rd_r_min st' <= rd_r_min st /\ rd_r_max st <= rd_r_max st') /\
  (rd_n st' = S (rd_n st) ->
   forall i, (i < rd_n st)%nat -> same_location GMT (rd_X st) i rec = false ->
     rd_r_min st' <= get_gps_radius GMT (rd_X st i) rec <= rd_r_max st') /\
  ((forall i, (i < rd_n st)%nat -> same_location GMT (rd_X st) i rec = true) ->
   rd_r_min st' = rd_r_min st /\ rd_r_max st' = rd_r_max st) /\
  (forall lo, lo <= rd_r_min st ->
     (forall i, (i < rd_n st)%nat -> same_location GMT (rd_X st) i rec = false ->
        lo <= get_gps_radius GMT (rd_X st i) rec) ->
     lo <= rd_r_min st').
Proof.
  cbv zeta.
  pose proof (scan_loop_radius GMT (save_xy (rd_X st) (rd_n st) (fit_longitude GMT inp))
                (rd_u st) (rd_v st) (rd_n st) (fit_longitude GMT inp)
                (mkScan false (rd_n_skip st) (rd_n_duplicates st)
                   (rd_r_min st) (rd_r_max st)) (rd_n st)) as H.
  cbv zeta in H. cbn [sc_r_min sc_r_max] in H.
  destruct H as ((Hmin & Hmax) & Hrun & Hsame & Hlow).
  assert (HR : forall i, (i < rd_n st)%nat ->
            get_gps_radius GMT
              (save_xy (rd_X st) (rd_n st) (fit_longitude GMT inp) i)
              (save_xy (rd_X st) (rd_n st) (fit_longitude GMT inp) (rd_n st))
            = get_gps_radius GMT (rd_X st i) (fit_longitude GMT inp)).
  { intros i Hi. apply scan_radius_value. lia. }
  assert (E : forall s : scan,
            rd_r_min (if skip s
                      then mkReader (save_xy (rd_X st) (rd_n st) (fit_longitude GMT inp))
                             (rd_u st) (rd_v st) (rd_n st) (S (rd_n_read st))
                             (sc_n_skip s) (sc_n_duplicates s) (sc_r_min s) (sc_r_max s)
                      else mkReader
                             (save_weights Ctrl
                                (save_xy (rd_X st) (rd_n st) (fit_longitude GMT inp))
                                (rd_n st) (fit_longitude GMT inp))
                             (upd (rd_u st) (rd_n st) (fit_longitude GMT inp GMT_U))
                             (upd (rd_v st) (rd_n st) (fit_longitude GMT inp GMT_V))
                             (S (rd_n st)) (S (rd_n_read st))
                             (sc_n_skip s) (sc_n_duplicates s) (sc_r_min s) (sc_r_max s))
            = sc_r_min s /\
            rd_r_max (if skip s
                      then mkReader (save_xy (rd_X st) (rd_n st) (fit_longitude GMT inp))
                             (rd_u st) (rd_v st) (rd_n st) (S (rd_n_read st))
                             (sc_n_skip s) (sc_n_duplicates s) (sc_r_min s) (sc_r_max s)
                      else mkReader
                             (save_weights Ctrl
                                (save_xy (rd_X st) (rd_n st) (fit_longitude GMT inp))
                                (rd_n st) (fit_longitude GMT inp))
                             (upd (rd_u st) (rd_n st) (fit_longitude GMT inp GMT_U))
                             (upd (rd_v st) (rd_n st) (fit_longitude GMT inp GMT_V))
                             (S (rd_n st)) (S (rd_n_read st))
                             (sc_n_skip s) (sc_n_duplicates s) (sc_r_min s) (sc_r_max s))
            = sc_r_max s).
  { intros s. destruct (skip s); split; reflexivity. }
  unfold read_data.
  set (s := for_loop (rd_n st)
              (scan_body GMT (save_xy (rd_X st) (rd_n st) (fit_longitude GMT inp))
                 (rd_u st) (rd_v st) (rd_n st) (fit_longitude GMT inp))
              (mkScan false (rd_n_skip st) (rd_n_duplicates st)
                 (rd_r_min st) (rd_r_max st))) in *.
  destruct (E s) as [Emin Emax]. rewrite Emin, Emax.
  split; [split; assumption |]. split; [| split].
  - intros Hn i Hi HP.
    assert (Hs : skip s = false).
    { destruct (skip s); [cbn [rd_n] in Hn; lia | reflexivity]. }
    rewrite <- (HR i Hi). apply (Hrun Hs i Hi). rewrite (HR i Hi). exact HP.
  - intros Hall. apply Hsame. intros i Hi. rewrite (HR i Hi). apply Hall. exact Hi.
  - intros lo Hlo Hall. apply Hlow; [exact Hlo |].
    intros i Hi HP. rewrite (HR i Hi). apply Hall; [exact Hi |].
    rewrite (HR i Hi) in HP. exact HP.
Qed.

Lemma read_all_invariant (Ctrl : GPSGRIDDER_CTRL) (GMT : GMT_CTRL) (I : reader -> Prop) :
  (forall inp st, I st -> I (read_data Ctrl GMT inp st)) ->
  forall recs st, I st -> I (read_all Ctrl GMT recs st).
Proof.
  intros Hstep recs. induction recs as [| inp rest IH]; intros st Hst; [exact Hst |].
  simpl. apply IH. apply Hstep. exact Hst.
Qed.

Lemma read_data_skipped (Ctrl : GPSGRIDDER_CTRL) (GMT : GMT_CTRL) (inp : array)
    (st : reader) :
  rd_n (read_data Ctrl GMT inp st) = rd_n st ->
  exists i, (i < rd_n st)%nat /\
    same_location GMT (rd_X st) i (fit_longitude GMT inp) = true /\
    same_uv GMT (rd_u st) (rd_v st) i (fit_longitude GMT inp) = true.
Proof.
  pose proof (read_data_scan GMT st (fit_longitude GMT inp)) as H.
  cbv zeta in H. destruct H as (_ & Hskip & _).
  unfold read_data. destruct (skip _) eqn:Es; cbn [rd_n]; intros Hn.
  - destruct (Hskip eq_refl) as (_ & i & Hi). exists i. exact Hi.
  - exfalso. lia.
Qed.

Lemma no_read_error (Ctrl : GPSGRIDDER_CTRL) (GMT : GMT_CTRL) (input : list record)
    (st0 st : reader) :
  read_records Ctrl GMT input st0 = inr st ->
  st = read_all Ctrl GMT (data_records input) st0.
Proof.
  intros Hrun.
  assert (Hne : ~ In Rec_error input).
  { intros Hin. rewrite (read_records_error Ctrl GMT input st0 Hin) in Hrun.
    discriminate Hrun. }
  rewrite (read_records_fold Ctrl GMT input st0 Hne) in Hrun.
  injection Hrun as <-. reflexivity.
Qed.

(** X8. When the input is read without a read error, [r_min] and [r_max]
    enclose the separation of every two retained observations that are not
    at one location. *)
Theorem separation_bounds (Ctrl : GPSGRIDDER_CTRL) (GMT : GMT_CTRL)
    (input : list record) (st : reader) (i j : nat) :
  read_records Ctrl GMT input init_reader = inr st ->
  (i < j < rd_n st)%nat ->
  same_location GMT (rd_X st) i (rd_X st j) = false ->
  rd_r_min st <= get_gps_radius GMT (rd_X st i) (rd_X st j) <= rd_r_max st.
Proof.
  intros Hrun. apply no_read_error in Hrun. subst st. revert i j.
  apply (read_all_invariant Ctrl GMT
           (fun st => forall i j, (i < j < rd_n st)%nat ->
              same_location GMT (rd_X st) i (rd_X st j) = false ->
              rd_r_min st <= get_gps_radius GMT (rd_X st i) (rd_X st j) <= rd_r_max st)).
  - intros inp st Hinv i j Hij HP.
    destruct (read_data_radius Ctrl GMT inp st) as ((Hmin & Hmax) & Hnew & _).
    pose proof (read_data_cases Ctrl GMT inp st) as Hc. cbv zeta in Hc.
    destruct Hc as (_ & Hc).
    assert (Hold : (j < rd_n st)%nat ->
              rd_r_min (read_data Ctrl GMT inp st)
              <= get_gps_radius GMT (rd_X (read_data Ctrl GMT inp st) i)
                   (rd_X (read_data Ctrl GMT inp st) j)
              <= rd_r_max (read_data Ctrl GMT inp st)).
    { intros Hj.
      destruct (read_data_keeps Ctrl GMT inp st i) as (Kxi & _); [lia |].
      destruct (read_data_keeps Ctrl GMT inp st j Hj) as (Kxj & _).
      unfold same_location in HP. rewrite Kxi, Kxj in HP. rewrite Kxi, Kxj.
      assert (rd_r_min st <= get_gps_radius GMT (rd_X st i) (rd_X st j) <= rd_r_max st)
        by (apply Hinv; [lia | exact HP]).
      lra. }
    destruct Hc as [Hn | (Hn & _ & _ & Hx & Hy & _)].
    + apply Hold. lia.
    + destruct (Nat.eq_dec j (rd_n st)) as [-> | Hne]; [| apply Hold; lia].
      destruct (read_data_keeps Ctrl GMT inp st i) as (Kxi & _); [lia |].
      unfold same_location in HP. unfold get_gps_radius.
      rewrite Kxi in *. rewrite Hx, Hy in *.
      apply (Hnew Hn i); [lia | exact HP].
  - intros i j Hij. cbn [rd_n init_reader] in Hij. lia.
Qed.

Lemma separation_bounds_witness :
  read_records Ctrl_weighted GMT_cartesian (two_points 1) init_reader
    = inr (after_two_points 1) /\
  (0 < 1 < rd_n (after_two_points 1))%nat /\
  same_location GMT_cartesian (rd_X (after_two_points 1)) 0
    (rd_X (after_two_points 1) 1) = false /\
  rd_r_min (after_two_points 1)
  <= get_gps_radius GMT_cartesian (rd_X (after_two_points 1) 0)
       (rd_X (after_two_points 1) 1)
  <= rd_r_max (after_two_points 1).
Proof.
  assert (Hrun : read_records Ctrl_weighted GMT_cartesian (two_points 1) init_reader
                 = inr (after_two_points 1)) by reflexivity.
  assert (Hn : (0 < 1 < rd_n (after_two_points 1))%nat).
  { rewrite (proj1 (after_two_points_state 1)). split; [exact Nat.lt_0_1 | exact Nat.lt_1_2]. }
  assert (HP : same_location GMT_cartesian (rd_X (after_two_points 1)) 0
                 (rd_X (after_two_points 1) 1) = false).
  { destruct (after_two_points_state 1)
      as (_ & _ & (Hx0 & Hy0 & _) & (Hx1 & Hy1 & _)).
    apply cartesian_apart; assumption. }
  split; [exact Hrun |]. split; [exact Hn |]. split; [exact HP |].
  exact (separation_bounds Ctrl_weighted GMT_cartesian (two_points 1)
           (after_two_points 1) 0 1 Hrun Hn HP).
Defined.

(** X9. With fewer than two retained observations no separation has been
    seen: [r_min] and [r_max] are still [DBL_MAX] and [-DBL_MAX], and the
    fudge of [-Ff] (and of the default) is the factor times [DBL_MAX]. *)
Theorem few_observations_fudge (Ctrl : GPSGRIDDER_CTRL) (GMT : GMT_CTRL)
    (input : list record) (st : reader) :
  read_records Ctrl GMT input init_reader = inr st ->
  (rd_n st <= 1)%nat ->
  rd_r_min st = DBL_MAX /\ rd_r_max st = - DBL_MAX /\
  (F_mode Ctrl <> 1%nat -> init_par Ctrl (rd_r_min st) 1%nat = F_fudge Ctrl * DBL_MAX).
Proof.
  intros Hrun Hn. apply no_read_error in Hrun. subst st.
  assert (H : rd_r_min (read_all Ctrl GMT (data_records input) init_reader) = DBL_MAX /\
              rd_r_max (read_all Ctrl GMT (data_records input) init_reader) = - DBL_MAX).
  { revert Hn.
    apply (read_all_invariant Ctrl GMT
             (fun st => (rd_n st <= 1)%nat ->
                rd_r_min st = DBL_MAX /\ rd_r_max st = - DBL_MAX)).
    - intros inp st Hinv Hn'.
      destruct (read_data_counts Ctrl GMT inp st) as (_ & _ & Hmono & _ & H0).
      destruct (read_data_radius Ctrl GMT inp st) as (_ & _ & Hsame & _).
      assert (Hst : (rd_n st <= 1)%nat) by lia.
      destruct (Hinv Hst) as [Imin Imax].
      rewrite <- Imax, <- Imin. apply Hsame.
      intros i Hi. destruct (Nat.eq_dec (rd_n st) 0) as [E | E]; [lia |].
      assert (Hsk : rd_n (read_data Ctrl GMT inp st) = rd_n st) by lia.
      destruct (read_data_skipped Ctrl GMT inp st Hsk) as (k & Hk & HP & _).
      assert (i = k) by lia. subst k. exact HP.
    - intros _. split; reflexivity. }
  destruct H as [Hmin Hmax]. split; [exact Hmin |]. split; [exact Hmax |].
  intros Hmode. unfold init_par. apply Nat.eqb_neq in Hmode. rewrite Hmode, Hmin.
  apply upd_same.
Qed.

Lemma few_observations_fudge_witness :
  read_records New_Ctrl GMT_cartesian [Rec_data rec_A] init_reader
    = inr (read_data New_Ctrl GMT_cartesian rec_A init_reader) /\
  (rd_n (read_data New_Ctrl GMT_cartesian rec_A init_reader) <= 1)%nat /\
  rd_r_min (read_data New_Ctrl GMT_cartesian rec_A init_reader) = DBL_MAX /\
  rd_r_max (read_data New_Ctrl GMT_cartesian rec_A init_reader) = - DBL_MAX /\
  (F_mode New_Ctrl <> 1%nat ->
   init_par New_Ctrl (rd_r_min (read_data New_Ctrl GMT_cartesian rec_A init_reader)) 1%nat
   = F_fudge New_Ctrl * DBL_MAX).
Proof.
  assert (Hrun : read_records New_Ctrl GMT_cartesian [Rec_data rec_A] init_reader
                 = inr (read_data New_Ctrl GMT_cartesian rec_A init_reader))
    by reflexivity.
  assert (Hn : (rd_n (read_data New_Ctrl GMT_cartesian rec_A init_reader) <= 1)%nat).
  { destruct (read_data_counts New_Ctrl GMT_cartesian rec_A init_reader)
      as (_ & _ & _ & _ & H0).
    rewrite (H0 eq_refl). exact (Nat.le_refl 1). }
  split; [exact Hrun |]. split; [exact Hn |].
  exact (few_observations_fudge New_Ctrl GMT_cartesian [Rec_data rec_A] _ Hrun Hn).
Defined.

(** The duplicate check leaves in [r_min] the value it had or a distance
    that failed the test for zero. *)
Lemma scan_loop_not_zero (GMT : GMT_CTRL) (X : nat -> array) (u v : array) (m : nat)
    (inp : array) (s0 : scan) (n : nat) :
  gmt_M_is_zero GMT (sc_r_min s0) = false ->
  gmt_M_is_zero GMT (sc_r_min (for_loop n (scan_body GMT X u v m inp) s0)) = false.
Proof.
  intros H0. induction n as [| n IH]; [exact H0 |].
  rewrite for_loop_S.
  set (s1 := for_loop n (scan_body GMT X u v m inp) s0) in *.
  unfold scan_body. destruct (skip s1); [exact IH |].
  destruct (gmt_M_is_zero GMT (get_gps_radius GMT (X n) (X m))) eqn:EP.
  - destruct (doubleAlmostEqualZero GMT (inp GMT_U) (u n)
              && doubleAlmostEqualZero GMT (inp GMT_V) (v n));
      cbn [sc_r_min]; exact IH.
  - cbn [sc_r_min].
    destruct (Rltb (get_gps_radius GMT (X n) (X m)) (sc_r_min s1)); [exact EP | exact IH].
Qed.

Lemma read_data_not_zero (Ctrl : GPSGRIDDER_CTRL) (GMT : GMT_CTRL) (inp : array)
    (st : reader) :
  gmt_M_is_zero GMT (rd_r_min st) = false ->
  gmt_M_is_zero GMT (rd_r_min (read_data Ctrl GMT inp st)) = false.
Proof.
  intros H0.
  pose proof (scan_loop_not_zero GMT
                (save_xy (rd_X st) (rd_n st) (fit_longitude GMT inp))
                (rd_u st) (rd_v st) (rd_n st) (fit_longitude GMT inp)
                (mkScan false (rd_n_skip st) (rd_n_duplicates st)
                   (rd_r_min st) (rd_r_max st)) (rd_n st) H0) as H.
  unfold read_data.
  destruct (skip _); cbn [rd_r_min]; exact H.
Qed.

(** X10. Whatever is read, the closest separation [r_min] is never zero
    by the test of the duplicate check: it is [DBL_MAX] or a distance that
    failed that test.  The test [gmt_M_is_zero (r_min)] that guards the
    warning of the Gauss-Jordan branch is therefore never true. *)
Theorem closest_separation_not_zero (Ctrl : GPSGRIDDER_CTRL) (GMT : GMT_CTRL)
    (input : list record) (st : reader) :
  GMT_CONV8_LIMIT GMT <= DBL_MAX ->
  read_records Ctrl GMT input init_reader = inr st ->
  gmt_M_is_zero GMT (rd_r_min st) = false.
Proof.
  intros Hlim Hrun. apply no_read_error in Hrun. subst st.
  apply (read_all_invariant Ctrl GMT
           (fun st => gmt_M_is_zero GMT (rd_r_min st) = false)).
  - intros inp st Hinv. apply read_data_not_zero. exact Hinv.
  - cbn [rd_r_min init_reader]. unfold gmt_M_is_zero.
    pose proof DBL_MAX_pos as Hpos.
    rewrite Rabs_right by lra. apply Rltb_false. lra.
Qed.

Lemma closest_separation_not_zero_witness :
  GMT_CONV8_LIMIT GMT_cartesian <= DBL_MAX /\
  read_records Ctrl_weighted GMT_cartesian (two_points 1) init_reader
    = inr (after_two_points 1) /\
  gmt_M_is_zero GMT_cartesian (rd_r_min (after_two_points 1)) = false.
Proof.
  assert (Hlim : GMT_CONV8_LIMIT GMT_cartesian <= DBL_MAX).
  { cbn [GMT_CONV8_LIMIT GMT_cartesian]. pose proof DBL_MAX_gt_1 as H1.
    assert (H : / 10 ^ 8 < 1) by (rewrite <- Rinv_1; apply Rinv_lt_contravar; lra).
    lra. }
  assert (Hrun : read_records Ctrl_weighted GMT_cartesian (two_points 1) init_reader
                 = inr (after_two_points 1)) by reflexivity.
  split; [exact Hlim |]. split; [exact Hrun |].
  exact (closest_separation_not_zero Ctrl_weighted GMT_cartesian (two_points 1)
           (after_two_points 1) Hlim Hrun).
Defined.

(** ** The field at the observations *)

(** The inverse normalization on any point that holds the location of
    observation [i] and its normalized u, v. *)
Lemma undo_normalized_observation (X : nat -> array) (u v : array) (n : nat)
    (mode : N) (i : nat) (P : array) :
  (i < n)%nat ->
  let '(u', v', coeff) := do_gps_normalization X u v n mode in
  P GMT_X = X i GMT_X -> P GMT_Y = X i GMT_Y -> P GMT_U = u' i -> P GMT_V = v' i ->
  undo_gps_normalization P mode coeff GMT_U = u i /\
  undo_gps_normalization P mode coeff GMT_V = v i.
Proof.
  intros Hi.
  pose proof (do_gps_normalization_values X u v n mode i Hi) as H. cbv zeta in H.
  destruct (do_gps_normalization X u v n mode) as [[u' v'] coeff'].
  destruct H as (Hc & Hu & Hv & Hbu & Hbv & Hn).
  intros Px Py Pu Pv.
  set (coeff := norm_trend X u v n mode) in *.
  set (s := norm_remove X u v n mode coeff) in *.
  assert (H0 : coeff' 0%nat = coeff 0%nat) by (apply Hc; lia).
  assert (H1 : coeff' 1%nat = coeff 1%nat) by (apply Hc; lia).
  assert (H2 : coeff' 2%nat = coeff 2%nat) by (apply Hc; lia).
  assert (H3 : coeff' 3%nat = coeff 3%nat) by (apply Hc; lia).
  assert (H4 : coeff' 4%nat = coeff 4%nat) by (apply Hc; lia).
  assert (H5 : coeff' 5%nat = coeff 5%nat) by (apply Hc; lia).
  assert (H6 : coeff' 6%nat = coeff 6%nat) by (apply Hc; lia).
  assert (H7 : coeff' 7%nat = coeff 7%nat) by (apply Hc; lia).
  unfold detrended_u, plane_at in Hu. unfold detrended_v, plane_at in Hv.
  unfold undo_gps_normalization.
  unfold GMT_X, GMT_Y, GMT_U, GMT_V, GSP_MEAN_X, GSP_MEAN_Y, GSP_MEAN_U, GSP_MEAN_V,
    GSP_SLP_UX, GSP_SLP_UY, GSP_SLP_VX, GSP_SLP_VY, GSP_RANGE_U, GSP_RANGE_V in *.
  destruct (bit_set mode GPS_NORM).
  - destruct Hn as (Eru & Erv & Eu & Ev).
    pose proof (range_scale_undone _ _ _ Hbu) as Hru. rewrite <- Eru in Hru.
    pose proof (range_scale_undone _ _ _ Hbv) as Hrv. rewrite <- Erv in Hrv.
    rewrite <- Eu in Hru. rewrite <- Ev in Hrv.
    destruct (bit_set mode GPS_TREND); unfold upd; simpl;
      rewrite ?Px, ?Py, Pu, Pv, Hru, Hrv, Hu, Hv, ?H0, ?H1, H2, H3, ?H4, ?H5, ?H6, ?H7;
      split; ring.
  - destruct Hn as [Eu Ev].
    destruct (bit_set mode GPS_TREND); unfold upd; simpl;
      rewrite ?Px, ?Py, Pu, Pv, Eu, Ev, Hu, Hv, ?H0, ?H1, H2, H3, ?H4, ?H5, ?H6, ?H7;
      split; ring.
Qed.

(** The Green's functions do not change when the offset changes sign. *)
Lemma greens_opposite (dx dy dx' dy' : R) (par : array) :
  dx' = - dx -> dy' = - dy ->
  evaluate_greensfunctions dx' dy' par = evaluate_greensfunctions dx dy par.
Proof.
  intros -> ->. unfold evaluate_greensfunctions.
  replace (- dx * - dx) with (dx * dx) by ring.
  replace (- dy * - dy) with (dy * dy) by ring.
  replace ((1.0 + par 0%nat) * - dx * - dy) with ((1.0 + par 0%nat) * dx * dy) by ring.
  reflexivity.
Qed.

Lemma greens_between_swap (GMT : GMT_CTRL) (X : nat -> array) (par : array)
    (geo : bool) (i j : nat) :
  antisymmetric_offsets GMT geo ->
  greens_between GMT X par geo i j = greens_between GMT X par geo j i.
Proof.
  intros Hanti. unfold greens_between, get_gps_dxdy. destruct geo.
  - destruct Hanti as [Hgeo | Hlon]; [discriminate Hgeo |].
    apply greens_opposite.
    + rewrite (Hlon (X i GMT_X) (X j GMT_X)).
      replace (X j GMT_Y + X i GMT_Y) with (X i GMT_Y + X j GMT_Y) by ring. ring.
    + ring.
  - apply greens_opposite; ring.
Qed.

Lemma greens_between_finite (GMT : GMT_CTRL) (X : nat -> array) (par : array)
    (geo : bool) (i j : nat) :
  0 < par 1%nat ->
  greens_between GMT X par geo i j
  = (let '(g0, g1, g2) := greens_real_between GMT X par geo i j in
     (Some g0, Some g1, Some g2)).
Proof.
  intros Hpar. unfold greens_between, greens_real_between.
  destruct (get_gps_dxdy GMT (X i) (X j) geo) as [dx dy].
  rewrite greens_function_finite by nra. reflexivity.
Qed.

Lemma greens_real_between_swap (GMT : GMT_CTRL) (X : nat -> array) (par : array)
    (geo : bool) (i j : nat) :
  antisymmetric_offsets GMT geo -> 0 < par 1%nat ->
  greens_real_between GMT X par geo i j = greens_real_between GMT X par geo j i.
Proof.
  intros Hanti Hpar.
  pose proof (greens_between_swap GMT X par geo i j Hanti) as H.
  rewrite !greens_between_finite in H by exact Hpar.
  destruct (greens_real_between GMT X par geo i j) as [[a0 a1] a2].
  destruct (greens_real_between GMT X par geo j i) as [[b0 b1] b2].
  injection H as -> -> ->. reflexivity.
Qed.

(** The entries of the matrix and of the right-hand side without [-W],
    where the fudge is positive. *)
Lemma unweighted_entries (Ctrl : GPSGRIDDER_CTRL) (GMT : GMT_CTRL) (X : nat -> array)
    (u v : array) (n : nat) (par : array) (geo : bool) (i j : nat) :
  W_active Ctrl = false -> 0 < par 1%nat -> (i < n)%nat -> (j < n)%nat ->
  let s := build_matrix Ctrl GMT X u v n par geo in
  let g := greens_real_between GMT X par geo i j in
  asm_A s (j * (2 * n) + i)%nat = Some (fst (fst g)) /\
  asm_A s (j * (2 * n) + (n + i))%nat = Some (snd g) /\
  asm_A s ((j + n) * (2 * n) + i)%nat = Some (snd g) /\
  asm_A s ((j + n) * (2 * n) + (n + i))%nat = Some (snd (fst g)) /\
  append_v (asm_u s) (asm_v s) n i = u i /\
  append_v (asm_u s) (asm_v s) n (n + i)%nat = v i.
Proof.
  intros HW Hpar Hi Hj. cbv zeta.
  pose proof (build_matrix_spec Ctrl GMT X u v n par geo i j Hi Hj) as H.
  cbv zeta in H. rewrite greens_between_finite in H by exact Hpar.
  unfold pair_weight_u, pair_weight_v in H. rewrite HW in H.
  destruct (greens_real_between GMT X par geo i j) as [[g0 g1] g2].
  destruct H as ((E1 & E2 & E3 & E4) & Eu & Ev).
  replace (j * (2 * n) + (n + i))%nat with (j * (2 * n) + i + n)%nat by lia.
  replace ((j + n) * (2 * n) + (n + i))%nat with ((j + n) * (2 * n) + i + n)%nat by lia.
  rewrite E1, E2, E3, E4, Eu, Ev. cbn [fst snd dmul dlift2 fin].
  rewrite lit_1, !Rmult_1_l. repeat (split; [reflexivity |]). reflexivity.
Qed.

(** A row of the system without [-W] times a vector, as the sum over the
    observations. *)
Lemma unweighted_rows (Ctrl : GPSGRIDDER_CTRL) (GMT : GMT_CTRL) (X : nat -> array)
    (u v : array) (n : nat) (par : array) (geo : bool) (alpha : array) (j : nat) :
  W_active Ctrl = false -> 0 < par 1%nat -> (j < n)%nat ->
  let s := build_matrix Ctrl GMT X u v n par geo in
  let g := fun i => greens_real_between GMT X par geo i j in
  row_dot (asm_A s) (2 * n) j alpha
  = Some (Rsum (fun i => alpha i * fst (fst (g i)) + alpha (n + i)%nat * snd (g i)) n) /\
  row_dot (asm_A s) (2 * n) (j + n) alpha
  = Some (Rsum (fun i => alpha (n + i)%nat * snd (fst (g i)) + alpha i * snd (g i)) n).
Proof.
  intros HW Hpar Hj. cbv zeta.
  set (s := build_matrix Ctrl GMT X u v n par geo).
  set (M := fun idx => match asm_A s idx with Some x => x | None => 0 end).
  assert (HM : forall row, (row = j \/ row = j + n)%nat ->
            forall col, (col < 2 * n)%nat ->
            asm_A s (row * (2 * n) + col)%nat = Some (M (row * (2 * n) + col)%nat)).
  { intros row Hrow col Hcol. unfold M.
    destruct (Nat.lt_ge_cases col n) as [Hlt | Hge].
    - destruct (unweighted_entries Ctrl GMT X u v n par geo col j HW Hpar Hlt Hj)
        as (E1 & _ & E3 & _).
      fold s in E1, E3. destruct Hrow as [-> | ->]; [rewrite E1 | rewrite E3]; reflexivity.
    - assert (Hc : (col - n < n)%nat) by lia.
      destruct (unweighted_entries Ctrl GMT X u v n par geo (col - n) j HW Hpar Hc Hj)
        as (_ & E2 & _ & E4 & _).
      fold s in E2, E4. replace (n + (col - n))%nat with col in E2, E4 by lia.
      destruct Hrow as [-> | ->]; [rewrite E2 | rewrite E4]; reflexivity. }
  assert (Hrow : forall row, (row = j \/ row = j + n)%nat ->
            row_dot (asm_A s) (2 * n) row alpha
            = Some (Rsum (fun i => M (row * (2 * n) + i)%nat * alpha i) n
                    + Rsum (fun i => M (row * (2 * n) + (n + i))%nat * alpha (n + i)%nat) n)).
  { intros row Hrow. rewrite (row_dot_finite _ _ _ _ M (HM row Hrow)).
    change (for_loop (2 * n)
              (fun col acc => acc + M (row * (2 * n) + col)%nat * alpha col) 0)
      with (Rsum (fun col => M (row * (2 * n) + col)%nat * alpha col) (2 * n)).
    rewrite Rsum_halves. reflexivity. }
  split.
  - rewrite (Hrow j) by (left; reflexivity). f_equal.
    rewrite <- Rsum_plus. apply Rsum_ext. intros i Hi.
    destruct (unweighted_entries Ctrl GMT X u v n par geo i j HW Hpar Hi Hj)
      as (E1 & E2 & _).
    fold s in E1, E2. unfold M. rewrite E1, E2. ring.
  - rewrite (Hrow (j + n)%nat) by (right; reflexivity). f_equal.
    rewrite <- Rsum_plus. apply Rsum_ext. intros i Hi.
    destruct (unweighted_entries Ctrl GMT X u v n par geo i j HW Hpar Hi Hj)
      as (_ & _ & E3 & E4 & _).
    fold s in E3, E4. unfold M. rewrite E3, E4. ring.
Qed.

(** The two sums at a location where every Green's function is finite. *)
Lemma predict_sums_finite (GMT : GMT_CTRL) (X : nat -> array) (obs : array) (n : nat)
    (par : array) (geo : bool) (out : array) (g : nat -> R * R * R) :
  (forall p, (p < n)%nat ->
     (let '(dx, dy) := get_gps_dxdy GMT out (X p) geo in
      evaluate_greensfunctions dx dy par)
     = (Some (fst (fst (g p))), Some (snd (fst (g p))), Some (snd (g p)))) ->
  predict_sums GMT X obs n par geo out
  = (Some (Rsum (fun p => obs p * fst (fst (g p)) + obs (n + p)%nat * snd (g p)) n),
     Some (Rsum (fun p => obs (n + p)%nat * snd (fst (g p)) + obs p * snd (g p)) n)).
Proof.
  intros Hg. unfold predict_sums.
  assert (H : forall m, (m <= n)%nat ->
            for_loop m (predict_body GMT X obs n par geo out) (fin 0, fin 0)
            = (Some (Rsum (fun p => obs p * fst (fst (g p)) + obs (n + p)%nat * snd (g p)) m),
               Some (Rsum (fun p => obs (n + p)%nat * snd (fst (g p)) + obs p * snd (g p)) m))).
  { induction m as [| m IH]; intros Hm; [reflexivity |].
    rewrite for_loop_S, IH by lia. unfold predict_body.
    specialize (Hg m Hm).
    destruct (get_gps_dxdy GMT out (X m) geo) as [dx dy]. rewrite Hg.
    rewrite !Rsum_S. reflexivity. }
  apply H. lia.
Qed.

(** X11. Without [-W], with a positive fudge and offsets that change sign
    when the two points are exchanged, a coefficient vector that solves the
    assembled system makes the evaluated field, at the location of every
    retained observation, equal to the observed u and v. *)
Theorem field_honours_observations (Ctrl : GPSGRIDDER_CTRL) (GMT : GMT_CTRL)
    (st : reader) (alpha : array) (j : nat) :
  W_active Ctrl = false ->
  antisymmetric_offsets GMT (is_geographic GMT) ->
  let sys := build_system Ctrl GMT st in
  0 < sys_par sys 1%nat ->
  solves (sys_A sys) (2 * sys_n sys) (sys_obs sys) alpha ->
  (j < sys_n sys)%nat ->
  predict_point GMT (sys_X sys) alpha (sys_n sys) (sys_par sys) (is_geographic GMT)
    (normalize_mode Ctrl) (sys_norm sys) (sys_X sys j)
  = (Some (rd_u st j), Some (rd_v st j)).
Proof.
  intros HW Hanti. cbv zeta. unfold build_system.
  pose proof (fun P Hj => undo_normalized_observation (rd_X st) (rd_u st) (rd_v st)
                (rd_n st) (normalize_mode Ctrl) j P Hj) as Hundo.
  destruct (do_gps_normalization (rd_X st) (rd_u st) (rd_v st) (rd_n st)
              (normalize_mode Ctrl)) as [[u' v'] norm].
  cbn [sys_n sys_A sys_obs sys_X sys_par sys_norm].
  set (n := rd_n st) in *. set (par := init_par Ctrl (rd_r_min st)).
  set (geo := is_geographic GMT) in *. set (X := rd_X st) in *.
  intros Hpar Hsol Hj.
  destruct (unweighted_rows Ctrl GMT X u' v' n par geo alpha j HW Hpar Hj) as [Ru Rv].
  cbv zeta in Ru, Rv.
  destruct (unweighted_entries Ctrl GMT X u' v' n par geo j j HW Hpar Hj Hj)
    as (_ & _ & _ & _ & Eu & Ev).
  assert (Hn2 : (j < 2 * n)%nat) by lia.
  assert (Hn3 : (j + n < 2 * n)%nat) by lia.
  pose proof (Hsol j Hn2) as Su. pose proof (Hsol (j + n)%nat Hn3) as Sv.
  rewrite Ru in Su. rewrite Rv in Sv.
  replace (j + n)%nat with (n + j)%nat in Sv by lia.
  rewrite Eu in Su. rewrite Ev in Sv.
  injection Su as Su. injection Sv as Sv.
  unfold predict_point.
  rewrite (predict_sums_finite GMT X alpha n par geo (X j)
             (fun p => greens_real_between GMT X par geo j p)).
  - unfold undo_predicted.
    rewrite (Rsum_ext _ (fun i => alpha i * fst (fst (greens_real_between GMT X par geo i j))
                                  + alpha (n + i)%nat
                                    * snd (greens_real_between GMT X par geo i j)) n)
      by (intros i _; rewrite (greens_real_between_swap GMT X par geo j i Hanti Hpar);
          reflexivity).
    rewrite (Rsum_ext (fun p => alpha (n + p)%nat
                                * snd (fst (greens_real_between GMT X par geo j p)) + _)
               (fun i => alpha (n + i)%nat
                         * snd (fst (greens_real_between GMT X par geo i j))
                         + alpha i * snd (greens_real_between GMT X par geo i j)) n)
      by (intros i _; rewrite (greens_real_between_swap GMT X par geo j i Hanti Hpar);
          reflexivity).
    rewrite Su, Sv.
    destruct (Hundo (upd (upd (X j) GMT_U (u' j)) GMT_V (v' j)) Hj) as [Pu Pv].
    + unfold GMT_X, GMT_U, GMT_V. rewrite !upd_other by lia. reflexivity.
    + unfold GMT_Y, GMT_U, GMT_V. rewrite !upd_other by lia. reflexivity.
    + unfold GMT_U, GMT_V. rewrite upd_other by lia. apply upd_same.
    + apply upd_same.
    + cbv zeta. rewrite Pu, Pv. reflexivity.
  - intros p Hp.
    pose proof (greens_between_finite GMT X par geo j p Hpar) as H.
    unfold greens_between in H. rewrite H.
    destruct (greens_real_between GMT X par geo j p) as [[g0 g1] g2]. reflexivity.
Qed.

Lemma build_system_fields (Ctrl : GPSGRIDDER_CTRL) (GMT : GMT_CTRL) (st : reader) :
  sys_n (build_system Ctrl GMT st) = rd_n st /\
  sys_X (build_system Ctrl GMT st) = rd_X st /\
  sys_par (build_system Ctrl GMT st) = init_par Ctrl (rd_r_min st).
Proof.
  unfold build_system.
  destruct (do_gps_normalization (rd_X st) (rd_u st) (rd_v st) (rd_n st)
              (normalize_mode Ctrl)) as [[u' v'] norm].
  cbn [sys_n sys_X sys_par]. auto.
Qed.

(** The single observation of [one_point] is normalized to zero. *)
Lemma one_point_normalized :
  let '(u', v', _) :=
    do_gps_normalization (fun _ _ => 1) (fun _ => 2) (fun _ => 3) 1 3%N in
  u' 0%nat = 0 /\ v' 0%nat = 0.
Proof.
  pose proof (do_gps_normalization_values (fun _ _ => 1) (fun _ => 2) (fun _ => 3)
                1 3%N 0 Nat.lt_0_1) as H.
  cbv zeta in H.
  destruct (do_gps_normalization (fun _ _ => 1) (fun _ => 2) (fun _ => 3) 1 3%N)
    as [[u' v'] coeff'].
  destruct single_observation_ranges as [Ru Rv].
  destruct (MAX_abs_zero _ _ Ru) as [Ua Ub]. destruct (MAX_abs_zero _ _ Rv) as [Va Vb].
  change (bit_set 3 GPS_NORM) with true in H.
  destruct H as (_ & _ & _ & Hbu & Hbv & _ & _ & Eu & Ev).
  rewrite Ua, Ub in Hbu. rewrite Va, Vb in Hbv.
  rewrite Eu, Ev.
  replace (res_u _ 0%nat) with 0 by lra. replace (res_v _ 0%nat) with 0 by lra.
  split; ring.
Qed.

Lemma one_point_par : 0 < init_par New_Ctrl (rd_r_min one_point) 1%nat.
Proof.
  unfold init_par. cbn [F_mode New_Ctrl Nat.eqb F_fudge rd_r_min one_point].
  rewrite upd_same. pose proof DBL_MAX_pos. lra.
Qed.

(** The zero vector solves the system of [one_point]. *)
Lemma one_point_solution :
  let sys := build_system New_Ctrl GMT_cartesian one_point in
  solves (sys_A sys) (2 * sys_n sys) (sys_obs sys) (fun _ => 0).
Proof.
  cbv zeta. pose proof one_point_par as Hpar. unfold build_system.
  pose proof one_point_normalized as Hz.
  change (normalize_mode New_Ctrl) with 3%N.
  cbn [rd_X rd_u rd_v rd_n rd_r_min one_point] in *.
  destruct (do_gps_normalization (fun _ _ => 1) (fun _ => 2) (fun _ => 3) 1 3%N)
    as [[u' v'] norm].
  destruct Hz as [Hu Hv]. cbn [sys_n sys_A sys_obs].
  destruct (unweighted_rows New_Ctrl GMT_cartesian (fun _ _ => 1) u' v' 1
              (init_par New_Ctrl DBL_MAX) (is_geographic GMT_cartesian)
              (fun _ => 0) 0 eq_refl Hpar Nat.lt_0_1) as [R0 R1].
  destruct (unweighted_entries New_Ctrl GMT_cartesian (fun _ _ => 1) u' v' 1
              (init_par New_Ctrl DBL_MAX) (is_geographic GMT_cartesian)
              0 0 eq_refl Hpar Nat.lt_0_1 Nat.lt_0_1) as (_ & _ & _ & _ & Eu & Ev).
  cbv zeta in R0, R1.
  intros row Hrow.
  assert (Hcase : row = 0%nat \/ row = (0 + 1)%nat) by lia.
  destruct Hcase as [-> | ->].
  - rewrite R0, Eu, Hu, Rsum_S, Rsum_0. unfold fin. f_equal. ring.
  - rewrite R1. change (0 + 1)%nat with (1 + 0)%nat. rewrite Ev, Hv, Rsum_S, Rsum_0.
    unfold fin. f_equal. ring.
Qed.

Lemma field_honours_observations_witness :
  let sys := build_system New_Ctrl GMT_cartesian one_point in
  W_active New_Ctrl = false /\
  antisymmetric_offsets GMT_cartesian (is_geographic GMT_cartesian) /\
  0 < sys_par sys 1%nat /\
  solves (sys_A sys) (2 * sys_n sys) (sys_obs sys) (fun _ => 0) /\
  (0 < sys_n sys)%nat /\
  predict_point GMT_cartesian (sys_X sys) (fun _ => 0) (sys_n sys) (sys_par sys)
    (is_geographic GMT_cartesian) (normalize_mode New_Ctrl) (sys_norm sys) (sys_X sys 0%nat)
  = (Some (rd_u one_point 0%nat), Some (rd_v one_point 0%nat)).
Proof.
  cbv zeta.
  assert (Hanti : antisymmetric_offsets GMT_cartesian (is_geographic GMT_cartesian))
    by (left; reflexivity).
  assert (Hpar : 0 < sys_par (build_system New_Ctrl GMT_cartesian one_point) 1%nat)
    by (rewrite (proj2 (proj2 (build_system_fields New_Ctrl GMT_cartesian one_point)));
        exact one_point_par).
  assert (Hn : (0 < sys_n (build_system New_Ctrl GMT_cartesian one_point))%nat)
    by (rewrite (proj1 (build_system_fields New_Ctrl GMT_cartesian one_point));
        exact Nat.lt_0_1).
  split; [reflexivity |]. split; [exact Hanti |]. split; [exact Hpar |].
  split; [exact one_point_solution |]. split; [exact Hn |].
  exact (field_honours_observations New_Ctrl GMT_cartesian one_point (fun _ => 0) 0
           eq_refl Hanti Hpar one_point_solution Hn).
Defined.

(** ** Symmetry of the matrix *)

Lemma pair_weight_u_comm (Ctrl : GPSGRIDDER_CTRL) (X : nat -> array) (i j : nat) :
  pair_weight_u Ctrl X j i = pair_weight_u Ctrl X i j.
Proof. unfold pair_weight_u. destruct (W_active Ctrl); [ring | reflexivity]. Qed.

Lemma pair_weight_v_comm (Ctrl : GPSGRIDDER_CTRL) (X : nat -> array) (i j : nat) :
  pair_weight_v Ctrl X j i = pair_weight_v Ctrl X i j.
Proof. unfold pair_weight_v. destruct (W_active Ctrl); [ring | reflexivity]. Qed.

(** The four entries of the pair (i, j) against those of the pair (j, i). *)
Lemma build_matrix_transposed (Ctrl : GPSGRIDDER_CTRL) (GMT : GMT_CTRL)
    (X : nat -> array) (u v : array) (n : nat) (par : array) (geo : bool) (i j : nat) :
  antisymmetric_offsets GMT geo ->
  (W_active Ctrl = true ->
   X i GMT_WU = X i GMT_WV /\ X j GMT_WU = X j GMT_WV) ->
  (i < n)%nat -> (j < n)%nat ->
  let A := asm_A (build_matrix Ctrl GMT X u v n par geo) in
  A (j * (2 * n) + i)%nat = A (i * (2 * n) + j)%nat /\
  A (j * (2 * n) + i + n)%nat = A ((i + n) * (2 * n) + j)%nat /\
  A ((j + n) * (2 * n) + i + n)%nat = A ((i + n) * (2 * n) + j + n)%nat.
Proof.
  intros Hanti Hw Hi Hj. cbv zeta.
  pose proof (build_matrix_spec Ctrl GMT X u v n par geo i j Hi Hj) as H1.
  pose proof (build_matrix_spec Ctrl GMT X u v n par geo j i Hj Hi) as H2.
  cbv zeta in H1, H2.
  rewrite (greens_between_swap GMT X par geo j i Hanti) in H2.
  destruct (greens_between GMT X par geo i j) as [[G0 G1] G2].
  destruct H1 as ((A1 & A2 & A3 & A4) & _). destruct H2 as ((B1 & B2 & B3 & B4) & _).
  rewrite A1, A2, A4, B1, B3, B4.
  rewrite (pair_weight_u_comm Ctrl X i j), (pair_weight_v_comm Ctrl X i j).
  split; [reflexivity |]. split; [| reflexivity].
  f_equal. f_equal. unfold pair_weight_u, pair_weight_v.
  destruct (W_active Ctrl); [| reflexivity].
  destruct (Hw eq_refl) as [Ei Ej]. rewrite Ei, Ej. reflexivity.
Qed.

(** X12. The matrix handed to the solver is symmetric when the offsets
    change sign with the exchange of the two points and either [-W] is not
    given or every retained observation has the same weight on u and on
    v. *)
Theorem system_matrix_symmetric (Ctrl : GPSGRIDDER_CTRL) (GMT : GMT_CTRL)
    (st : reader) (r c : nat) :
  antisymmetric_offsets GMT (is_geographic GMT) ->
  (W_active Ctrl = true ->
   forall i, (i < rd_n st)%nat -> rd_X st i GMT_WU = rd_X st i GMT_WV) ->
  let sys := build_system Ctrl GMT st in
  (r < 2 * sys_n sys)%nat -> (c < 2 * sys_n sys)%nat ->
  sys_A sys (r * (2 * sys_n sys) + c)%nat = sys_A sys (c * (2 * sys_n sys) + r)%nat.
Proof.
  intros Hanti Hw. cbv zeta. unfold build_system.
  destruct (do_gps_normalization (rd_X st) (rd_u st) (rd_v st) (rd_n st)
              (normalize_mode Ctrl)) as [[u' v'] norm].
  cbn [sys_n sys_A]. set (n := rd_n st) in *. intros Hr Hc.
  assert (Hpair : forall i j, (i < n)%nat -> (j < n)%nat ->
            W_active Ctrl = true ->
            rd_X st i GMT_WU = rd_X st i GMT_WV /\ rd_X st j GMT_WU = rd_X st j GMT_WV)
    by (intros i j Hi Hj HW; split; apply Hw; assumption).
  destruct (Nat.lt_ge_cases r n) as [Hrn | Hrn];
    destruct (Nat.lt_ge_cases c n) as [Hcn | Hcn].
  - destruct (build_matrix_transposed Ctrl GMT (rd_X st) u' v' n
                (init_par Ctrl (rd_r_min st)) (is_geographic GMT) c r Hanti
                (Hpair c r Hcn Hrn) Hcn Hrn) as (E & _).
    exact E.
  - assert (Hi : (c - n < n)%nat) by lia.
    destruct (build_matrix_transposed Ctrl GMT (rd_X st) u' v' n
                (init_par Ctrl (rd_r_min st)) (is_geographic GMT) (c - n) r Hanti
                (Hpair (c - n)%nat r Hi Hrn) Hi Hrn) as (_ & E & _).
    replace (r * (2 * n) + (c - n) + n)%nat with (r * (2 * n) + c)%nat in E by lia.
    replace (c - n + n)%nat with c in E by lia. exact E.
  - assert (Hj : (r - n < n)%nat) by lia.
    destruct (build_matrix_transposed Ctrl GMT (rd_X st) u' v' n
                (init_par Ctrl (rd_r_min st)) (is_geographic GMT) (r - n) c Hanti
                (Hpair (r - n)%nat c Hj Hcn) Hj Hcn) as (_ & E & _).
    replace (c * (2 * n) + (r - n) + n)%nat with (c * (2 * n) + r)%nat in E by lia.
    replace (r - n + n)%nat with r in E by lia. symmetry. exact E.
  - assert (Hi : (c - n < n)%nat) by lia. assert (Hj : (r - n < n)%nat) by lia.
    destruct (build_matrix_transposed Ctrl GMT (rd_X st) u' v' n
                (init_par Ctrl (rd_r_min st)) (is_geographic GMT) (c - n) (r - n) Hanti
                (Hpair (c - n)%nat (r - n)%nat Hi Hj) Hi Hj) as (_ & _ & E).
    replace ((r - n + n) * (2 * n) + (c - n) + n)%nat with (r * (2 * n) + c)%nat in E
      by nia.
    replace ((c - n + n) * (2 * n) + (r - n) + n)%nat with (c * (2 * n) + r)%nat in E
      by nia.
    exact E.
Qed.

Lemma system_matrix_symmetric_witness :
  let sys := build_system Ctrl_weighted GMT_cartesian (after_two_points 1) in
  antisymmetric_offsets GMT_cartesian (is_geographic GMT_cartesian) /\
  (W_active Ctrl_weighted = true ->
   forall i, (i < rd_n (after_two_points 1))%nat ->
     rd_X (after_two_points 1) i GMT_WU = rd_X (after_two_points 1) i GMT_WV) /\
  (1 < 2 * sys_n sys)%nat /\ (2 < 2 * sys_n sys)%nat /\
  sys_A sys (1 * (2 * sys_n sys) + 2)%nat = sys_A sys (2 * (2 * sys_n sys) + 1)%nat.
Proof.
  cbv zeta.
  assert (Hanti : antisymmetric_offsets GMT_cartesian (is_geographic GMT_cartesian))
    by (left; reflexivity).
  assert (Hw : W_active Ctrl_weighted = true ->
            forall i, (i < rd_n (after_two_points 1))%nat ->
              rd_X (after_two_points 1) i GMT_WU = rd_X (after_two_points 1) i GMT_WV).
  { intros _ i Hi.
    destruct (after_two_points_state 1)
      as (Hn & _ & (_ & _ & _ & _ & Hu0 & Hv0) & (_ & _ & _ & _ & Hu1 & Hv1)).
    rewrite Hn in Hi.
    destruct i as [| [| i]]; [rewrite Hu0, Hv0 | rewrite Hu1, Hv1 | lia]; reflexivity. }
  assert (H1 : (1 < 2 * sys_n (build_system Ctrl_weighted GMT_cartesian
                                 (after_two_points 1)))%nat)
    by (rewrite (proj1 (two_point_system 1)); lia).
  assert (H2 : (2 < 2 * sys_n (build_system Ctrl_weighted GMT_cartesian
                                 (after_two_points 1)))%nat)
    by (rewrite (proj1 (two_point_system 1)); lia).
  split; [exact Hanti |]. split; [exact Hw |]. split; [exact H1 |]. split; [exact H2 |].
  exact (system_matrix_symmetric Ctrl_weighted GMT_cartesian (after_two_points 1) 1 2
           Hanti Hw H1 H2).
Defined.

(** ** Input without coincident locations *)

Lemma count_upto_none (P : nat -> bool) (n : nat) :
  (forall i, (i < n)%nat -> P i = false) -> count_upto P n = 0%nat.
Proof.
  induction n as [| n IH]; intros H; [reflexivity |].
  rewrite count_upto_S, IH, (H n) by (intros; auto; lia). reflexivity.
Qed.

(** The reading loop on records of which no two are at the same
    location. *)
Lemma read_all_apart (Ctrl : GPSGRIDDER_CTRL) (GMT : GMT_CTRL) (recs : list array) :
  (forall i k, (i < k < length recs)%nat ->
     same_location GMT (record_at GMT recs) i (record_at GMT recs k) = false) ->
  let st := read_all Ctrl GMT recs init_reader in
  rd_n st = length recs /\ rd_n_skip st = 0%nat /\ rd_n_duplicates st = 0%nat /\
  forall k, (k < length recs)%nat ->
    rd_X st k GMT_X = record_at GMT recs k GMT_X /\
    rd_X st k GMT_Y = record_at GMT recs k GMT_Y /\
    rd_u st k = record_at GMT recs k GMT_U /\
    rd_v st k = record_at GMT recs k GMT_V.
Proof.
  induction recs as [| inp recs IH] using rev_ind; intros Hapart; cbv zeta.
  - cbn [read_all fold_left init_reader rd_n rd_n_skip rd_n_duplicates length].
    repeat split; try reflexivity; lia.
  - rewrite read_all_snoc, length_app. cbn [length].
    rewrite Nat.add_1_r.
    assert (Hnth : forall k, (k < length recs)%nat ->
              record_at GMT (recs ++ [inp]) k = record_at GMT recs k)
      by (intros k Hk; unfold record_at; rewrite app_nth1 by exact Hk; reflexivity).
    assert (Hlast : record_at GMT (recs ++ [inp]) (length recs) = fit_longitude GMT inp)
      by (unfold record_at; rewrite nth_middle; reflexivity).
    destruct IH as (Hn & Hs & Hd & Hrows).
    { intros i k Hik. rewrite length_app in Hapart. cbn [length] in Hapart.
      pose proof (Hapart i k ltac:(lia)) as H.
      unfold same_location in H |- *.
      rewrite !Hnth in H by lia. exact H. }
    set (st := read_all Ctrl GMT recs init_reader) in *.
    assert (Hnone : forall i, (i < rd_n st)%nat ->
              same_location GMT (rd_X st) i (fit_longitude GMT inp) = false).
    { intros i Hi. rewrite Hn in Hi.
      rewrite length_app in Hapart. cbn [length] in Hapart.
      pose proof (Hapart i (length recs) ltac:(lia)) as H.
      unfold same_location in H |- *.
      rewrite Hlast, Hnth in H by exact Hi.
      destruct (Hrows i Hi) as (Ex & Ey & _). rewrite Ex, Ey. exact H. }
    destruct (read_data_retain Ctrl GMT inp st) as (Hn' & Hs' & Hd' & Hx & Hy & Hu & Hv).
    { intros i Hi Hsame. rewrite (Hnone i Hi) in Hsame. discriminate Hsame. }
    rewrite count_upto_none in Hd' by exact Hnone.
    split; [rewrite Hn', Hn; reflexivity |].
    split; [rewrite Hs'; exact Hs |].
    split; [rewrite Hd', Hd; reflexivity |].
    intros k Hk. destruct (Nat.eq_dec k (length recs)) as [-> | Hne].
    + rewrite Hlast. rewrite <- Hn. auto.
    + assert (Hk' : (k < length recs)%nat) by lia.
      assert (Hk'' : (k < rd_n st)%nat) by (rewrite Hn; exact Hk').
      destruct (read_data_keeps Ctrl GMT inp st k Hk'') as (KX & Ku & Kv).
      rewrite KX, Ku, Kv, (Hnth k Hk'). apply Hrows. exact Hk'.
Qed.

(** X13. When the input has no read error and no two of its data records
    are at the same location, every record is retained, in order and with
    its u and v, none is counted as skipped or as a duplicate, and the gate
    on conflicting duplicates does not end the run, whatever [-C] is. *)
Theorem distinct_locations_all_retained (Ctrl : GPSGRIDDER_CTRL) (GMT : GMT_CTRL)
    (input : list record) :
  ~ In Rec_error input ->
  let recs := data_records input in
  (forall i k, (i < k < length recs)%nat ->
     same_location GMT (record_at GMT recs) i (record_at GMT recs k) = false) ->
  exists st,
    read_records Ctrl GMT input init_reader = inr st /\
    duplicate_gate Ctrl GMT st = None /\
    rd_n st = length recs /\ rd_n_skip st = 0%nat /\ rd_n_duplicates st = 0%nat /\
    forall k, (k < length recs)%nat ->
      rd_X st k GMT_X = record_at GMT recs k GMT_X /\
      rd_X st k GMT_Y = record_at GMT recs k GMT_Y /\
      rd_u st k = record_at GMT recs k GMT_U /\
      rd_v st k = record_at GMT recs k GMT_V.
Proof.
  intros Herr recs Hapart.
  destruct (read_all_apart Ctrl GMT recs Hapart) as (Hn & Hs & Hd & Hrows).
  exists (read_all Ctrl GMT recs init_reader).
  pose proof (read_records_fold Ctrl GMT input init_reader Herr) as Hread.
  fold recs in Hread.
  split; [exact Hread |].
  split.
  - unfold duplicate_gate. rewrite Hd. reflexivity.
  - auto.
Qed.

Lemma distinct_locations_all_retained_witness :
  let recs := data_records (two_points 1) in
  ~ In Rec_error (two_points 1) /\
  (forall i k, (i < k < length recs)%nat ->
     same_location GMT_cartesian (record_at GMT_cartesian recs) i
       (record_at GMT_cartesian recs k) = false) /\
  exists st,
    read_records Ctrl_weighted GMT_cartesian (two_points 1) init_reader = inr st /\
    duplicate_gate Ctrl_weighted GMT_cartesian st = None /\
    rd_n st = length recs /\ rd_n_skip st = 0%nat /\ rd_n_duplicates st = 0%nat /\
    forall k, (k < length recs)%nat ->
      rd_X st k GMT_X = record_at GMT_cartesian recs k GMT_X /\
      rd_X st k GMT_Y = record_at GMT_cartesian recs k GMT_Y /\
      rd_u st k = record_at GMT_cartesian recs k GMT_U /\
      rd_v st k = record_at GMT_cartesian recs k GMT_V.
Proof.
  cbv zeta.
  assert (Herr : ~ In Rec_error (two_points 1)).
  { intros [H | [H | H]]; [discriminate H | discriminate H | exact H]. }
  assert (Hapart : forall i k, (i < k < length (data_records (two_points 1)))%nat ->
            same_location GMT_cartesian
              (record_at GMT_cartesian (data_records (two_points 1))) i
              (record_at GMT_cartesian (data_records (two_points 1)) k) = false).
  { intros i k Hik. cbn [two_points data_records flat_map app length] in Hik.
    assert (Ei : i = 0%nat) by lia. assert (Ek : k = 1%nat) by lia. subst i k.
    apply cartesian_apart; reflexivity. }
  split; [exact Herr |]. split; [exact Hapart |].
  exact (distinct_locations_all_retained Ctrl_weighted GMT_cartesian (two_points 1)
           Herr Hapart).
Defined.

(** ** The field on the lattice *)

Section Lattice.

Variable GMT : GMT_CTRL.
Variable X : nat -> array.
Variables obs par coeff xp yp : array.
Variable n : nat.
Variable geo : bool.
Variable mode : N.
Variable ijp : nat -> nat -> nat.
Variables ny nx : nat.

Hypothesis ijp_injective :
  forall row col row' col',
    (row < ny)%nat -> (col < nx)%nat -> (row' < ny)%nat -> (col' < nx)%nat ->
    ijp row col = ijp row' col' -> row = row' /\ col = col'.

(** One node: only its own index is written, and that only when it is not
    masked. *)
Lemma lattice_body_other (row col : nat) (g : (nat -> double) * (nat -> double))
    (k : nat) :
  k <> ijp row col ->
  fst (lattice_body GMT X obs n par geo mode coeff xp yp ijp row col g) k = fst g k /\
  snd (lattice_body GMT X obs n par geo mode coeff xp yp ijp row col g) k = snd g k.
Proof.
  intros Hk. unfold lattice_body.
  destruct (fst g (ijp row col)); [| auto].
  destruct (predict_point GMT X obs n par geo mode coeff (node_location xp yp row col))
    as [U V].
  cbn [fst snd]. rewrite !upd_other by exact Hk. auto.
Qed.

Lemma lattice_body_node (row col : nat) (g0 g : (nat -> double) * (nat -> double)) :
  fst g (ijp row col) = fst g0 (ijp row col) ->
  snd g (ijp row col) = snd g0 (ijp row col) ->
  node_done g0 (lattice_body GMT X obs n par geo mode coeff xp yp ijp row col g)
    (ijp row col)
    (predict_point GMT X obs n par geo mode coeff (node_location xp yp row col)).
Proof.
  intros Hf Hs. unfold node_done, lattice_body.
  destruct (fst g0 (ijp row col)) as [x |]; rewrite Hf.
  - destruct (predict_point GMT X obs n par geo mode coeff (node_location xp yp row col))
      as [U V].
    cbn [fst snd]. rewrite !upd_same. split; reflexivity.
  - split; [exact Hf | exact Hs].
Qed.

Lemma node_done_carried (g0 g g' : (nat -> double) * (nat -> double)) (ij : nat)
    (P : double * double) :
  fst g' ij = fst g ij -> snd g' ij = snd g ij ->
  node_done g0 g ij P -> node_done g0 g' ij P.
Proof.
  unfold node_done. intros -> ->. auto.
Qed.

(** The loop on the columns of row [row], after [m] columns. *)
Lemma lattice_row_spec (row : nat) (g : (nat -> double) * (nat -> double)) (m : nat) :
  (row < ny)%nat -> (m <= nx)%nat ->
  let g' :=
    for_loop m
      (fun col g => lattice_body GMT X obs n par geo mode coeff xp yp ijp row col g) g in
  (forall col, (col < m)%nat ->
     node_done g g' (ijp row col)
       (predict_point GMT X obs n par geo mode coeff (node_location xp yp row col))) /\
  (forall k, (forall col, (col < m)%nat -> ijp row col <> k) ->
     fst g' k = fst g k /\ snd g' k = snd g k).
Proof.
  intros Hrow. induction m as [| m IH]; intros Hm; cbv zeta.
  - rewrite for_loop_0. split; [intros col Hc; lia | auto].
  - rewrite for_loop_S. destruct IH as [Hdone Hframe]; [lia |].
    set (g' := for_loop m _ g) in *.
    split.
    + intros col Hc. destruct (Nat.eq_dec col m) as [-> | Hne].
      * destruct (Hframe (ijp row m)) as [Ef Es].
        { intros col Hc' E.
          destruct (ijp_injective row col row m) as [_ Eq]; try assumption; lia. }
        apply lattice_body_node; assumption.
      * assert (Hk : ijp row col <> ijp row m).
        { intros E.
          destruct (ijp_injective row col row m) as [_ Eq]; try assumption; lia. }
        destruct (lattice_body_other row m g' _ Hk) as [Ef Es].
        apply (node_done_carried g g'); [exact Ef | exact Es |].
        apply Hdone. lia.
    + intros k Hk.
      assert (Hk' : k <> ijp row m)
        by (intros E; apply (Hk m); [lia | symmetry; exact E]).
      destruct (lattice_body_other row m g' k Hk') as [Ef Es].
      destruct (Hframe k) as [Ff Fs]; [intros col Hc; apply Hk; lia |].
      rewrite Ef, Es. auto.
Qed.

(** The loop on the rows, after [r] rows. *)
Lemma lattice_rows_spec (g : (nat -> double) * (nat -> double)) (r : nat) :
  (r <= ny)%nat ->
  let g' := evaluate_lattice GMT X obs n par geo mode coeff xp yp ijp r nx g in
  (forall row col, (row < r)%nat -> (col < nx)%nat ->
     node_done g g' (ijp row col)
       (predict_point GMT X obs n par geo mode coeff (node_location xp yp row col))) /\
  (forall k, (forall row col, (row < r)%nat -> (col < nx)%nat -> ijp row col <> k) ->
     fst g' k = fst g k /\ snd g' k = snd g k).
Proof.
  induction r as [| r IH]; intros Hr; cbv zeta; unfold evaluate_lattice.
  - rewrite for_loop_0. split; [intros row col Hrow; lia | auto].
  - rewrite for_loop_S. destruct IH as [Hdone Hframe]; [lia |].
    cbv zeta in Hdone, Hframe. unfold evaluate_lattice in Hdone, Hframe.
    set (g' := for_loop r _ g) in *.
    destruct (lattice_row_spec r g' nx) as [Rdone Rframe]; [lia | lia |].
    cbv zeta in Rdone, Rframe.
    set (g'' := for_loop nx _ g') in *.
    split.
    + intros row col Hrow Hcol. destruct (Nat.eq_dec row r) as [-> | Hne].
      * destruct (Hframe (ijp r col)) as [Ef Es].
        { intros row' col' Hrow' Hcol' E.
          destruct (ijp_injective row' col' r col) as [Eq _]; try assumption; lia. }
        pose proof (Rdone col Hcol) as Hn. unfold node_done in Hn |- *.
        rewrite Ef, Es in Hn. exact Hn.
      * destruct (Rframe (ijp row col)) as [Ef Es].
        { intros col' Hcol' E.
          destruct (ijp_injective r col' row col) as [Eq _]; try assumption; lia. }
        apply (node_done_carried g g'); [exact Ef | exact Es |].
        apply Hdone; [lia | exact Hcol].
    + intros k Hk.
      destruct (Rframe k) as [Ef Es]; [intros col Hcol; apply Hk; [lia | exact Hcol] |].
      destruct (Hframe k) as [Ff Fs];
        [intros row col Hrow Hcol; apply Hk; [lia | exact Hcol] |].
      rewrite Ef, Es. auto.
Qed.

End Lattice.

(** X14. On a lattice whose nodes have indices of their own in the grids,
    the evaluation leaves a masked node (first grid NaN) as it was, gives
    every other node the field at its location ([xp] of its column, [yp] of
    its row), and touches nothing of the grids outside the lattice. *)
Theorem lattice_respects_mask (GMT : GMT_CTRL) (X : nat -> array)
    (obs par coeff xp yp : array) (n : nat) (geo : bool) (mode : N)
    (ijp : nat -> nat -> nat) (ny nx : nat) (g : (nat -> double) * (nat -> double)) :
  (forall row col row' col',
     (row < ny)%nat -> (col < nx)%nat -> (row' < ny)%nat -> (col' < nx)%nat ->
     ijp row col = ijp row' col' -> row = row' /\ col = col') ->
  let g' := evaluate_lattice GMT X obs n par geo mode coeff xp yp ijp ny nx g in
  (forall row col, (row < ny)%nat -> (col < nx)%nat ->
     node_done g g' (ijp row col)
       (predict_point GMT X obs n par geo mode coeff (node_location xp yp row col))) /\
  (forall k, (forall row col, (row < ny)%nat -> (col < nx)%nat -> ijp row col <> k) ->
     fst g' k = fst g k /\ snd g' k = snd g k).
Proof.
  intros Hinj.
  exact (lattice_rows_spec GMT X obs par coeff xp yp n geo mode ijp ny nx Hinj g ny
           (Nat.le_refl ny)).
Qed.

Lemma lattice_respects_mask_witness :
  let ijp := fun row col => (row * 2 + col)%nat in
  let g := (upd (fun _ => fin 0) 1 None, fun _ : nat => fin 0) in
  let g' := evaluate_lattice GMT_cartesian (fun _ _ => 0) (fun _ => 0) 0
              (fun _ => 0) false 0%N (fun _ => 0) INR INR ijp 2 2 g in
  (forall row col row' col',
     (row < 2)%nat -> (col < 2)%nat -> (row' < 2)%nat -> (col' < 2)%nat ->
     ijp row col = ijp row' col' -> row = row' /\ col = col') /\
  (forall row col, (row < 2)%nat -> (col < 2)%nat ->
     node_done g g' (ijp row col)
       (predict_point GMT_cartesian (fun _ _ => 0) (fun _ => 0) 0 (fun _ => 0) false
          0%N (fun _ => 0) (node_location INR INR row col))) /\
  (forall k, (forall row col, (row < 2)%nat -> (col < 2)%nat -> ijp row col <> k) ->
     fst g' k = fst g k /\ snd g' k = snd g k).
Proof.
  cbv zeta.
  assert (Hinj : forall row col row' col',
            (row < 2)%nat -> (col < 2)%nat -> (row' < 2)%nat -> (col' < 2)%nat ->
            (row * 2 + col)%nat = (row' * 2 + col')%nat -> row = row' /\ col = col')
    by (intros; lia).
  split; [exact Hinj |].
  exact (lattice_respects_mask GMT_cartesian (fun _ _ => 0) (fun _ => 0) (fun _ => 0)
           (fun _ => 0) INR INR 0 false 0%N (fun row col => (row * 2 + col)%nat) 2 2
           (upd (fun _ => fin 0) 1 None, fun _ : nat => fin 0) Hinj).
Defined.

(** ** The Green's functions and the unit of length *)

(** X15. Multiplying the offsets by [s] and the fudge by [s * s], as a
    change of the unit of length does, leaves G[2] as it is and adds
    [c1 * ln (s * s)] to G[0] and to G[1]. *)
Theorem greens_function_rescaling (s dx dy : R) (par : array) :
  s <> 0 ->
  let '(G0, G1, G2) := evaluate_greensfunctions dx dy par in
  let shift := fin ((3.0 - par 0%nat) / 2.0 * ln (s * s)) in
  evaluate_greensfunctions (s * dx) (s * dy) (upd par 1 (s * s * par 1%nat))
  = (dadd G0 shift, dadd G1 shift, G2).
Proof.
  intros Hs. cbv zeta. unfold evaluate_greensfunctions.
  rewrite upd_same, upd_other by lia.
  replace (s * dx * (s * dx) + s * dy * (s * dy) + s * s * par 1%nat)
    with (s * s * (dx * dx + dy * dy + par 1%nat)) by ring.
  set (r2 := dx * dx + dy * dy + par 1%nat).
  assert (Hss : 0 < s * s) by nra.
  rewrite !lit_1, lit_2, lit_3.
  unfold c_log, c_div.
  destruct (Rlt_dec 0 r2) as [Hp | Hnp].
  - assert (Hp' : 0 < s * s * r2) by (apply Rmult_lt_0_compat; assumption).
    destruct (Rlt_dec 0 (s * s * r2)) as [_ | Hc]; [| contradiction].
    destruct (Req_dec_T r2 0) as [Hz | Hnz]; [lra |].
    destruct (Req_dec_T (s * s * r2) 0) as [Hz' | _]; [lra |].
    rewrite ln_mult by assumption. cbn [dadd dmul dlift2 fin].
    f_equal; [f_equal |]; f_equal; field; auto.
  - assert (Hnp' : ~ 0 < s * s * r2) by (intros H; apply Hnp; nra).
    destruct (Rlt_dec 0 (s * s * r2)) as [Hc | _]; [contradiction |].
    destruct (Req_dec_T r2 0) as [Hz | Hnz].
    + destruct (Req_dec_T (s * s * r2) 0) as [_ | Hc];
        [| exfalso; apply Hc; rewrite Hz; ring].
      reflexivity.
    + destruct (Req_dec_T (s * s * r2) 0) as [Hc | _]; [exfalso; nra |].
      cbn [dadd dmul dlift2 fin]. do 2 f_equal. field. auto.
Qed.

Lemma greens_function_rescaling_witness :
  1000 <> 0 /\
  let par := upd (upd ((fun _ => 0) : array) 0 1.1) 1 0.01 in
  let '(G0, G1, G2) := evaluate_greensfunctions 3 4 par in
  let shift := fin ((3.0 - par 0%nat) / 2.0 * ln (1000 * 1000)) in
  evaluate_greensfunctions (1000 * 3) (1000 * 4) (upd par 1 (1000 * 1000 * par 1%nat))
  = (dadd G0 shift, dadd G1 shift, G2).
Proof.
  assert (H : 1000 <> 0) by lra.
  split; [exact H |].
  exact (greens_function_rescaling 1000 3 4
           (upd (upd ((fun _ => 0) : array) 0 1.1) 1 0.01) H).
Defined.
